(** * Colab VS Code extension: authentication flows and the async toggle

    A shallow embedding of the asynchronous parts of the extension:
    - [Toggle]: [AsyncToggle] from [src/common/toggleable.ts];
    - [Url]: the query-string functions the flows rely on, and the URL
      parser of the platform as a parameter of the loopback handler;
    - [CodeManager]: the broker of pending code-waits;
    - [LoopbackServer]: the class of [src/common/loopback-server.ts];
    - [Loopback]: [LocalServerFlow] with its [Handler], from
      [src/auth/flows/loopback.ts];
    - [Proxied]: the callback of the proxied-redirect flow;
    - [Provider]: session persistence of the authentication provider;
    - [ToggleTrace], [LoopbackServerLife], [FlowLife] and [Answer]: the
      notions for the invariants of the toggle, of a loopback server and
      of the flow over all their runs;
    - [CcuInformation]: the poller of [src/colab/ccu-info.ts].
    The models are followed by the theorems about them, module by module.

    JavaScript is single threaded: an [async] function runs without
    interruption up to its next [await].  Each function is therefore cut at
    its [await]s into pieces that run atomically on an explicit state, and
    the environment (the event loop) decides in which order parked
    activations are resumed. *)

From Stdlib Require Import Ascii.
From stdpp Require Import gmap strings list fin_maps pretty.

Open Scope string_scope.
Open Scope list_scope.

(** ** A small state monad

    The pieces of the embedded methods thread the mutable fields of [this]
    (and of the objects it owns) through a state monad. *)

Definition St (W A : Type) : Type := W → A * W.

Section state_monad.
Context {W : Type}.

#[export] Instance St_ret : MRet (St W) := λ A a s, (a, s).
#[export] Instance St_bind : MBind (St W) :=
  λ A B f m s, let '(a, s') := m s in f a s'.

Definition gets {A} (f : W → A) : St W A := λ s, (f s, s).
Definition modify (f : W → W) : St W unit := λ s, ((), f s).
Definition exec {A} (m : St W A) (s : W) : W := snd (m s).
Definition eval {A} (m : St W A) (s : W) : A := fst (m s).
Definition when (b : bool) (m : St W unit) : St W unit :=
  if b then m else mret ().
End state_monad.

(** ** AsyncToggle *)

Module Toggle.

(** [type ToggleDirection = "on" | "off"] *)
Inductive ToggleDirection := on | off.

#[export] Instance ToggleDirection_eq_dec : EqDecision ToggleDirection.
Proof. solve_decision. Defined.

Definition direction_name (d : ToggleDirection) : string :=
  match d with on => "on" | off => "off" end.

(** Values that are thrown, or given as the reason of an abort.
    [ToggleAbortedError] is the class of the source; [Failure] stands for
    whatever else [turnOn]/[turnOff] may reject with. *)
Inductive error :=
| ToggleAbortedError (from to : ToggleDirection)
| Failure (msg : string).

#[export] Instance toggle_error_eq_dec : EqDecision error.
Proof. solve_decision. Defined.

Definition error_message (e : error) : string :=
  match e with
  | ToggleAbortedError from to =>
      "Toggling from " +:+ direction_name from +:+
      " superseded by toggle to " +:+ direction_name to
  | Failure msg => msg
  end.

(** An [AbortController] is identified by its allocation index; the heap
    keeps the [aborted] flag and [reason] of its signal. *)
Definition ctrl := nat.

Record AbortSignal := { aborted : bool; reason : option error }.

(** [private inFlight?: { ctrl: AbortController; to: ToggleDirection }] *)
Record InFlight := { in_ctrl : ctrl; in_to : ToggleDirection }.

#[export] Instance InFlight_eq_dec : EqDecision InFlight.
Proof. solve_decision. Defined.

(** What an observer of the toggle can see: the calls of the abstract
    methods with the signal they received, the aborts, and the log. *)
Inductive effect :=
| TurnOn (c : ctrl)
| TurnOff (c : ctrl)
| Abort (c : ctrl) (r : error)
| LogTrace (msg : string) (err : option error)
| LogError (msg : string) (err : error).

#[export] Instance effect_eq_dec : EqDecision effect.
Proof. solve_decision. Defined.

Definition Turn (to : ToggleDirection) (c : ctrl) : effect :=
  match to with on => TurnOn c | off => TurnOff c end.

Record state := {
  inFlight : option InFlight;
  signals : gmap ctrl AbortSignal;
  allocated : nat;
  (** activations of [toggle] parked at their [await], by controller *)
  parked : gmap ctrl ToggleDirection;
  effects : list effect
}.

Definition init : state :=
  {| inFlight := None; signals := ∅; allocated := 0; parked := ∅;
     effects := [] |}.

Definition set_inFlight (f : option InFlight) : St state unit :=
  modify (λ s, {| inFlight := f; signals := signals s;
                  allocated := allocated s; parked := parked s;
                  effects := effects s |}).

Definition emit (e : effect) : St state unit :=
  modify (λ s, {| inFlight := inFlight s; signals := signals s;
                  allocated := allocated s; parked := parked s;
                  effects := effects s ++ [e] |}).

Definition set_parked (p : gmap ctrl ToggleDirection) : St state unit :=
  modify (λ s, {| inFlight := inFlight s; signals := signals s;
                  allocated := allocated s; parked := p;
                  effects := effects s |}).

(** [new AbortController()] *)
Definition newAbortController : St state ctrl :=
  λ s, (allocated s,
        {| inFlight := inFlight s;
           signals := <[allocated s := {| aborted := false; reason := None |}]>
                        (signals s);
           allocated := S (allocated s); parked := parked s;
           effects := effects s |}).

(** [ctrl.signal.aborted] *)
Definition signal_aborted (c : ctrl) (s : state) : bool :=
  match signals s !! c with
  | Some sig => aborted sig
  | None => false
  end.

(** [ctrl.abort(reason)]: the first abort sets the flag and the reason,
    later ones change nothing. *)
Definition abort (c : ctrl) (r : error) : St state unit :=
  emit (Abort c r);;
  modify (λ s,
    if signal_aborted c s then s
    else {| inFlight := inFlight s;
            signals := <[c := {| aborted := true; reason := Some r |}]>
                         (signals s);
            allocated := allocated s; parked := parked s;
            effects := effects s |}).

(** [private hasActiveControl(ctrl): boolean] *)
Definition hasActiveControl (c : ctrl) (s : state) : bool :=
  match inFlight s with
  | Some f => bool_decide (in_ctrl f = c)
  | None => false
  end.

(** How a call of [toggle] leaves its synchronous prefix. *)
Inductive activation :=
| Returned              (** returned before any [await] *)
| Awaiting (c : ctrl).  (** parked on the promise of [turnOn]/[turnOff] *)

(** How the promise of [turnOn]/[turnOff] settles. *)
Inductive outcome :=
| Fulfilled
| Rejected (err : error).

(** How the promise returned by [toggle] settles. *)
Inductive completion :=
| Resolved
| Threw (err : error).

(** The part of [toggle] after the early return: allocate the controller,
    record it, call the abstract method and park on its promise. *)
Definition launch (to : ToggleDirection) : St state activation :=
  c ← newAbortController;
  set_inFlight (Some {| in_ctrl := c; in_to := to |});;
  emit (Turn to c);;
  p ← gets parked;
  set_parked (<[c := to]> p);;
  mret (Awaiting c).

(** [toggle(to)] up to its [await]. *)
Definition toggle (to : ToggleDirection) : St state activation :=
  f ← gets inFlight;
  match f with
  | Some f =>
      if decide (in_to f = to) then mret Returned
      else abort (in_ctrl f) (ToggleAbortedError (in_to f) to);; launch to
  | None => launch to
  end.

(** [toggle(to)] from its [await] on: the [try] body after the await, the
    [catch] and the [finally]. *)
Definition toggle_resume (c : ctrl) (to : ToggleDirection) (o : outcome)
  : St state completion :=
  r ← match o with
      | Fulfilled =>
          active ← gets (hasActiveControl c);
          if active : bool then
            emit (LogTrace ("Async toggle to " +:+ direction_name to +:+
                            " completed successfully.") None);;
            mret Resolved
          else
            emit (LogTrace ("Completed toggle to " +:+ direction_name to +:+
                            " but a new one superseded it.") None);;
            mret Resolved
      | Rejected err =>
          ab ← gets (signal_aborted c);
          if ab : bool then
            emit (LogTrace "Async toggle aborted." (Some err));;
            mret Resolved
          else
            emit (LogError ("Async toggle to " +:+ direction_name to +:+
                            " failed unexpectedly.") err);;
            mret (Threw err)
      end;
  active ← gets (hasActiveControl c);
  when active (set_inFlight None);;
  mret r.

(** What the environment can do to a toggle: call [on()] or [off()], or
    settle the promise a parked activation waits for. *)
Inductive event :=
| Call (to : ToggleDirection)
| Settle (c : ctrl) (o : outcome).

Inductive observation :=
| Started (a : activation)
| Finished (r : completion)
| Ignored.

Definition step (e : event) : St state observation :=
  match e with
  | Call to => a ← toggle to; mret (Started a)
  | Settle c o =>
      p ← gets parked;
      match p !! c with
      | Some to =>
          set_parked (delete c p);;
          r ← toggle_resume c to o;
          mret (Finished r)
      | None => mret Ignored
      end
  end.

Fixpoint run (es : list event) : St state (list observation) :=
  match es with
  | [] => mret []
  | e :: es => o ← step e; os ← run es; mret (o :: os)
  end.

Inductive reachable : state → Prop :=
| reachable_init : reachable init
| reachable_step s e : reachable s → reachable (exec (step e) s).

(** *** Notions used in the statements about the toggle *)

(** The signal of a new controller. *)
Definition fresh_signal : AbortSignal := {| aborted := false; reason := None |}.

(** [e] is a call of [turnOn] or [turnOff] with the signal of controller
    [c]. *)
Definition is_turn (c : ctrl) (e : effect) : bool :=
  match e with
  | TurnOn c' | TurnOff c' => bool_decide (c' = c)
  | _ => false
  end.

(** The number of calls of [turnOn]/[turnOff] that received the signal of
    controller [c]. *)
Definition calls_with (c : ctrl) (es : list effect) : nat :=
  length (List.filter (is_turn c) es).

(** Invariants of the states a toggle can be in: the in-flight record
    belongs to a parked activation whose signal is not aborted; every other
    parked activation has been superseded; each controller was handed to
    exactly one call of [turnOn]/[turnOff]. *)
Record inv (s : state) : Prop := {
  inv_active f :
    inFlight s = Some f →
    parked s !! in_ctrl f = Some (in_to f) ∧
    signal_aborted (in_ctrl f) s = false;
  inv_parked c d :
    parked s !! c = Some d → c < allocated s ∧ Turn d c ∈ effects s;
  inv_superseded c d :
    parked s !! c = Some d → hasActiveControl c s = false →
    signal_aborted c s = true;
  inv_calls c :
    calls_with c (effects s) = if decide (c < allocated s) then 1 else 0
}.

(** The log entry the second half of [toggle] writes. *)
Definition resume_log (c : ctrl) (to : ToggleDirection) (o : outcome)
    (s : state) : effect :=
  match o with
  | Fulfilled =>
      if hasActiveControl c s
      then LogTrace ("Async toggle to " +:+ direction_name to +:+
                     " completed successfully.") None
      else LogTrace ("Completed toggle to " +:+ direction_name to +:+
                     " but a new one superseded it.") None
  | Rejected err =>
      if signal_aborted c s
      then LogTrace "Async toggle aborted." (Some err)
      else LogError ("Async toggle to " +:+ direction_name to +:+
                     " failed unexpectedly.") err
  end.

(** How the second half of [toggle] settles the promise of the call. *)
Definition resume_result (c : ctrl) (o : outcome) (s : state) : completion :=
  match o with
  | Fulfilled => Resolved
  | Rejected err => if signal_aborted c s then Resolved else Threw err
  end.

(** A toggle right after its first [on()]. *)
Definition on_in_flight : state := exec (step (Call on)) init.

End Toggle.

(** ** Values shared by the flows *)

(** JavaScript exceptions.  [Error msg] is [new Error(msg)],
    [TypeError msg] is [new TypeError(msg)] and [AssertionError] what a
    failed [assert(...)] throws.  The last three are what the code manager
    rejects a code-wait with; see [CodeManager]. *)
Inductive error :=
| Error (message : string)
| TypeError (message : string)
| AssertionError
| CodeTimeout
| CodeCancelled
| DuplicateNonce.

#[export] Instance error_eq_dec : EqDecision error.
Proof. solve_decision. Defined.

(** The state of a promise. *)
Inductive settled (A : Type) :=
| Pending
| Fulfilled (a : A)
| Rejected (e : error).
Arguments Pending {A}.
Arguments Fulfilled {A} a.
Arguments Rejected {A} e.

(** How a call ends: with a value, or with an exception. *)
Inductive result (A : Type) :=
| Returns (a : A)
| Throws (e : error).
Arguments Returns {A} a.
Arguments Throws {A} e.

(** ** URLs and query strings

    The flows use the platform's [URL], [URLSearchParams] and
    [encodeURIComponent].  Strings are sequences of bytes (UTF-8), which is
    what percent-encoding works on.

    The functions of the first part compute on query strings.  The handler
    of the loopback flow calls the URL parser on what a client sent; what
    the parser answers there is taken as a parameter, the [Library] at the
    end of the module. *)

Module Url.

Definition hex_value (c : ascii) : option N :=
  let n := N_of_ascii c in
  if (48 <=? n)%N && (n <=? 57)%N then Some (n - 48)%N
  else if (65 <=? n)%N && (n <=? 70)%N then Some (n - 55)%N
  else if (97 <=? n)%N && (n <=? 102)%N then Some (n - 87)%N
  else None.

Definition hex_digit (n : N) : ascii :=
  if (n <? 10)%N then ascii_of_N (48 + n) else ascii_of_N (55 + n).

(** Percent-decoding, on bytes: [%XY] with two hexadecimal digits is one
    byte, any other [%] stands for itself.  The platform goes on to read
    the decoded bytes as UTF-8 text.  For bytes that are valid UTF-8, ASCII
    in particular, the text is that same sequence of bytes; the
    replacement of bytes that are not is not modelled. *)
Fixpoint percent_decode (s : string) : string :=
  match s with
  | EmptyString => EmptyString
  | String c rest =>
      if Ascii.eqb c "%" then
        match rest with
        | String a (String b rest') =>
            match hex_value a, hex_value b with
            | Some x, Some y =>
                String (ascii_of_N (16 * x + y)) (percent_decode rest')
            | _, _ => String c (percent_decode rest)
            end
        | _ => String c (percent_decode rest)
        end
      else String c (percent_decode rest)
  end.

Fixpoint plus_to_space (s : string) : string :=
  match s with
  | EmptyString => EmptyString
  | String c rest =>
      String (if Ascii.eqb c "+" then " "%char else c) (plus_to_space rest)
  end.

(** [s.split(sep)] *)
Fixpoint split_on (sep : ascii) (s : string) : list string :=
  match s with
  | EmptyString => [EmptyString]
  | String c rest =>
      if Ascii.eqb c sep then EmptyString :: split_on sep rest
      else match split_on sep rest with
           | w :: ws => String c w :: ws
           | [] => [String c EmptyString]
           end
  end.

(** The part before the first [sep], and the part after it if there is
    one. *)
Fixpoint split_first (sep : ascii) (s : string) : string * option string :=
  match s with
  | EmptyString => (EmptyString, None)
  | String c rest =>
      if Ascii.eqb c sep then (EmptyString, Some rest)
      else let '(a, b) := split_first sep rest in (String c a, b)
  end.

Definition decode_component (s : string) : string :=
  percent_decode (plus_to_space s).

(** The [application/x-www-form-urlencoded] parser: the pairs of a query
    string, in order. *)
Definition parse_pair (seq : string) : list (string * string) :=
  match seq with
  | EmptyString => []
  | _ =>
      let '(name, value) := split_first "=" seq in
      [(decode_component name, decode_component (default EmptyString value))]
  end.

Definition parse (query : string) : list (string * string) :=
  flat_map parse_pair (split_on "&" query).

(** [new URLSearchParams(init)] for a string [init]: one leading [?] is
    dropped. *)
Definition URLSearchParams (init : string) : list (string * string) :=
  match init with
  | String c rest => if Ascii.eqb c "?" then parse rest else parse init
  | EmptyString => []
  end.

(** [params.get(name)]: the first value under [name], or [null]. *)
Fixpoint get (name : string) (params : list (string * string))
  : option string :=
  match params with
  | [] => None
  | (k, v) :: rest => if String.eqb k name then Some v else get name rest
  end.

(** JavaScript truthiness of a [string | null]: [null] and the empty
    string are falsy. *)
Definition truthy (v : option string) : bool :=
  match v with
  | Some (String _ _) => true
  | _ => false
  end.

Definition is_path_end (c : ascii) : bool :=
  Ascii.eqb c "?" || Ascii.eqb c "#".

Fixpoint take_path (s : string) : string :=
  match s with
  | EmptyString => EmptyString
  | String c rest =>
      if is_path_end c then EmptyString else String c (take_path rest)
  end.

(** The path of a request target in origin form, [/path?query#fragment]:
    what comes before the first [?] or [#]. *)
Definition path_of (target : string) : string :=
  match take_path target with
  | EmptyString => "/"
  | p => p
  end.

(** The query of such a target, without its [?] and without the
    fragment. *)
Definition query_of (target : string) : string :=
  match snd (split_first "?" (fst (split_first "#" target))) with
  | Some q => q
  | None => EmptyString
  end.

(** [encodeURIComponent]: letters, digits and [- _ . ! ~ * ' ( )] are
    kept, every other byte becomes [%XY] in upper case. *)
Definition unreserved (c : ascii) : bool :=
  let n := N_of_ascii c in
  ((48 <=? n)%N && (n <=? 57)%N) || ((65 <=? n)%N && (n <=? 90)%N) ||
  ((97 <=? n)%N && (n <=? 122)%N) ||
  bool_decide (c ∈ ["-"; "_"; "."; "!"; "~"; "*"; "'"; "("; ")"]%char).

Fixpoint encodeURIComponent (s : string) : string :=
  match s with
  | EmptyString => EmptyString
  | String c rest =>
      if unreserved c then String c (encodeURIComponent rest)
      else
        let n := N_of_ascii c in
        String "%" (String (hex_digit (n / 16)) (String (hex_digit (n mod 16))
          (encodeURIComponent rest)))
  end.

(** *** The URL parser as the loopback handler calls it

    [Handler.handleRequest] calls [new URL(req.url, base)] on the target
    and the [Host] header of a request, reads [pathname] and
    [searchParams] of the result, calls [new URLSearchParams(state)], and
    [path.join] for the file it serves.  Which hosts and targets the
    parser accepts, how it normalises the path (dot segments, escapes,
    absolute targets) and how it decodes escaped bytes to text is defined
    by the platform and not by the extension: the flow takes these
    functions as a parameter, and the statements about the handler are
    about what it does with their answers. *)

(** A parsed URL, as far as the handler reads it. *)
Record URL := {
  pathname : string;
  searchParams : list (string * string)
}.

Record Library := {
  (** [new URL(input, base)]: the parsed URL, or the [TypeError] it
      throws *)
  new_URL : string → string → result URL;
  (** [new URLSearchParams(init)] *)
  new_URLSearchParams : string → list (string * string);
  (** [path.join(a, b)] *)
  path_join : string → string → string
}.

(** The library on the requests of the unit tests: a target in origin
    form whose path has no dot segments and no escapes, with a query in
    ASCII, sent to a host and port that the parser accepts, and file
    names without separators.  On these the platform answers what
    [origin_form] computes; [origin_form] says nothing about the platform
    on other requests. *)
Definition origin_form : Library :=
  {| new_URL target base :=
       Returns {| pathname := path_of target;
                  searchParams := parse (query_of target) |};
     new_URLSearchParams := URLSearchParams;
     path_join a b := a +:+ "/" +:+ b |}.

End Url.

(** ** Code manager *)

Module CodeManager.

(** The source of [CodeManager] ([src/auth/code-manager.ts]) is missing,
    only its uses in [LocalServerFlow] are at hand.  This module follows
    section 4.2 of the specification, which describes a keyed single-shot
    promise broker. *)

(** Promises and cancellation tokens are identified by their allocation
    index. *)
Definition pid := nat.
Definition token := nat.

(** Modelled from the spec: the constant of the missing [CodeManager] for
    the "fixed timeout (60 seconds)" of a code-wait, in milliseconds. *)
Definition TIMEOUT_MS : N := 60000.

(** Modelled from the spec: the registration of the missing [CodeManager]
    for one nonce, "keyed by nonce -> {resolve, reject} pair".  [promise]
    is the promise the pair settles, [deadline] the time at which its
    timer is due, [cancel] the token it listens to. *)
Record waiter := { promise : pid; deadline : N; cancel : token }.

(** Modelled from the spec: the state of the missing [CodeManager], the
    waiters by nonce, and the promises it has created. *)
Record state := {
  waiters : gmap string waiter;
  promises : gmap pid (settled string);
  allocated : nat
}.

Definition init : state :=
  {| waiters := ∅; promises := ∅; allocated := 0 |}.

(** Modelled from the spec: [waitForCode(nonce, cancel)] of the missing
    [CodeManager], called at time [now]; it "registers a waiter for
    nonce".  A second call for a nonce that is still waited for is left
    open by the specification ("a contract violation"); here it returns a
    promise that is rejected already and leaves the first waiter alone. *)
Definition waitForCode (now : N) (nonce : string) (tok : token)
  : St state pid :=
  λ s,
    let p := allocated s in
    match waiters s !! nonce with
    | Some _ =>
        (p, {| waiters := waiters s;
               promises := <[p := Rejected DuplicateNonce]> (promises s);
               allocated := S p |})
    | None =>
        (p, {| waiters := <[nonce := {| promise := p;
                                        deadline := (now + TIMEOUT_MS)%N;
                                        cancel := tok |}]> (waiters s);
               promises := <[p := Pending]> (promises s);
               allocated := S p |})
    end.

(** Modelled from the spec: what the missing [CodeManager] does on a
    terminal outcome; it settles the waiter registered under [nonce], if
    any, and "cleans up its registration".  Returns the promise that was
    settled. *)
Definition finish (nonce : string) (r : settled string)
  : St state (option pid) :=
  λ s,
    match waiters s !! nonce with
    | Some w =>
        (Some (promise w),
         {| waiters := delete nonce (waiters s);
            promises := <[promise w := r]> (promises s);
            allocated := allocated s |})
    | None => (None, s)
    end.

(** Modelled from the spec: [resolveCode(nonce, code)] of the missing
    [CodeManager]; "no-op (not an error) if no waiter is registered for
    that nonce". *)
Definition resolveCode (nonce code : string) : St state (option pid) :=
  finish nonce (Fulfilled code).

(** Modelled from the spec: the timer of the waiter under [nonce] in the
    missing [CodeManager] fires at time [now]; the wait "rejects ... after
    a fixed timeout elapses with no resolution".  Timers do not fire
    before they are due. *)
Definition timeout (now : N) (nonce : string) : St state (option pid) :=
  λ s,
    match waiters s !! nonce with
    | Some w =>
        if (deadline w <=? now)%N
        then finish nonce (Rejected CodeTimeout) s
        else (None, s)
    | None => (None, s)
    end.

(** Modelled from the spec: the cancellation listener of the missing
    [CodeManager] for the waiter that was registered under [nonce] with
    promise [p]; the wait "rejects if cancelSignal fires first". *)
Definition cancelled (nonce : string) (p : pid) : St state (option pid) :=
  λ s,
    match waiters s !! nonce with
    | Some w =>
        if bool_decide (promise w = p)
        then finish nonce (Rejected CodeCancelled) s
        else (None, s)
    | None => (None, s)
    end.

End CodeManager.

(** ** Loopback server *)

Module LoopbackServer.

Definition FAILED_TO_GET_PORT : error := Error "Failed to acquire server port".

(** What [server.address()] returns. *)
Inductive address :=
| AddressInfo (addr family : string) (port : N)
| Pipe (path : string)
| NoAddress.

(** The [http.Server] behind a loopback server, as far as the class uses
    it: whether it listens, and the calls of [listen] and [close]. *)
Record HttpServer := {
  listening : bool;
  listenCalls : list (N * string);
  closeCalls : nat
}.

(** [start] is an [async] method: every call returns a promise of its own,
    which follows [this.listen] or is rejected with what the body threw. *)
Inductive handle :=
| Follows
| Failed (e : error).

Record t := {
  listen : option (settled N);
  isDisposed : bool;
  server : HttpServer;
  (** the promises returned by the calls of [start], in call order *)
  handles : list handle
}.

(** [new LoopbackServer(handler)] *)
Definition create : t :=
  {| listen := None; isDisposed := false;
     server := {| listening := false; listenCalls := []; closeCalls := 0 |};
     handles := [] |}.

Definition set_listen (l : option (settled N)) : St t unit :=
  modify (λ s, {| listen := l; isDisposed := isDisposed s;
                  server := server s; handles := handles s |}).

Definition set_isDisposed (b : bool) : St t unit :=
  modify (λ s, {| listen := listen s; isDisposed := b;
                  server := server s; handles := handles s |}).

Definition set_server (h : HttpServer) : St t unit :=
  modify (λ s, {| listen := listen s; isDisposed := isDisposed s;
                  server := h; handles := handles s |}).

(** [this.server.close(cb)] *)
Definition close : St t unit :=
  h ← gets server;
  set_server {| listening := false; listenCalls := listenCalls h;
                closeCalls := S (closeCalls h) |}.

(** [this.server.listen(port, host, cb)] *)
Definition http_listen (port : N) (host : string) : St t unit :=
  h ← gets server;
  set_server {| listening := listening h;
                listenCalls := listenCalls h ++ [(port, host)];
                closeCalls := closeCalls h |}.

(** [dispose()] *)
Definition dispose : St t unit :=
  d ← gets isDisposed;
  if d : bool then mret ()
  else
    set_isDisposed true;;
    l ← gets (λ s, listening (server s));
    if l : bool then close else mret ().

(** The promise an [async] call hands back. *)
Definition hand_back (h : handle) : St t nat :=
  λ s, (length (handles s),
        {| listen := listen s; isDisposed := isDisposed s;
           server := server s; handles := handles s ++ [h] |}).

(** [start()] *)
Definition start : St t nat :=
  d ← gets isDisposed;
  if d : bool
  then hand_back (Failed (Error "Local server has already been disposed"))
  else
    l ← gets listen;
    match l with
    | Some _ => hand_back Follows
    | None =>
        http_listen 0%N "127.0.0.1";;
        set_listen (Some Pending);;
        hand_back Follows
    end.

(** The state of the [k]-th promise handed back by [start]. *)
Definition promise_state (k : nat) (s : t) : option (settled N) :=
  match handles s !! k with
  | Some Follows => listen s
  | Some (Failed e) => Some (Rejected e)
  | None => None
  end.

(** The callback given to [listen] runs once, when the server has started
    to listen; [a] is what [this.server.address()] returns then. *)
Definition listening_callback (a : address) : St t bool :=
  l ← gets listen;
  match l with
  | Some Pending =>
      h ← gets server;
      set_server {| listening := true; listenCalls := listenCalls h;
                    closeCalls := closeCalls h |};;
      match a with
      | AddressInfo _ _ port => set_listen (Some (Fulfilled port))
      | _ => set_listen (Some (Rejected FAILED_TO_GET_PORT))
      end;;
      mret true
  | _ => mret false
  end.

End LoopbackServer.

(** ** Loopback flow *)

Module Loopback.

Definition pid := CodeManager.pid.
Definition token := CodeManager.token.

(** [OAuth2TriggerOptions]; [cancel] is the identity of the cancellation
    token. *)
Record OAuth2TriggerOptions := {
  nonce : string;
  scopes : list string;
  pkceChallenge : string;
  cancel : token
}.

Record FlowResult := { code : string; redirectUri : string }.

(** The argument of [oAuth2Client.generateAuthUrl]: the spread of
    [DEFAULT_AUTH_URL_OPTS] and the four keys [trigger] sets. *)
Record AuthUrlOptions := {
  defaults : list (string * string);
  redirect_uri : string;
  state : string;
  scope : list string;
  code_challenge : string
}.

(** [http.IncomingMessage], as far as the handler reads it. *)
Record IncomingMessage := {
  method : string;
  url : option string;
  host : option string
}.

(** [http.ServerResponse], as far as the handler writes it. *)
Record ServerResponse := {
  headersSent : bool;
  statusCode : option nat;
  headers : list (string * string);
  body : option string;
  endCalls : nat
}.

Definition new_response : ServerResponse :=
  {| headersSent := false; statusCode := None; headers := []; body := None;
     endCalls := 0 |}.

(** Where an activation of [trigger] is parked, or how it ended. *)
Inductive phase :=
| AwaitStart
| AwaitOpenExternal (address : string)
| AwaitCode (address : string)
| Done (r : result FlowResult).

(** An activation of [trigger].  It has the allocation index of the server
    it created, so activation [t] owns server [t]. *)
Record activation := {
  options : OAuth2TriggerOptions;
  codePromise : pid;
  at_ : phase
}.

Inductive listener :=
| RejectWaiter (nonce : string) (p : pid)
| DisposeServer (sv : nat).

#[export] Instance listener_eq_dec : EqDecision listener.
Proof. solve_decision. Defined.

Inductive log_entry :=
| LogError (msg : string) (e : error)
| LogWarn (msg : string).

Record world := {
  (** the clock, in milliseconds *)
  now : N;
  (** [LocalServerFlow.activeServers] *)
  activeServers : gset nat;
  (** [LocalServerFlow.codeManager] *)
  codeManager : CodeManager.state;
  (** the loopback servers created so far *)
  servers : gmap nat LoopbackServer.t;
  (** how many servers, and activations of [trigger], there are *)
  created : nat;
  (** the listeners registered on each cancellation token *)
  listeners : gmap token (list listener);
  (** the activations of [trigger] *)
  triggers : gmap nat activation;
  (** the activation parked on each code promise *)
  awaiting : gmap pid nat;
  (** settled code promises whose reactions have not run yet *)
  jobs : list pid;
  (** the calls of [vs.env.openExternal] *)
  opened : list AuthUrlOptions;
  (** the response objects handed to the handler *)
  responses : gmap nat ServerResponse;
  (** how many requests were received *)
  requests : nat;
  (** responses whose [redirectSuccessfulAuth] is parked *)
  redirecting : gset nat;
  (** responses that wait for [fs.readFile], with the path *)
  reading : gmap nat string;
  (** the log *)
  log : list log_entry
}.

Definition init : world :=
  {| now := 0; activeServers := ∅; codeManager := CodeManager.init;
     servers := ∅; created := 0; listeners := ∅; triggers := ∅;
     awaiting := ∅; jobs := []; opened := []; responses := ∅; requests := 0;
     redirecting := ∅; reading := ∅; log := [] |}.

Definition set_now (x : N) (w : world) : world :=
  {| now := x; activeServers := activeServers w; codeManager :=
       codeManager w; servers := servers w; created := created w;
       listeners := listeners w; triggers := triggers w; awaiting :=
       awaiting w; jobs := jobs w; opened := opened w; responses :=
       responses w; requests := requests w; redirecting := redirecting w;
       reading := reading w; log := log w |}.

Definition set_activeServers (x : gset nat) (w : world) : world :=
  {| now := now w; activeServers := x; codeManager := codeManager w;
       servers := servers w; created := created w; listeners := listeners
       w; triggers := triggers w; awaiting := awaiting w; jobs := jobs w;
       opened := opened w; responses := responses w; requests := requests
       w; redirecting := redirecting w; reading := reading w; log := log w
       |}.

Definition set_codeManager (x : CodeManager.state) (w : world) : world :=
  {| now := now w; activeServers := activeServers w; codeManager := x;
       servers := servers w; created := created w; listeners := listeners
       w; triggers := triggers w; awaiting := awaiting w; jobs := jobs w;
       opened := opened w; responses := responses w; requests := requests
       w; redirecting := redirecting w; reading := reading w; log := log w
       |}.

Definition set_servers (x : gmap nat LoopbackServer.t) (w : world) : world :=
  {| now := now w; activeServers := activeServers w; codeManager :=
       codeManager w; servers := x; created := created w; listeners :=
       listeners w; triggers := triggers w; awaiting := awaiting w; jobs
       := jobs w; opened := opened w; responses := responses w; requests
       := requests w; redirecting := redirecting w; reading := reading w;
       log := log w |}.

Definition set_created (x : nat) (w : world) : world :=
  {| now := now w; activeServers := activeServers w; codeManager :=
       codeManager w; servers := servers w; created := x; listeners :=
       listeners w; triggers := triggers w; awaiting := awaiting w; jobs
       := jobs w; opened := opened w; responses := responses w; requests
       := requests w; redirecting := redirecting w; reading := reading w;
       log := log w |}.

Definition set_listeners (x : gmap token (list listener)) (w : world) : world :=
  {| now := now w; activeServers := activeServers w; codeManager :=
       codeManager w; servers := servers w; created := created w;
       listeners := x; triggers := triggers w; awaiting := awaiting w;
       jobs := jobs w; opened := opened w; responses := responses w;
       requests := requests w; redirecting := redirecting w; reading :=
       reading w; log := log w |}.

Definition set_triggers (x : gmap nat activation) (w : world) : world :=
  {| now := now w; activeServers := activeServers w; codeManager :=
       codeManager w; servers := servers w; created := created w;
       listeners := listeners w; triggers := x; awaiting := awaiting w;
       jobs := jobs w; opened := opened w; responses := responses w;
       requests := requests w; redirecting := redirecting w; reading :=
       reading w; log := log w |}.

Definition set_awaiting (x : gmap pid nat) (w : world) : world :=
  {| now := now w; activeServers := activeServers w; codeManager :=
       codeManager w; servers := servers w; created := created w;
       listeners := listeners w; triggers := triggers w; awaiting := x;
       jobs := jobs w; opened := opened w; responses := responses w;
       requests := requests w; redirecting := redirecting w; reading :=
       reading w; log := log w |}.

Definition set_jobs (x : list pid) (w : world) : world :=
  {| now := now w; activeServers := activeServers w; codeManager :=
       codeManager w; servers := servers w; created := created w;
       listeners := listeners w; triggers := triggers w; awaiting :=
       awaiting w; jobs := x; opened := opened w; responses := responses
       w; requests := requests w; redirecting := redirecting w; reading :=
       reading w; log := log w |}.

Definition set_opened (x : list AuthUrlOptions) (w : world) : world :=
  {| now := now w; activeServers := activeServers w; codeManager :=
       codeManager w; servers := servers w; created := created w;
       listeners := listeners w; triggers := triggers w; awaiting :=
       awaiting w; jobs := jobs w; opened := x; responses := responses w;
       requests := requests w; redirecting := redirecting w; reading :=
       reading w; log := log w |}.

Definition set_responses (x : gmap nat ServerResponse) (w : world) : world :=
  {| now := now w; activeServers := activeServers w; codeManager :=
       codeManager w; servers := servers w; created := created w;
       listeners := listeners w; triggers := triggers w; awaiting :=
       awaiting w; jobs := jobs w; opened := opened w; responses := x;
       requests := requests w; redirecting := redirecting w; reading :=
       reading w; log := log w |}.

Definition set_requests (x : nat) (w : world) : world :=
  {| now := now w; activeServers := activeServers w; codeManager :=
       codeManager w; servers := servers w; created := created w;
       listeners := listeners w; triggers := triggers w; awaiting :=
       awaiting w; jobs := jobs w; opened := opened w; responses :=
       responses w; requests := x; redirecting := redirecting w; reading
       := reading w; log := log w |}.

Definition set_redirecting (x : gset nat) (w : world) : world :=
  {| now := now w; activeServers := activeServers w; codeManager :=
       codeManager w; servers := servers w; created := created w;
       listeners := listeners w; triggers := triggers w; awaiting :=
       awaiting w; jobs := jobs w; opened := opened w; responses :=
       responses w; requests := requests w; redirecting := x; reading :=
       reading w; log := log w |}.

Definition set_reading (x : gmap nat string) (w : world) : world :=
  {| now := now w; activeServers := activeServers w; codeManager :=
       codeManager w; servers := servers w; created := created w;
       listeners := listeners w; triggers := triggers w; awaiting :=
       awaiting w; jobs := jobs w; opened := opened w; responses :=
       responses w; requests := requests w; redirecting := redirecting w;
       reading := x; log := log w |}.

Definition set_log (x : list log_entry) (w : world) : world :=
  {| now := now w; activeServers := activeServers w; codeManager :=
       codeManager w; servers := servers w; created := created w;
       listeners := listeners w; triggers := triggers w; awaiting :=
       awaiting w; jobs := jobs w; opened := opened w; responses :=
       responses w; requests := requests w; redirecting := redirecting w;
       reading := reading w; log := x |}.

Fixpoint for_each {A} (f : A → St world unit) (l : list A) : St world unit :=
  match l with
  | [] => mret ()
  | x :: l => f x;; for_each f l
  end.

(** Run a method of the server [sv]. *)
Definition on_server {A} (sv : nat) (m : St LoopbackServer.t A)
  : St world (option A) :=
  λ w,
    match servers w !! sv with
    | Some s => let '(a, s') := m s in
                (Some a, set_servers (<[sv := s']> (servers w)) w)
    | None => (None, w)
    end.

(** Run a method of the code manager. *)
Definition on_codeManager {A} (m : St CodeManager.state A) : St world A :=
  λ w, let '(a, c) := m (codeManager w) in (a, set_codeManager c w).

(** [token.onCancellationRequested(l)] *)
Definition onCancellationRequested (tok : token) (l : listener)
  : St world unit :=
  modify (λ w, set_listeners
                 (<[tok := default [] (listeners w !! tok) ++ [l]]>
                    (listeners w)) w).

(** A code promise was settled: its reactions become jobs. *)
Definition enqueue (p : option pid) : St world unit :=
  match p with
  | Some p => modify (λ w, set_jobs (jobs w ++ [p]) w)
  | None => mret ()
  end.

Definition code_state (p : pid) (w : world) : option (settled string) :=
  CodeManager.promises (codeManager w) !! p.

Definition set_phase (t : nat) (a : activation) (ph : phase) : St world unit :=
  modify (λ w, set_triggers
                 (<[t := {| options := options a;
                            codePromise := codePromise a;
                            at_ := ph |}]> (triggers w)) w).

Definition writeHead (r : nat) (status : nat) (hs : list (string * string))
  : St world unit :=
  modify (λ w,
    match responses w !! r with
    | Some res =>
        set_responses
          (<[r := {| headersSent := true; statusCode := Some status;
                     headers := headers res ++ hs; body := body res;
                     endCalls := endCalls res |}]> (responses w)) w
    | None => w
    end).

Definition setHeader (r : nat) (name value : string) : St world unit :=
  modify (λ w,
    match responses w !! r with
    | Some res =>
        set_responses
          (<[r := {| headersSent := headersSent res;
                     statusCode := statusCode res;
                     headers := headers res ++ [(name, value)];
                     body := body res; endCalls := endCalls res |}]>
             (responses w)) w
    | None => w
    end).

(** [res.end(data)] *)
Definition end_ (r : nat) (data : option string) : St world unit :=
  modify (λ w,
    match responses w !! r with
    | Some res =>
        set_responses
          (<[r := {| headersSent := true; statusCode := statusCode res;
                     headers := headers res;
                     body := match data with Some _ => data | None => body res end;
                     endCalls := S (endCalls res) |}]> (responses w)) w
    | None => w
    end).

Definition write_log (e : log_entry) : St world unit :=
  modify (λ w, set_log (log w ++ [e]) w).

(** [s.substring(1)] *)
Definition substring_1 (s : string) : string :=
  match s with
  | String _ rest => rest
  | EmptyString => EmptyString
  end.

Section config.

(** [CONFIG.ColabApiDomain], [DEFAULT_AUTH_URL_OPTS] and the [serveRoot] the
    flow was constructed with. *)
Variable ColabApiDomain : string.
Variable DEFAULT_AUTH_URL_OPTS : list (string * string).
Variable serveRoot : string.

(** The URL parser and [path.join] of the platform. *)
Variable lib : Url.Library.

(** [this.codeManager.waitForCode(nonce, cancel)].
    Modelled from the spec: the missing [CodeManager] listens on the
    cancellation token for the waiter it registered. *)
Definition waitForCode (nonce : string) (tok : token) : St world pid :=
  now ← gets now;
  p ← on_codeManager (CodeManager.waitForCode now nonce tok);
  st ← gets (code_state p);
  match st with
  | Some Pending => onCancellationRequested tok (RejectWaiter nonce p)
  | _ => mret ()
  end;;
  mret p.

(** The [catch] block of [trigger]. *)
Definition trigger_catch (t : nat) (a : activation) (err : error)
  : St world unit :=
  on_server t LoopbackServer.dispose;;
  modify (λ w, set_activeServers (activeServers w ∖ {[t]}) w);;
  set_phase t a (Done (Throws err)).

(** [trigger(options)] up to [await server.start()]. *)
Definition trigger (o : OAuth2TriggerOptions) : St world nat :=
  t ← gets created;
  modify (λ w, set_created (S t)
                 (set_servers (<[t := LoopbackServer.create]> (servers w)) w));;
  modify (λ w, set_activeServers ({[t]} ∪ activeServers w) w);;
  p ← waitForCode (nonce o) (cancel o);
  onCancellationRequested (cancel o) (DisposeServer t);;
  on_server t LoopbackServer.start;;
  set_phase t {| options := o; codePromise := p; at_ := AwaitStart |}
    AwaitStart;;
  mret t.

(** [trigger] from [await server.start()] to [await openExternal(...)]. *)
Definition after_start (t : nat) (a : activation) (r : settled N)
  : St world unit :=
  match r with
  | Fulfilled port =>
      let address := "http://127.0.0.1:" +:+ pretty port in
      let authUrl :=
        {| defaults := DEFAULT_AUTH_URL_OPTS;
           redirect_uri := address;
           state := "nonce=" +:+ nonce (options a);
           scope := scopes (options a);
           code_challenge := pkceChallenge (options a) |} in
      modify (λ w, set_opened (opened w ++ [authUrl]) w);;
      set_phase t a (AwaitOpenExternal address)
  | Rejected err => trigger_catch t a err
  | Pending => mret ()
  end.

(** [await code] and the [return]: a promise that is settled already is
    taken at once, otherwise the activation parks on it. *)
Definition await_code (t : nat) (a : activation) (address : string)
  : St world unit :=
  st ← gets (code_state (codePromise a));
  match st with
  | Some (Fulfilled c) =>
      set_phase t a (Done (Returns {| code := c; redirectUri := address |}))
  | Some (Rejected err) => trigger_catch t a err
  | _ =>
      modify (λ w, set_awaiting (<[codePromise a := t]> (awaiting w)) w);;
      set_phase t a (AwaitCode address)
  end.

(** [trigger] after [await openExternal(...)].  The boolean the host
    resolves with is not looked at. *)
Definition after_open (t : nat) (a : activation) (address : string)
    (r : result bool) : St world unit :=
  match r with
  | Returns _ => await_code t a address
  | Throws err => trigger_catch t a err
  end.

(** The reaction job of a settled code promise. *)
Definition run_job (p : pid) : St world unit :=
  aw ← gets awaiting;
  tr ← gets triggers;
  match aw !! p with
  | Some t =>
      match tr !! t with
      | Some a =>
          match at_ a with
          | AwaitCode address =>
              if decide (codePromise a = p) then
                modify (set_awaiting (delete p aw));;
                await_code t a address
              else mret ()
          | _ => mret ()
          end
      | None => mret ()
      end
  | None => mret ()
  end.

Definition drain : St world unit :=
  js ← gets jobs;
  modify (set_jobs []);;
  for_each run_job js.

(** [sendFile(res, filepath)] up to the callback of [fs.readFile]. *)
Definition sendFile (r : nat) (filepath : string) : St world unit :=
  modify (λ w, set_reading (<[r := filepath]> (reading w)) w).

(** The callback of [fs.readFile] in [sendFile]. *)
Definition sendFile_callback (r : nat) (filepath : string)
    (data : result string) : St world unit :=
  match data with
  | Throws err =>
      write_log (LogError ("Unable to read file: " +:+ filepath) err);;
      writeHead r 500 [];;
      end_ r (Some "Internal Server Error")
  | Returns content =>
      setHeader r "content-length" (pretty (String.length content));;
      writeHead r 200 [];;
      end_ r (Some content)
  end.

(** [Handler.redirectSuccessfulAuth(res)] after [await asExternalUri(...)];
    [uri] is [authSuccessUri.toString()]. *)
Definition redirectSuccessfulAuth_resume (r : nat) (uri : result string)
  : St world unit :=
  match uri with
  | Returns authSuccessUri =>
      let successState := Url.encodeURIComponent authSuccessUri in
      let redirectUri :=
        ColabApiDomain +:+ "/vscode/auth-success?state=" +:+ successState in
      sent ← gets (λ w, default false (headersSent <$> responses w !! r));
      if sent : bool then mret ()
      else writeHead r 302 [("Location", redirectUri)];; end_ r None
  | Throws err =>
      write_log (LogError "Unable to redirect the successful auth request" err)
  end.

(** [Handler.handleRequest(req, res)].  The two assertions come first,
    then [new URL(req.url, `http://${req.headers.host}`)], which throws
    on a target or host it cannot parse, and only then the method is
    looked at. *)
Definition handleRequest (req : IncomingMessage) (r : nat)
  : St world (result unit) :=
  if negb (Url.truthy (url req)) then mret (Throws AssertionError)
  else if negb (Url.truthy (host req)) then mret (Throws AssertionError)
  else
    match Url.new_URL lib (default "" (url req))
            ("http://" +:+ default "" (host req)) with
    | Throws err => mret (Throws err)
    | Returns u =>
        if negb (String.eqb (method req) "GET") then
          writeHead r 405 [("Allow", "GET")];;
          end_ r (Some "Method Not Allowed");;
          mret (Returns ())
        else if String.eqb (Url.pathname u) "/" then
          let state := Url.get "state" (Url.searchParams u) in
          if negb (Url.truthy state)
          then mret (Throws (Error "Missing state in redirect URL"))
          else
            let parsedState :=
              Url.new_URLSearchParams lib (default "" state) in
            let nonce := Url.get "nonce" parsedState in
            let code := Url.get "code" (Url.searchParams u) in
            if negb (Url.truthy nonce) || negb (Url.truthy code)
            then mret (Throws (Error "Missing nonce or code in redirect URI"))
            else
              p ← on_codeManager
                    (CodeManager.resolveCode (default "" nonce)
                       (default "" code));
              enqueue p;;
              modify (λ w, set_redirecting ({[r]} ∪ redirecting w) w);;
              mret (Returns ())
        else if String.eqb (Url.pathname u) "/favicon.ico" then
          sendFile r
            (Url.path_join lib serveRoot (substring_1 (Url.pathname u)));;
          mret (Returns ())
        else
          write_log (LogWarn "Received unhandled request");;
          writeHead r 404 [];;
          end_ r (Some "Not Found");;
          mret (Returns ())
    end.

(** One cancellation listener. *)
Definition fire (l : listener) : St world unit :=
  match l with
  | RejectWaiter nonce p =>
      q ← on_codeManager (CodeManager.cancelled nonce p);
      enqueue q
  | DisposeServer sv => on_server sv LoopbackServer.dispose;; mret ()
  end.

(** What the environment can do. *)
Inductive event :=
| Trigger (o : OAuth2TriggerOptions)
| Listening (sv : nat) (a : LoopbackServer.address)
| OpenExternalSettles (t : nat) (r : result bool)
| Request (sv : nat) (req : IncomingMessage)
| AsExternalUriSettles (r : nat) (uri : result string)
| FileRead (r : nat) (data : result string)
| Tick (ms : N)
| TimerFires (nonce : string)
| Cancel (tok : token).

Inductive observation :=
| Triggered (t : nat)
| Handled (r : nat)
| Uncaught (r : nat) (e : error)
| Ran
| Ignored.

Definition handle (e : event) : St world observation :=
  match e with
  | Trigger o => t ← trigger o; mret (Triggered t)
  | Listening sv a =>
      ran ← on_server sv (LoopbackServer.listening_callback a);
      match ran with
      | Some true =>
          tr ← gets triggers;
          sv' ← gets (λ w, servers w !! sv);
          match tr !! sv, sv' ≫= LoopbackServer.listen with
          | Some act, Some st =>
              match at_ act with
              | AwaitStart => after_start sv act st
              | _ => mret ()
              end
          | _, _ => mret ()
          end;;
          mret Ran
      | _ => mret Ignored
      end
  | OpenExternalSettles t r =>
      tr ← gets triggers;
      match tr !! t with
      | Some act =>
          match at_ act with
          | AwaitOpenExternal address => after_open t act address r;; mret Ran
          | _ => mret Ignored
          end
      | None => mret Ignored
      end
  | Request sv req =>
      sv' ← gets (λ w, servers w !! sv);
      match sv' with
      | Some _ =>
          r ← gets requests;
          modify (λ w, set_requests (S r)
                         (set_responses (<[r := new_response]> (responses w)) w));;
          out ← handleRequest req r;
          match out with
          | Returns _ => mret (Handled r)
          | Throws err => mret (Uncaught r err)
          end
      | None => mret Ignored
      end
  | AsExternalUriSettles r uri =>
      rs ← gets redirecting;
      if decide (r ∈ rs) then
        modify (set_redirecting (rs ∖ {[r]}));;
        redirectSuccessfulAuth_resume r uri;;
        mret Ran
      else mret Ignored
  | FileRead r data =>
      rd ← gets reading;
      match rd !! r with
      | Some filepath =>
          modify (set_reading (delete r rd));;
          sendFile_callback r filepath data;;
          mret Ran
      | None => mret Ignored
      end
  | Tick ms => modify (λ w, set_now (now w + ms)%N w);; mret Ran
  | TimerFires nonce =>
      now ← gets now;
      p ← on_codeManager (CodeManager.timeout now nonce);
      match p with
      | Some _ => enqueue p;; mret Ran
      | None => mret Ignored
      end
  | Cancel tok =>
      ls ← gets (λ w, default [] (listeners w !! tok));
      modify (λ w, set_listeners (delete tok (listeners w)) w);;
      for_each fire ls;;
      mret Ran
  end.

(** An event and the promise jobs it leaves behind. *)
Definition step (e : event) : St world observation :=
  o ← handle e;
  drain;;
  mret o.

Fixpoint run (es : list event) : St world (list observation) :=
  match es with
  | [] => mret []
  | e :: es => o ← step e; os ← run es; mret (o :: os)
  end.

End config.

(** *** Notions used in the statements about the flow *)

(** The world after the [catch] block of activation [t]. *)
Definition caught (t : nat) (a : activation) (err : error)
    (sv : LoopbackServer.t) (w : world) : world :=
  set_triggers
    (<[t := {| options := options a; codePromise := codePromise a;
               at_ := Done (Throws err) |}]> (triggers w))
    (set_activeServers (activeServers w ∖ {[t]})
       (set_servers (<[t := exec LoopbackServer.dispose sv]> (servers w)) w)).

(** The code manager after the waiter under [n] was rejected. *)
Definition rejected_waiter (n : string) (p : pid) (err : error)
    (c : CodeManager.state) : CodeManager.state :=
  {| CodeManager.waiters := delete n (CodeManager.waiters c);
     CodeManager.promises := <[p := Rejected err]> (CodeManager.promises c);
     CodeManager.allocated := CodeManager.allocated c |}.




(** Attempt [t'] is as it was: its server, its activation and its
    membership in [activeServers]. *)
Definition untouched (t' : nat) (w w' : world) : Prop :=
  servers w' !! t' = servers w !! t' ∧
  triggers w' !! t' = triggers w !! t' ∧
  (t' ∈ activeServers w' ↔ t' ∈ activeServers w).

(** The world in which activation [t] is parked on its code promise. *)
Definition waiting_for_code (t : nat) (a : activation) (address : string)
    (w : world) : world :=
  set_triggers
    (<[t := {| options := options a; codePromise := codePromise a;
               at_ := AwaitCode address |}]> (triggers w))
    (set_awaiting (<[codePromise a := t]> (awaiting w)) w).

(** Activation [a], ended with [r]. *)
Definition ended (a : activation) (r : result FlowResult) : activation :=
  {| options := options a; codePromise := codePromise a; at_ := Done r |}.


(** The parsed URL of a callback lacks the state, the nonce in the
    state, or the code. *)
Definition malformed (lib : Url.Library) (u : Url.URL) : bool :=
  let state := Url.get "state" (Url.searchParams u) in
  negb (Url.truthy state) ||
  negb (Url.truthy
          (Url.get "nonce" (Url.new_URLSearchParams lib (default "" state)))) ||
  negb (Url.truthy (Url.get "code" (Url.searchParams u))).

(** The message of the error the handler throws for such a request. *)
Definition malformed_message (u : Url.URL) : string :=
  if Url.truthy (Url.get "state" (Url.searchParams u))
  then "Missing nonce or code in redirect URI"
  else "Missing state in redirect URL".

(** *** The scenario of the unit tests of the flow *)

(** A configuration: the API domain, the default options of the
    authorization URL and the root of the served assets. *)
Definition test_domain : string := "https://colab.research.google.com".
Definition test_defaults : list (string * string) :=
  [("response_type", "code"); ("prompt", "login");
   ("code_challenge_method", "S256")].
Definition test_root : string := "out/test/media".

(** [defaultTriggerOpts] of the unit tests. *)
Definition test_options : OAuth2TriggerOptions :=
  {| nonce := "nonce"; scopes := ["foo"]; pkceChallenge := "1 + 1 = ?";
     cancel := 0 |}.

(** A GET request for [target], as the unit tests build it. *)
Definition get_request (target : string) : IncomingMessage :=
  {| method := "GET"; url := Some target; host := Some "127.0.0.1:1234" |}.

Definition test_step :=
  step test_domain test_defaults test_root Url.origin_form.
Definition test_run :=
  run test_domain test_defaults test_root Url.origin_form.

(** The flow after [trigger], with the server listening on port 1234 and
    the browser opened ([opened_ok] is what [openExternal] resolved
    with): the activation waits for the code. *)
Definition waiting (opened_ok : bool) : world :=
  exec (test_run
          [Trigger test_options;
           Listening 0 (LoopbackServer.AddressInfo "127.0.0.1" "IPv4" 1234);
           OpenExternalSettles 0 (Returns opened_ok)]) init.

(** The activation and the server of that flow. *)
Definition test_activation : activation :=
  {| options := test_options; codePromise := 0;
     at_ := AwaitCode "http://127.0.0.1:1234" |}.

Definition test_server : LoopbackServer.t :=
  {| LoopbackServer.listen := Some (Fulfilled 1234%N);
     LoopbackServer.isDisposed := false;
     LoopbackServer.server :=
       {| LoopbackServer.listening := true;
          LoopbackServer.listenCalls := [(0%N, "127.0.0.1")];
          LoopbackServer.closeCalls := 0 |};
     LoopbackServer.handles := [LoopbackServer.Follows] |}.

End Loopback.

(** ** Proxied-redirect flow *)

Module Proxied.

(** The sources of [ProxiedRedirectFlow] ([src/auth/flows/proxied.ts])
    and of the [ExtensionUriHandler] it listens to are missing, only the
    unit test of the flow is at hand.
    Sections 4.1 and 6 of the specification describe the callback: the
    host invokes a custom-scheme URI that carries [nonce] and [code] as
    query parameters; an invocation that misses the nonce, or whose code is
    absent or empty, is ignored; any other one resolves the code-wait
    pending under that nonce, which is also subject to the 60 second
    timeout and to cancellation.  The pending code-waits are kept in the
    registry of [CodeManager]. *)

(** [vscode.Uri] *)
Record Uri := {
  scheme : string;
  authority : string;
  path : string;
  query : string
}.

(** Modelled from the spec: the listener of the missing
    [ProxiedRedirectFlow] on the URI handler.  "Invocations missing nonce
    or code are silently ignored"; any other one resolves the code-wait
    under its nonce.  It returns normally in every case; the option tells
    which promise it settled. *)
Definition handleUri (uri : Uri)
  : St CodeManager.state (result (option CodeManager.pid)) :=
  let params := Url.URLSearchParams (query uri) in
  let nonce := Url.get "nonce" params in
  let code := Url.get "code" params in
  if negb (Url.truthy nonce) || negb (Url.truthy code)
  then mret (Returns None)
  else
    p ← CodeManager.resolveCode (default "" nonce) (default "" code);
    mret (Returns p).

(** *** The scenario of the unit tests of the flow *)

(** The registry while one [trigger] waits for the code of ["nonce"]. *)
Definition waiting_for_nonce : CodeManager.state :=
  exec (CodeManager.waitForCode 0 "nonce" 0) CodeManager.init.

(** The invocation [vscode://google.colab?<q>]. *)
Definition callback (q : string) : Uri :=
  {| scheme := "vscode"; authority := "google.colab"; path := ""; query := q |}.

End Proxied.

(** ** Sessions of the authentication provider *)

Module Provider.

(** The source of [GoogleAuthProvider] ([src/auth/provider.ts]) is
    missing, only its unit test is at hand.  Sections 3, 4.5
    and 6 of the specification describe the persistence: the sessions are
    kept as one JSON array under a fixed key of the secret store;
    [getSessions] reads that list, and gives the empty list when nothing
    is stored; [removeSession] filters the session with the given id out of
    the list and writes the list back, unless the id was not found, in
    which case it does not write.  What [getSessions] does with a value
    that is not a list of sessions is left open by the specification; here
    it throws, and so does [removeSession], without writing. *)

(** JSON values, as [JSON.parse] produces and [JSON.stringify] consumes
    them. *)
Unset Elimination Schemes.
Inductive json :=
| JString (s : string)
| JArray (items : list json)
| JObject (fields : list (string * json)).
Set Elimination Schemes.

Record Account := { account_id : string; label : string }.

Record AuthenticationSession := {
  id : string;
  accessToken : string;
  account : Account;
  scopes : list string
}.

Definition SESSIONS_KEY : string := "google.sessions".

Definition session_to_json (x : AuthenticationSession) : json :=
  JObject
    [("id", JString (id x));
     ("accessToken", JString (accessToken x));
     ("account", JObject [("label", JString (label (account x)));
                          ("id", JString (account_id (account x)))]);
     ("scopes", JArray (JString <$> scopes x))].

Definition to_json (l : list AuthenticationSession) : json :=
  JArray (session_to_json <$> l).

Definition string_of_json (j : json) : option string :=
  match j with JString s => Some s | _ => None end.

Definition session_of_json (j : json) : option AuthenticationSession :=
  match j with
  | JObject [("id", JString i); ("accessToken", JString tok);
             ("account", JObject [("label", JString l); ("id", JString a)]);
             ("scopes", JArray sc)] =>
      sc' ← mapM string_of_json sc;
      Some {| id := i; accessToken := tok;
              account := {| account_id := a; label := l |};
              scopes := sc' |}
  | _ => None
  end.

Definition of_json (j : json) : option (list AuthenticationSession) :=
  match j with
  | JArray items => mapM session_of_json items
  | _ => None
  end.

(** The secret store of the extension context, with the calls of
    [store]. *)
Record SecretStorage := {
  secrets : gmap string json;
  storeCalls : list (string * json)
}.

(** Modelled from the spec: [secrets.store(key, value)] of the host's
    secret store, as the missing [GoogleAuthProvider] uses it. *)
Definition store (key : string) (value : json) : St SecretStorage unit :=
  modify (λ st, {| secrets := <[key := value]> (secrets st);
                   storeCalls := storeCalls st ++ [(key, value)] |}).

(** Modelled from the spec: [getSessions()] of the missing
    [GoogleAuthProvider], without a scope filter; it "reads the persisted
    session list" and "returns empty list (not an error) if nothing
    stored". *)
Definition getSessions
  : St SecretStorage (result (list AuthenticationSession)) :=
  stored ← gets (λ st, secrets st !! SESSIONS_KEY);
  match stored with
  | None => mret (Returns [])
  | Some j =>
      match of_json j with
      | Some l => mret (Returns l)
      | None => mret (Throws (Error "Unexpected sessions in storage"))
      end
  end.

(** Modelled from the spec: [removeSession(id)] of the missing
    [GoogleAuthProvider]; it "filters the session out of the persisted
    list; if the id is not found, performs no storage write". *)
Definition removeSession (sessionId : string)
  : St SecretStorage (result unit) :=
  r ← getSessions;
  match r with
  | Throws e => mret (Throws e)
  | Returns sessions =>
      let remaining :=
        filter (λ x, id x ≠ sessionId) sessions in
      if decide (length remaining = length sessions) then mret (Returns ())
      else store SESSIONS_KEY (to_json remaining);; mret (Returns ())
  end.

(** *** Notions used in the statements about the sessions *)

(** The ids of a list of sessions. *)
Definition ids (l : list AuthenticationSession) : list string := id <$> l.

(** [DEFAULT_SESSION] of the unit tests, with id [i], and a store that
    holds two of them. *)
Definition session (i : string) : AuthenticationSession :=
  {| id := i; accessToken := "123";
     account := {| account_id := "foo@example.com"; label := "Foo Bar" |};
     scopes := ["email"; "profile"] |}.

Definition two_sessions : SecretStorage :=
  {| secrets := {[ SESSIONS_KEY := to_json [session "1"; session "2"] ]};
     storeCalls := [] |}.

End Provider.

(** ** More notions about the toggle *)

Module ToggleTrace.
Import Toggle.

(** [e] settles the promise of a transition other than [c]. *)
Definition settles_other (c : ctrl) (e : event) : Prop :=
  match e with
  | Settle c' _ => c' ≠ c
  | Call _ => False
  end.

(** [e] is a call of [abort] on controller [c]. *)
Definition is_abort (c : ctrl) (e : effect) : bool :=
  match e with
  | Abort c' _ => bool_decide (c' = c)
  | _ => false
  end.

(** The number of calls of [abort] on controller [c]. *)
Definition aborts_of (c : ctrl) (es : list effect) : nat :=
  length (List.filter (is_abort c) es).

(** [o] is what a settled transition yields when [toggle] does not
    reject. *)
Definition quiet (o : observation) : Prop :=
  o = Finished Resolved ∨ o = Ignored.

(** Invariants of the aborts a toggle has issued: signals exist for
    allocated controllers only; a controller was aborted once if its signal
    reads aborted and never otherwise; every abort carries a
    [ToggleAbortedError] for a real change of direction, away from the
    direction the controller was started with, and that error is the
    reason of the signal. *)
Record abort_inv (s : state) : Prop := {
  abort_inv_dom c sig : signals s !! c = Some sig → c < allocated s;
  abort_inv_count c :
    aborts_of c (effects s) = if signal_aborted c s then 1 else 0;
  abort_inv_reason c r :
    Abort c r ∈ effects s →
    ∃ d to, r = ToggleAbortedError d to ∧ d ≠ to ∧ Turn d c ∈ effects s ∧
            signals s !! c = Some {| aborted := true; reason := Some r |}
}.

(** A toggle with a superseded transition: [on()], then [off()]. *)
Definition superseded : state := exec (step (Call off)) on_in_flight.

End ToggleTrace.

(** ** The life of a loopback server *)

Module LoopbackServerLife.
Import LoopbackServer.

(** What can happen to a loopback server: its owner calls [start()] or
    [dispose()], or the [http.Server] runs the callback given to
    [listen]. *)
Inductive op :=
| Start
| Dispose
| ListenCallback (a : address).

Definition apply (o : op) : St t unit :=
  match o with
  | Start => start;; mret ()
  | Dispose => dispose
  | ListenCallback a => listening_callback a;; mret ()
  end.

Fixpoint apply_all (os : list op) : St t unit :=
  match os with
  | [] => mret ()
  | o :: os => apply o;; apply_all os
  end.

Inductive reachable : t → Prop :=
| reachable_create : reachable create
| reachable_apply s o : reachable s → reachable (exec (apply o) s).

(** The number of calls of [start()] among [os]. *)
Definition starts (os : list op) : nat :=
  length (List.filter (λ o, match o with Start => true | _ => false end) os).

(** The error of [start()] on a disposed server. *)
Definition ALREADY_DISPOSED : error :=
  Error "Local server has already been disposed".

(** [this.listen] is settled. *)
Definition is_settled {A} (l : option (settled A)) : Prop :=
  match l with
  | Some (Fulfilled _) | Some (Rejected _) => True
  | _ => False
  end.

(** Invariants of a loopback server: [listen] of the [http.Server] was
    called if and only if [this.listen] is set, once, for port 0 on
    127.0.0.1; [close] was called at most once, on a disposed server that
    does not listen any more; the [http.Server] listens only after the
    listen callback has settled [this.listen]. *)
Record life_inv (s : t) : Prop := {
  life_listen :
    listenCalls (server s) =
      match listen s with Some _ => [(0%N, "127.0.0.1")] | None => [] end;
  life_close : (closeCalls (server s) ≤ 1)%nat;
  life_closed :
    closeCalls (server s) = 1 →
    isDisposed s = true ∧ listening (server s) = false ∧
    is_settled (listen s);
  life_listening : listening (server s) = true → is_settled (listen s)
}.

(** A server whose [start()] was called and whose [http.Server] does not
    listen yet. *)
Definition starting : t := exec start create.

(** A server that listens on port 1234. *)
Definition listening_on_1234 : t :=
  exec (listening_callback (AddressInfo "127.0.0.1" "IPv4" 1234)) starting.

End LoopbackServerLife.

(** ** The life of the local-server flow *)

Module FlowLife.
Import Loopback.

(** The activation rejected: [trigger] went through its [catch] block. *)
Definition thrown (ph : phase) : bool :=
  match ph with
  | Done (Throws _) => true
  | _ => false
  end.

(** [LocalServerFlow.dispose()].  The source of [CodeManager.dispose()] is
    missing; [codeManager_dispose] stands for it: it acts on the code
    manager and returns the promises it settled, whose reactions become
    jobs.  The servers in [activeServers] are distinct objects, so the
    order in which the loop visits them does not matter. *)
Definition dispose (codeManager_dispose : St CodeManager.state (list pid))
  : St world unit :=
  ps ← on_codeManager codeManager_dispose;
  for_each (λ p, enqueue (Some p)) ps;;
  act ← gets activeServers;
  for_each (λ t, on_server t LoopbackServer.dispose;; mret ()) (elements act);;
  modify (set_activeServers ∅).

(** [w] has the servers, the activations and the [activeServers] of
    [w0]. *)
Definition same_servers (w0 w : world) : Prop :=
  servers w = servers w0 ∧ triggers w = triggers w0 ∧
  activeServers w = activeServers w0 ∧ created w = created w0.

(** [w] has the responses of [w0], and the same ones wait. *)
Definition same_responses (w0 w : world) : Prop :=
  responses w = responses w0 ∧ requests w = requests w0 ∧
  redirecting w = redirecting w0 ∧ reading w = reading w0.

(** Invariants of the servers of the flow: servers and activations exist
    for the indices below [created]; the activation of a server in
    [activeServers] has not rejected; a server that is not in
    [activeServers] has been disposed; every server was started and went
    through calls of [start()], [dispose()] and listen callbacks only.
    [disposed] tells whether [dispose()] of the flow may have been called:
    as long as it was not, the server of an activation that has not
    rejected is in [activeServers]. *)
Record flow_inv (disposed : bool) (w : world) : Prop := {
  flow_servers t : is_Some (servers w !! t) ↔ t < created w;
  flow_triggers t : is_Some (triggers w !! t) ↔ t < created w;
  flow_active t a :
    triggers w !! t = Some a → t ∈ activeServers w → thrown (at_ a) = false;
  flow_kept t a :
    disposed = false →
    triggers w !! t = Some a → thrown (at_ a) = false → t ∈ activeServers w;
  flow_active_created t : t ∈ activeServers w → t < created w;
  flow_disposed t sv :
    servers w !! t = Some sv → t ∉ activeServers w →
    LoopbackServer.isDisposed sv = true;
  flow_life t sv :
    servers w !! t = Some sv →
    LoopbackServerLife.reachable sv ∧ LoopbackServer.listen sv ≠ None
}.

(** All servers are disposed and none is active. *)
Definition all_released (w : world) : Prop :=
  activeServers w = ∅ ∧
  ∀ t sv, servers w !! t = Some sv → LoopbackServer.isDisposed sv = true.

(** Invariants of the responses of the handler: a response is ended at
    most once, and not before its head was written; a response that waits
    for [fs.readFile] is untouched and does not wait for the redirect as
    well; the responses that wait exist. *)
Record response_inv (w : world) : Prop := {
  response_fresh r res : responses w !! r = Some res → r < requests w;
  response_once r res :
    responses w !! r = Some res →
    (endCalls res ≤ 1)%nat ∧
    (headersSent res = false → endCalls res = 0 ∧ statusCode res = None) ∧
    (endCalls res = 1 → is_Some (statusCode res));
  response_reading r p :
    reading w !! r = Some p →
    (r ∉ redirecting w) ∧
    (∃ res, responses w !! r = Some res ∧ headersSent res = false);
  response_redirecting r : r ∈ redirecting w → r < requests w
}.

Section config.

Variable ColabApiDomain : string.
Variable DEFAULT_AUTH_URL_OPTS : list (string * string).
Variable serveRoot : string.
Variable lib : Url.Library.

(** The authorization URL of activation [a] for the loopback
    [address]. *)
Definition auth_url (a : activation) (address : string) : AuthUrlOptions :=
  {| defaults := DEFAULT_AUTH_URL_OPTS;
     redirect_uri := address;
     state := "nonce=" +:+ nonce (options a);
     scope := scopes (options a);
     code_challenge := pkceChallenge (options a) |}.

(** [address] is the loopback address of the server of activation [t],
    whose [start()] resolved with a port, and the browser was opened with
    the authorization URL for it. *)
Definition bound (t : nat) (a : activation) (address : string) (w : world)
  : Prop :=
  ∃ sv port,
    servers w !! t = Some sv ∧
    LoopbackServer.listen sv = Some (Fulfilled port) ∧
    address = "http://127.0.0.1:" +:+ pretty port ∧
    auth_url a address ∈ opened w.

(** Every activation past [await server.start()] carries the address of
    its own server. *)
Definition phase_inv (w : world) : Prop :=
  ∀ t a,
    triggers w !! t = Some a →
    match at_ a with
    | AwaitOpenExternal address | AwaitCode address => bound t a address w
    | Done (Returns r) => bound t a (redirectUri r) w
    | _ => True
    end.

(** The worlds the flow can be in: the environment sends events, and
    between two events the owner of the flow may call [dispose()], also
    while calls of [trigger] are in flight; the promise reactions that
    [dispose()] causes run when it has returned.  [reachable disposed w]
    tells with [disposed] whether [dispose()] was called on the way to
    [w]. *)
Inductive reachable : bool → world → Prop :=
| reachable_init : reachable false init
| reachable_step d w e :
    reachable d w →
    reachable d
      (exec (step ColabApiDomain DEFAULT_AUTH_URL_OPTS serveRoot lib e) w)
| reachable_dispose d w codeManager_dispose :
    reachable d w →
    reachable true (exec (dispose codeManager_dispose;; drain) w).

End config.

(** The flow of the unit tests after the callback with code 42: the call
    of [trigger] has resolved. *)
Definition resolved : world :=
  exec (test_step (Request 0 (get_request "/?state=nonce%3Dnonce&code=42")))
    (waiting true).

End FlowLife.

(** ** The answers of the handler *)

Module Answer.
Import Loopback.

(** A response that was answered on a new response object with
    [res.writeHead(status, hs)] and [res.end(data)]. *)
Definition answer (status : nat) (hs : list (string * string))
    (data : option string) : ServerResponse :=
  {| headersSent := true; statusCode := Some status; headers := hs;
     body := data; endCalls := 1 |}.

(** The URL the handler works on: the request has a target and a [Host]
    header, and [new URL] has parsed them. *)
Definition parsed (lib : Url.Library) (req : IncomingMessage)
  : option Url.URL :=
  if Url.truthy (url req) && Url.truthy (host req) then
    match Url.new_URL lib (default "" (url req))
            ("http://" +:+ default "" (host req)) with
    | Returns u => Some u
    | Throws _ => None
    end
  else None.

(** The request is a GET whose parsed URL has the path [/], a state that
    holds a nonce, and a code: the callback of the authorization
    server. *)
Definition well_formed (lib : Url.Library) (req : IncomingMessage) : bool :=
  match parsed lib req with
  | Some u =>
      String.eqb (method req) "GET" && String.eqb (Url.pathname u) "/" &&
      negb (malformed lib u)
  | None => false
  end.

(** The nonce and the code of a callback, as the handler reads them from
    the parsed URL: the nonce is in the query string that the [state]
    parameter holds. *)
Definition callback_nonce (lib : Url.Library) (req : IncomingMessage)
  : string :=
  default ""
    (u ← parsed lib req;
     Url.get "nonce"
       (Url.new_URLSearchParams lib
          (default "" (Url.get "state" (Url.searchParams u))))).

Definition callback_code (lib : Url.Library) (req : IncomingMessage)
  : string :=
  default "" (u ← parsed lib req; Url.get "code" (Url.searchParams u)).

(** [w] has the code manager, the servers, the activations and the
    cancellation listeners of [w0], the same activations park on code
    promises and the same responses wait for their redirect; the browser
    was opened as often, and no promise reaction is left to run. *)
Definition same_flow (w0 w : world) : Prop :=
  codeManager w = codeManager w0 ∧
  FlowLife.same_servers w0 w ∧
  awaiting w = awaiting w0 ∧
  listeners w = listeners w0 ∧
  opened w = opened w0 ∧
  redirecting w = redirecting w0 ∧
  jobs w = [].

(** The response is for a file of [n] bytes with [content]. *)
Definition file_response (content : string) : ServerResponse :=
  {| headersSent := true; statusCode := Some 200;
     headers := [("content-length", pretty (String.length content))];
     body := Some content; endCalls := 1 |}.

End Answer.

(** ** CcuInformation

    The poller of [src/colab/ccu-info.ts].  The timer of [setInterval]
    and the promise of [client.ccuInfo()] are driven by the environment;
    the reactions registered with [then], [catch] and [finally] run one
    after the other as promise jobs, with no timer callback in between, so
    they are one step here. *)

Module CcuInformation.

Section ccu.

(** The [CcuInfo] objects and [JSON.stringify] on them. *)
Variable CcuInfo : Type.
Variable stringify : CcuInfo → string.

Record t := {
  (** [private currentCcuInfo?: CcuInfo] *)
  currentCcuInfo : option CcuInfo;
  (** [private isFetching = false] *)
  isFetching : bool;
  (** the interval timer behind [private poller] is set *)
  poller : bool;
  (** how often the poller has called [client.ccuInfo()] *)
  requests : nat;
  (** the calls whose promise has not settled *)
  pending : list nat;
  (** the calls of [onDidChangeCcuInfo.fire()], each with the
      [ccuInfo] a listener reads then *)
  fired : list CcuInfo;
  (** the rejections nothing handles: message and cause *)
  unhandled : list (string * error)
}.

(** [new CcuInformation(vs, client, ccuInfo)] *)
Definition create (ccuInfo : option CcuInfo) : t :=
  {| currentCcuInfo := ccuInfo; isFetching := false; poller := true;
     requests := 0; pending := []; fired := []; unhandled := [] |}.

Definition set_currentCcuInfo (x : option CcuInfo) : St t unit :=
  modify (λ s, {| currentCcuInfo := x; isFetching := isFetching s;
                  poller := poller s; requests := requests s;
                  pending := pending s; fired := fired s;
                  unhandled := unhandled s |}).

Definition set_isFetching (b : bool) : St t unit :=
  modify (λ s, {| currentCcuInfo := currentCcuInfo s; isFetching := b;
                  poller := poller s; requests := requests s;
                  pending := pending s; fired := fired s;
                  unhandled := unhandled s |}).

Definition set_pending (l : list nat) : St t unit :=
  modify (λ s, {| currentCcuInfo := currentCcuInfo s;
                  isFetching := isFetching s; poller := poller s;
                  requests := requests s; pending := l; fired := fired s;
                  unhandled := unhandled s |}).

(** [dispose()]: [clearInterval(this.poller)] *)
Definition dispose : St t unit :=
  modify (λ s, {| currentCcuInfo := currentCcuInfo s;
                  isFetching := isFetching s; poller := false;
                  requests := requests s; pending := pending s;
                  fired := fired s; unhandled := unhandled s |}).

(** [this.client.ccuInfo()]: the call gets the next index and its promise
    is pending. *)
Definition client_ccuInfo : St t nat :=
  λ s, (requests s,
        {| currentCcuInfo := currentCcuInfo s; isFetching := isFetching s;
           poller := poller s; requests := S (requests s);
           pending := pending s ++ [requests s]; fired := fired s;
           unhandled := unhandled s |}).

(** [this.onDidChangeCcuInfo.fire()] *)
Definition fire : St t unit :=
  modify (λ s, {| currentCcuInfo := currentCcuInfo s;
                  isFetching := isFetching s; poller := poller s;
                  requests := requests s; pending := pending s;
                  fired := fired s ++
                           match currentCcuInfo s with
                           | Some i => [i]
                           | None => []
                           end;
                  unhandled := unhandled s |}).

(** The callback of [setInterval] in [startInfoPolling], up to the call
    of [client.ccuInfo()]; it returns the index of the call it made. *)
Definition interval_callback : St t (option nat) :=
  f ← gets isFetching;
  if f : bool then mret None
  else
    set_isFetching true;;
    k ← client_ccuInfo;
    mret (Some k).

(** [updateCcuInfo(nextCcuInfo)]; [JSON.stringify] of the missing
    [ccuInfo] is [undefined], which equals no string. *)
Definition updateCcuInfo (nextCcuInfo : CcuInfo) : St t unit :=
  cur ← gets currentCcuInfo;
  if decide (Some (stringify nextCcuInfo) = stringify <$> cur) then mret ()
  else set_currentCcuInfo (Some nextCcuInfo);; fire.

(** The reactions of a fulfilled call: [then], and [finally]. *)
Definition fetch_fulfilled (nextInfo : CcuInfo) : St t unit :=
  updateCcuInfo nextInfo;;
  set_isFetching false.

(** The reactions of a rejected call: [catch] throws a new [Error] with
    the cause, [finally] runs and hands the rejection on, to nobody. *)
Definition fetch_rejected (e : error) : St t unit :=
  set_isFetching false;;
  modify (λ s, {| currentCcuInfo := currentCcuInfo s;
                  isFetching := isFetching s; poller := poller s;
                  requests := requests s; pending := pending s;
                  fired := fired s;
                  unhandled :=
                    unhandled s ++ [("Failed to fetch CCU information", e)] |}).

(** What the environment can do. *)
Inductive event :=
| Tick
| Fulfils (k : nat) (info : CcuInfo)
| Rejects (k : nat) (e : error)
| Dispose.

Inductive observation :=
| Fetching (k : nat)
| Skipped
| Settled
| Disposed
| Ignored.

Definition settle (k : nat) (m : St t unit) : St t observation :=
  p ← gets pending;
  if decide (k ∈ p) then
    set_pending (List.filter (λ k', negb (Nat.eqb k' k)) p);;
    m;;
    mret Settled
  else mret Ignored.

Definition step (e : event) : St t observation :=
  match e with
  | Tick =>
      on ← gets poller;
      if on : bool then
        r ← interval_callback;
        mret (match r with Some k => Fetching k | None => Skipped end)
      else mret Ignored
  | Fulfils k info => settle k (fetch_fulfilled info)
  | Rejects k e => settle k (fetch_rejected e)
  | Dispose => dispose;; mret Disposed
  end.

Fixpoint run (es : list event) : St t (list observation) :=
  match es with
  | [] => mret []
  | e :: es => o ← step e; os ← run es; mret (o :: os)
  end.

(** The states an instance made with [ccuInfo] can be in. *)
Inductive reachable (ccuInfo : option CcuInfo) : t → Prop :=
| reachable_create : reachable ccuInfo (create ccuInfo)
| reachable_step s e :
    reachable ccuInfo s → reachable ccuInfo (exec (step e) s).

(** No two [CcuInfo] in a row have the same JSON, starting after
    [prev]. *)
Fixpoint changes (prev : option string) (l : list CcuInfo) : Prop :=
  match l with
  | [] => True
  | i :: l => prev ≠ Some (stringify i) ∧ changes (Some (stringify i)) l
  end.

(** Invariants of the poller: a call is pending exactly while
    [isFetching] is set, and it is the last call made; [ccuInfo] is the
    last one announced, or the initial one. *)
Record inv (ccuInfo : option CcuInfo) (s : t) : Prop := {
  inv_idle : isFetching s = false → pending s = [];
  inv_busy : isFetching s = true → ∃ k, pending s = [k] ∧ requests s = S k;
  inv_changes : changes (stringify <$> ccuInfo) (fired s);
  inv_current : currentCcuInfo s = last (option_list ccuInfo ++ fired s)
}.

End ccu.

Arguments currentCcuInfo {CcuInfo}.
Arguments isFetching {CcuInfo}.
Arguments poller {CcuInfo}.
Arguments requests {CcuInfo}.
Arguments pending {CcuInfo}.
Arguments fired {CcuInfo}.
Arguments unhandled {CcuInfo}.
Arguments create {CcuInfo}.
Arguments Tick {CcuInfo}.
Arguments Fulfils {CcuInfo}.
Arguments Rejects {CcuInfo}.
Arguments Dispose {CcuInfo}.

(** An instance with JSON strings for [CcuInfo] objects, started with
    ["a"], after its first tick. *)
Definition polling : t string :=
  exec (step string id Tick) (create (Some "a")).

End CcuInformation.

(** * Theorems *)

Module ToggleFacts.
Import Toggle.

Lemma launch_eq to s :
  launch to s =
  (Awaiting (allocated s),
   {| inFlight := Some {| in_ctrl := allocated s; in_to := to |};
      signals := <[allocated s := fresh_signal]> (signals s);
      allocated := S (allocated s);
      parked := <[allocated s := to]> (parked s);
      effects := effects s ++ [Turn to (allocated s)] |}).
Proof. reflexivity. Qed.

Lemma toggle_idle to s :
  inFlight s = None → toggle to s = launch to s.
Proof. intros H. unfold toggle, mbind, St_bind, gets. by rewrite H. Qed.

Lemma toggle_same c to s :
  inFlight s = Some {| in_ctrl := c; in_to := to |} →
  toggle to s = (Returned, s).
Proof.
  intros H. unfold toggle, mbind, St_bind, gets. rewrite H. simpl.
  by rewrite decide_True.
Qed.

Lemma toggle_opposite c d to s :
  inFlight s = Some {| in_ctrl := c; in_to := d |} → d ≠ to →
  toggle to s = launch to (exec (abort c (ToggleAbortedError d to)) s).
Proof.
  intros H Hne. unfold toggle, exec, mbind, St_bind, gets. rewrite H. simpl.
  rewrite decide_False by done.
  by destruct (abort c (ToggleAbortedError d to) s) as [[] s'].
Qed.

Lemma abort_eq c r s :
  signal_aborted c s = false →
  exec (abort c r) s =
  {| inFlight := inFlight s;
     signals := <[c := {| aborted := true; reason := Some r |}]> (signals s);
     allocated := allocated s; parked := parked s;
     effects := effects s ++ [Abort c r] |}.
Proof.
  intros H. unfold abort, exec, emit, modify, mbind, St_bind. simpl.
  unfold signal_aborted in *. simpl. by rewrite H.
Qed.

Lemma calls_with_app c es1 es2 :
  calls_with c (es1 ++ es2) = calls_with c es1 + calls_with c es2.
Proof. unfold calls_with. by rewrite List.filter_app, length_app. Qed.

Lemma calls_with_Turn c d c' :
  calls_with c [Turn d c'] = if decide (c' = c) then 1 else 0.
Proof.
  unfold calls_with. destruct d; simpl;
    destruct (decide (c' = c));
    by rewrite ?bool_decide_eq_true_2, ?bool_decide_eq_false_2 by done.
Qed.

Lemma inv_init : inv init.
Proof.
  split; simpl.
  - discriminate.
  - intros c d. by rewrite lookup_empty.
  - intros c d. by rewrite lookup_empty.
  - intros c. destruct (decide (c < 0)); [lia | done].
Qed.

Lemma toggle_resume_eq c to o s :
  toggle_resume c to o s =
  (resume_result c o s,
   {| inFlight := if hasActiveControl c s then None else inFlight s;
      signals := signals s; allocated := allocated s; parked := parked s;
      effects := effects s ++ [resume_log c to o s] |}).
Proof.
  destruct s as [f sg a p es].
  unfold toggle_resume, resume_result, resume_log, mbind, St_bind, gets,
    when, emit, set_inFlight, modify, mret, St_ret.
  assert (Hcase : ∀ g : InFlight,
             bool_decide (in_ctrl g = c) = true ∨
             bool_decide (in_ctrl g = c) = false)
    by (intros g; destruct (bool_decide (in_ctrl g = c)); auto).
  destruct o as [|err]; simpl.
  - unfold hasActiveControl; simpl.
    destruct f as [f|]; simpl; [|done].
    destruct (Hcase f) as [E|E]; rewrite !E; simpl; by rewrite ?E.
  - unfold signal_aborted, hasActiveControl; simpl.
    destruct (sg !! c) as [[[] r]|]; simpl;
      (destruct f as [f|]; simpl; [|done]);
      destruct (Hcase f) as [E|E]; rewrite ?E; simpl; by rewrite ?E.
Qed.

Lemma settle_parked c to o s :
  parked s !! c = Some to →
  step (Settle c o) s =
  (Finished (resume_result c o s),
   {| inFlight := if hasActiveControl c s then None else inFlight s;
      signals := signals s; allocated := allocated s;
      parked := delete c (parked s);
      effects := effects s ++ [resume_log c to o s] |}).
Proof.
  intros H. unfold step, mbind, St_bind, gets. rewrite H.
  unfold set_parked, modify. rewrite toggle_resume_eq. done.
Qed.

Lemma settle_not_parked c o s :
  parked s !! c = None → step (Settle c o) s = (Ignored, s).
Proof. intros H. unfold step, mbind, St_bind, gets. by rewrite H. Qed.

Lemma is_turn_resume_log c c' to o s : is_turn c (resume_log c' to o s) = false.
Proof.
  unfold resume_log.
  destruct o; [destruct (hasActiveControl c' s)|destruct (signal_aborted c' s)];
    done.
Qed.

(** [launch] re-establishes the invariant from a state in which every
    parked activation has an aborted signal. *)
Lemma inv_launch to s :
  (∀ c d, parked s !! c = Some d → c < allocated s ∧ Turn d c ∈ effects s) →
  (∀ c d, parked s !! c = Some d → signal_aborted c s = true) →
  (∀ c, calls_with c (effects s) = if decide (c < allocated s) then 1 else 0) →
  inv (exec (launch to) s).
Proof.
  intros Hp Hs Hc. unfold exec. rewrite launch_eq. split; simpl.
  - intros f [= <-]; simpl. split; [by rewrite lookup_insert_eq|].
    unfold signal_aborted; simpl. by rewrite lookup_insert_eq.
  - intros c d. rewrite lookup_insert. case_decide as Hcase.
    + intros [= <-]. subst c. split; [lia|]. apply elem_of_app. right.
      by apply list_elem_of_singleton.
    + intros H. destruct (Hp _ _ H) as [Hlt Hin]. split; [lia|].
      apply elem_of_app. by left.
  - intros c d. unfold hasActiveControl, signal_aborted; simpl.
    rewrite !lookup_insert. case_decide as Hcase.
    + subst c. by rewrite bool_decide_eq_true_2.
    + intros H _. apply (Hs _ _ H).
  - intros c. rewrite calls_with_app, Hc, calls_with_Turn.
    repeat case_decide; lia.
Qed.

Lemma exec_call to s : exec (step (Call to)) s = exec (toggle to) s.
Proof.
  unfold exec, step, mbind, St_bind. by destruct (toggle to s).
Qed.

Lemma eval_call to s : eval (step (Call to)) s = Started (eval (toggle to) s).
Proof.
  unfold eval, step, mbind, St_bind. by destruct (toggle to s).
Qed.

Lemma inv_step e s : inv s → inv (exec (step e) s).
Proof.
  intros Hinv. pose proof Hinv as [Ha Hp Hs Hc]. destruct e as [to|c o].
  - rewrite exec_call. destruct (inFlight s) as [[c d]|] eqn:Hf.
    + destruct (decide (d = to)) as [->|Hne].
      * unfold exec. by rewrite (toggle_same c).
      * unfold exec. rewrite (toggle_opposite c d) by done.
        destruct (Ha _ eq_refl) as [_ Hna]. simpl in Hna.
        rewrite abort_eq by done. apply inv_launch; simpl.
        -- intros c' d' H. destruct (Hp _ _ H) as [? ?]. split; [done|].
           apply elem_of_app. by left.
        -- intros c' d' H. unfold signal_aborted; simpl.
           rewrite lookup_insert. case_decide as Hcase; [done|].
           apply (Hs _ _ H). unfold hasActiveControl. rewrite Hf. simpl.
           by rewrite bool_decide_eq_false_2.
        -- intros c'. rewrite calls_with_app, Hc.
           change (calls_with c' [Abort c (ToggleAbortedError d to)]) with 0.
           apply Nat.add_0_r.
    + unfold exec. rewrite toggle_idle by done. apply inv_launch; try done.
      intros c d H. apply (Hs _ _ H). unfold hasActiveControl. by rewrite Hf.
  - destruct (parked s !! c) as [to|] eqn:Hpc.
    + unfold exec. rewrite (settle_parked c to) by done. split; simpl.
      * intros f Hf. unfold hasActiveControl in Hf.
        destruct (inFlight s) as [g|] eqn:Hg; [|done].
        case_bool_decide as Hgc; [done|]. simplify_eq.
        destruct (Ha _ eq_refl) as [H1 H2].
        split; [by rewrite lookup_delete_ne|done].
      * intros c' d. rewrite lookup_delete. case_decide; [done|].
        intros Hc'. destruct (Hp _ _ Hc'). split; [done|].
        apply elem_of_app. by left.
      * intros c' d. rewrite lookup_delete. case_decide as Hcase; [done|].
        intros Hc' Hact. apply (Hs _ _ Hc').
        unfold hasActiveControl in *. simpl in Hact.
        destruct (inFlight s) as [g|] eqn:Hg; [|done].
        case_bool_decide as Hgc; [|done].
        apply bool_decide_eq_false_2. congruence.
      * intros c'. rewrite calls_with_app, Hc.
        unfold calls_with at 1. simpl. rewrite is_turn_resume_log.
        apply Nat.add_0_r.
    + unfold exec. by rewrite settle_not_parked.
Qed.

Lemma reachable_inv s : reachable s → inv s.
Proof. induction 1; [apply inv_init | by apply inv_step]. Qed.

Lemma run_same_direction c to n s :
  inFlight s = Some {| in_ctrl := c; in_to := to |} →
  run (repeat (Call to) n) s = (repeat (Started Returned) n, s).
Proof.
  intros H. induction n as [|n IH]; [done|]. simpl.
  unfold mbind, St_bind in *. rewrite (toggle_same c) by done. simpl.
  by rewrite IH.
Qed.

(** C1. While a transition to [to] is in flight, further calls of [on()]
    (resp. [off()]) in that direction return at once and leave the toggle
    exactly as it was: nothing is parked (queued), no controller is
    allocated (restarted), and the abstract method that received the
    in-flight controller's signal has been invoked exactly once, in
    direction [to]. *)
Theorem same_direction_call_is_noop
    (s : state) (c : ctrl) (to : ToggleDirection) (n : nat) :
  reachable s →
  inFlight s = Some {| in_ctrl := c; in_to := to |} →
  run (repeat (Call to) n) s = (repeat (Started Returned) n, s) ∧
  calls_with c (effects (exec (run (repeat (Call to) n)) s)) = 1 ∧
  Turn to c ∈ effects (exec (run (repeat (Call to) n)) s).
Proof.
  intros Hr Hf. destruct (reachable_inv _ Hr) as [Ha Hp _ Hc].
  destruct (Ha _ Hf) as [Hpk _]. simpl in Hpk.
  destruct (Hp _ _ Hpk) as [Hlt Hin].
  unfold exec. rewrite (run_same_direction c) by done. simpl.
  split; [done|]. split; [|done].
  rewrite Hc. by rewrite decide_True.
Qed.

Lemma same_direction_call_is_noop_witness :
  run [Call on; Call on] on_in_flight
    = ([Started Returned; Started Returned], on_in_flight) ∧
  calls_with 0 (effects (exec (run [Call on; Call on]) on_in_flight)) = 1 ∧
  TurnOn 0 ∈ effects (exec (run [Call on; Call on]) on_in_flight).
Proof.
  apply (same_direction_call_is_noop on_in_flight 0 on 2).
  - apply reachable_step, reachable_init.
  - reflexivity.
Defined.

(** C2. A call in the direction opposite to the in-flight transition first
    aborts the in-flight controller with a [ToggleAbortedError], whose
    message says that the toggle was superseded (the signal reads
    [aborted = true] from then on), then calls the abstract method of the
    new direction with a fresh, unaborted signal; the superseded
    activation is still parked on its own promise when that happens. *)
Theorem opposite_call_supersedes
    (s : state) (c : ctrl) (d to : ToggleDirection) :
  reachable s →
  inFlight s = Some {| in_ctrl := c; in_to := d |} →
  d ≠ to →
  let c' := allocated s in
  let s' := exec (step (Call to)) s in
  eval (step (Call to)) s = Started (Awaiting c') ∧
  effects s' = effects s ++ [Abort c (ToggleAbortedError d to); Turn to c'] ∧
  signals s' !! c =
    Some {| aborted := true; reason := Some (ToggleAbortedError d to) |} ∧
  signal_aborted c s' = true ∧
  signal_aborted c' s' = false ∧
  inFlight s' = Some {| in_ctrl := c'; in_to := to |} ∧
  parked s' !! c' = Some to ∧
  parked s' !! c = Some d ∧
  c ≠ c' ∧
  error_message (ToggleAbortedError d to) =
    "Toggling from " +:+ direction_name d +:+
    " superseded by toggle to " +:+ direction_name to.
Proof.
  intros Hr Hf Hne c' s'. destruct (reachable_inv _ Hr) as [Ha Hp _ _].
  destruct (Ha _ Hf) as [Hpk Hna]. simpl in Hpk, Hna.
  destruct (Hp _ _ Hpk) as [Hlt _].
  assert (c ≠ c') as Hcc by (unfold c'; lia).
  subst s'. rewrite eval_call, exec_call. unfold eval, exec.
  rewrite (toggle_opposite c d) by done.
  rewrite abort_eq by done. rewrite launch_eq. simpl. fold c'.
  unfold signal_aborted. simpl.
  assert (c' ≠ c) as Hcc' by done.
  rewrite !lookup_insert_eq, !lookup_insert_ne, !lookup_insert_eq by done.
  rewrite (lookup_insert_ne (parked s)) by done.
  rewrite <- app_assoc. simpl. by repeat split.
Qed.

Lemma opposite_call_supersedes_witness :
  eval (step (Call off)) on_in_flight = Started (Awaiting 1) ∧
  effects (exec (step (Call off)) on_in_flight) =
    effects on_in_flight ++ [Abort 0 (ToggleAbortedError on off); TurnOff 1] ∧
  signals (exec (step (Call off)) on_in_flight) !! 0 =
    Some {| aborted := true; reason := Some (ToggleAbortedError on off) |} ∧
  signal_aborted 0 (exec (step (Call off)) on_in_flight) = true ∧
  signal_aborted 1 (exec (step (Call off)) on_in_flight) = false ∧
  inFlight (exec (step (Call off)) on_in_flight) =
    Some {| in_ctrl := 1; in_to := off |} ∧
  parked (exec (step (Call off)) on_in_flight) !! 1 = Some off ∧
  parked (exec (step (Call off)) on_in_flight) !! 0 = Some on ∧
  0 ≠ 1 ∧
  error_message (ToggleAbortedError on off) =
    "Toggling from on superseded by toggle to off".
Proof.
  apply (opposite_call_supersedes on_in_flight 0 on off).
  - apply reachable_step, reachable_init.
  - reflexivity.
  - discriminate.
Defined.

(** C3. When the promise of [turnOn]/[turnOff] rejects with [err]: if the
    signal of the transition is aborted, the error is logged at trace level
    and the promise of [toggle] resolves; otherwise the error is logged at
    error level and [toggle] rejects with that same [err]. *)
Theorem rejection_handling
    (s : state) (c : ctrl) (to : ToggleDirection) (err : error) :
  parked s !! c = Some to →
  let s' := exec (step (Settle c (Rejected err))) s in
  if signal_aborted c s
  then eval (step (Settle c (Rejected err))) s = Finished Resolved ∧
       effects s' = effects s ++ [LogTrace "Async toggle aborted." (Some err)]
  else eval (step (Settle c (Rejected err))) s = Finished (Threw err) ∧
       effects s' =
         effects s ++
         [LogError ("Async toggle to " +:+ direction_name to +:+
                    " failed unexpectedly.") err].
Proof.
  intros Hpk s'. subst s'. unfold eval, exec.
  rewrite (settle_parked c to) by done. simpl.
  by destruct (signal_aborted c s).
Qed.

Lemma rejection_handling_witness :
  eval (step (Settle 0 (Rejected (Failure "boom")))) on_in_flight
    = Finished (Threw (Failure "boom")) ∧
  effects (exec (step (Settle 0 (Rejected (Failure "boom")))) on_in_flight) =
    effects on_in_flight ++
    [LogError "Async toggle to on failed unexpectedly." (Failure "boom")].
Proof.
  apply (rejection_handling on_in_flight 0 on (Failure "boom")). reflexivity.
Defined.

(** C10. The activation that owns the in-flight record is parked, and
    however its promise settles, the [finally] block clears the record, so
    the next [on()]/[off()] allocates a new controller and calls
    [turnOn]/[turnOff] again.  Any other parked activation has been
    superseded (its signal is aborted) and leaves the record as it is. *)
Theorem finished_transition_clears_in_flight
    (s : state) (c : ctrl) (to : ToggleDirection) (o : outcome) :
  reachable s →
  inFlight s = Some {| in_ctrl := c; in_to := to |} →
  let s' := exec (step (Settle c o)) s in
  parked s !! c = Some to ∧
  inFlight s' = None ∧
  (∀ to',
     eval (step (Call to')) s' = Started (Awaiting (allocated s')) ∧
     effects (exec (step (Call to')) s') =
       effects s' ++ [Turn to' (allocated s')] ∧
     inFlight (exec (step (Call to')) s') =
       Some {| in_ctrl := allocated s'; in_to := to' |}) ∧
  (∀ c2 d2 o2,
     c2 ≠ c → parked s !! c2 = Some d2 →
     signal_aborted c2 s = true ∧
     inFlight (exec (step (Settle c2 o2)) s) = inFlight s).
Proof.
  intros Hr Hf s'. destruct (reachable_inv _ Hr) as [Ha _ Hs _].
  destruct (Ha _ Hf) as [Hpk _]. simpl in Hpk.
  assert (Hact : hasActiveControl c s = true).
  { unfold hasActiveControl. rewrite Hf. simpl.
    by apply bool_decide_eq_true_2. }
  assert (Hs' : inFlight s' = None).
  { subst s'. unfold exec. rewrite (settle_parked c to) by done. simpl.
    by rewrite Hact. }
  split; [done|]. split; [done|]. split.
  - intros to'. rewrite eval_call, exec_call. unfold eval, exec.
    rewrite toggle_idle by done. by rewrite launch_eq.
  - intros c2 d2 o2 Hne Hpk2.
    assert (Hact2 : hasActiveControl c2 s = false).
    { unfold hasActiveControl. rewrite Hf. simpl.
      by apply bool_decide_eq_false_2. }
    split; [by apply (Hs _ _ Hpk2)|].
    unfold exec. rewrite (settle_parked c2 d2) by done. simpl.
    by rewrite Hact2.
Qed.

Lemma finished_transition_clears_in_flight_witness :
  let s' := exec (step (Settle 0 (Rejected (Failure "boom")))) on_in_flight in
  parked on_in_flight !! 0 = Some on ∧
  inFlight s' = None ∧
  (∀ to',
     eval (step (Call to')) s' = Started (Awaiting (allocated s')) ∧
     effects (exec (step (Call to')) s') =
       effects s' ++ [Turn to' (allocated s')] ∧
     inFlight (exec (step (Call to')) s') =
       Some {| in_ctrl := allocated s'; in_to := to' |}) ∧
  (∀ c2 d2 o2,
     c2 ≠ 0 → parked on_in_flight !! c2 = Some d2 →
     signal_aborted c2 on_in_flight = true ∧
     inFlight (exec (step (Settle c2 o2)) on_in_flight)
       = inFlight on_in_flight).
Proof.
  apply (finished_transition_clears_in_flight
           on_in_flight 0 on (Rejected (Failure "boom"))).
  - apply reachable_step, reachable_init.
  - reflexivity.
Defined.

(** The unit test [should handle rapid toggling]: on, off and on again
    before anything completes, then the last [turnOn] completes. *)
Example rapid_toggling :
  let s := exec (run [Call on; Call off; Call on; Settle 2 Fulfilled]) init in
  effects s =
    [TurnOn 0; Abort 0 (ToggleAbortedError on off); TurnOff 1;
     Abort 1 (ToggleAbortedError off on); TurnOn 2;
     LogTrace "Async toggle to on completed successfully." None] ∧
  signal_aborted 0 s = true ∧ signal_aborted 1 s = true ∧
  signal_aborted 2 s = false ∧ inFlight s = None.
Proof. repeat split; vm_compute; reflexivity. Qed.

(** The unit test [should be able to turn off after failing to turn
    on]. *)
Example turn_off_after_failing_to_turn_on :
  eval (run [Call on; Settle 0 (Rejected (Failure "failed")); Call off;
             Settle 1 Fulfilled]) init =
  [Started (Awaiting 0); Finished (Threw (Failure "failed"));
   Started (Awaiting 1); Finished Resolved].
Proof. vm_compute. reflexivity. Qed.

End ToggleFacts.

Module UrlFacts.
Import Url.

Example searchParams_callback :
  new_URL origin_form "/?state=nonce%3Dnonce&code=42&scope=foo"
    "http://127.0.0.1:1234" =
  Returns {| pathname := "/";
             searchParams := [("state", "nonce=nonce"); ("code", "42");
                              ("scope", "foo")] |}.
Proof. reflexivity. Qed.

Example pathname_favicon :
  pathname <$> match new_URL origin_form "/favicon.ico"
                       "http://127.0.0.1:1234" with
               | Returns u => Some u
               | Throws _ => None
               end = Some "/favicon.ico".
Proof. reflexivity. Qed.

Example nonce_of_state :
  get "nonce" (new_URLSearchParams origin_form "nonce=nonce") = Some "nonce".
Proof. reflexivity. Qed.

Example encode_success_uri :
  encodeURIComponent "vscode://google.colab/auth-success?windowId=1" =
  "vscode%3A%2F%2Fgoogle.colab%2Fauth-success%3FwindowId%3D1".
Proof. reflexivity. Qed.

End UrlFacts.

Module LoopbackServerFacts.
Import LoopbackServer.

Lemma start_first s :
  isDisposed s = false → listen s = None →
  start s =
  (length (handles s),
   {| listen := Some Pending; isDisposed := false;
      server := {| listening := listening (server s);
                   listenCalls := listenCalls (server s) ++ [(0%N, "127.0.0.1")];
                   closeCalls := closeCalls (server s) |};
      handles := handles s ++ [Follows] |}).
Proof.
  destruct s as [l d h hs]. simpl. intros -> ->. reflexivity.
Qed.

(** A call of [start] while [this.listen] is set does not touch the
    [http.Server]; it hands back one more promise that follows
    [this.listen]. *)
Lemma start_again s st :
  isDisposed s = false → listen s = Some st →
  start s =
  (length (handles s),
   {| listen := Some st; isDisposed := false; server := server s;
      handles := handles s ++ [Follows] |}).
Proof.
  destruct s as [l d h hs]. simpl. intros -> ->. reflexivity.
Qed.

Lemma listening_callback_pending addr fam port s :
  listen s = Some Pending →
  exec (listening_callback (AddressInfo addr fam port)) s =
  {| listen := Some (Fulfilled port); isDisposed := isDisposed s;
     server := {| listening := true;
                  listenCalls := listenCalls (server s);
                  closeCalls := closeCalls (server s) |};
     handles := handles s |}.
Proof.
  destruct s as [l d h hs]. simpl. intros ->. reflexivity.
Qed.

(** C8 (amended). On a server that is neither disposed nor started, two
    calls of [start] in a row call [listen] of the [http.Server] exactly
    once, with port 0 on 127.0.0.1; the second call leaves [this.listen]
    and the [http.Server] as the first one set them.  Being [async], each
    call hands back a promise of its own; both follow the one stored
    promise, so both are pending until the listen callback runs and both
    are then fulfilled with the port of the address. *)
Theorem start_twice_listens_once (s : t) :
  isDisposed s = false →
  listen s = None →
  let k1 := eval start s in
  let s1 := exec start s in
  let k2 := eval start s1 in
  let s2 := exec start s1 in
  listen s1 = Some Pending ∧
  listen s2 = listen s1 ∧
  server s2 = server s1 ∧
  listenCalls (server s2) = listenCalls (server s) ++ [(0%N, "127.0.0.1")] ∧
  k1 ≠ k2 ∧
  promise_state k1 s2 = Some Pending ∧
  promise_state k2 s2 = Some Pending ∧
  ∀ addr fam port,
    let s3 := exec (listening_callback (AddressInfo addr fam port)) s2 in
    promise_state k1 s3 = Some (Fulfilled port) ∧
    promise_state k2 s3 = Some (Fulfilled port) ∧
    listenCalls (server s3) = listenCalls (server s2).
Proof.
  intros Hd Hl k1 s1 k2 s2. subst k1 s1 k2 s2. unfold eval, exec.
  rewrite (start_first s) by done. simpl.
  rewrite length_app. simpl.
  assert (H1 : ((handles s ++ [Follows]) ++ [Follows]) !! length (handles s)
               = Some Follows).
  { rewrite <- app_assoc. apply list_lookup_middle. done. }
  assert (H2 : ((handles s ++ [Follows]) ++ [Follows])
                 !! (length (handles s) + 1) = Some Follows).
  { apply list_lookup_middle. rewrite length_app. simpl. done. }
  repeat split; try done.
  - lia.
  - unfold promise_state. simpl. by rewrite H1.
  - unfold promise_state. simpl. by rewrite H2.
  - unfold exec. simpl. unfold promise_state. simpl. by rewrite H1.
  - unfold exec. simpl. unfold promise_state. simpl. by rewrite H2.
Qed.

Lemma start_twice_listens_once_witness :
  let k1 := eval start create in
  let s1 := exec start create in
  let k2 := eval start s1 in
  let s2 := exec start s1 in
  listen s1 = Some Pending ∧
  listen s2 = listen s1 ∧
  server s2 = server s1 ∧
  listenCalls (server s2) = listenCalls (server create) ++ [(0%N, "127.0.0.1")] ∧
  k1 ≠ k2 ∧
  promise_state k1 s2 = Some Pending ∧
  promise_state k2 s2 = Some Pending ∧
  ∀ addr fam port,
    let s3 := exec (listening_callback (AddressInfo addr fam port)) s2 in
    promise_state k1 s3 = Some (Fulfilled port) ∧
    promise_state k2 s3 = Some (Fulfilled port) ∧
    listenCalls (server s3) = listenCalls (server s2).
Proof.
  apply (start_twice_listens_once create); reflexivity.
Defined.

(** C8 as stated fails: the promise handed back by the second call of
    [start] is not the promise handed back by the first. *)
Lemma start_twice_distinct_promises :
  ¬ (eval start (exec start create) = eval start create).
Proof. discriminate. Qed.

End LoopbackServerFacts.

Module ProviderFacts.
Import Provider.

Lemma strings_of_json l : mapM string_of_json (JString <$> l) = Some l.
Proof. by apply mapM_fmap_Some. Qed.

Lemma session_of_json_to_json x : session_of_json (session_to_json x) = Some x.
Proof.
  destruct x as [i tok [a l] sc]. unfold session_to_json. simpl.
  by rewrite strings_of_json.
Qed.

Lemma of_json_to_json l : of_json (to_json l) = Some l.
Proof. apply mapM_fmap_Some, session_of_json_to_json. Qed.

Lemma filter_keeps_all {A} (P : A → Prop) `{∀ x, Decision (P x)} (l : list A) :
  Forall P l → filter P l = l.
Proof.
  induction 1 as [|x l Hx _ IH]; [done|].
  rewrite filter_cons, decide_True by done. by rewrite IH.
Qed.

Lemma getSessions_pure st : exec getSessions st = st.
Proof.
  unfold exec, getSessions, mbind, St_bind, gets. simpl.
  destruct (secrets st !! SESSIONS_KEY) as [j|]; [|done].
  by destruct (of_json j).
Qed.

(** C7. Let the store hold a list of sessions.  If no session has the
    given id, [removeSession] returns without calling [store] and the store
    is exactly as before; if some session has it, [store] is called once,
    with the list without the sessions of that id.  In both cases a
    following [getSessions] returns a list in which no session has the
    id. *)
Theorem removeSession_spec
    (st : SecretStorage) (sessionId : string)
    (sessions : list AuthenticationSession) :
  eval getSessions st = Returns sessions →
  (sessionId ∉ ids sessions →
     removeSession sessionId st = (Returns (), st)) ∧
  (sessionId ∈ ids sessions →
     eval (removeSession sessionId) st = Returns () ∧
     storeCalls (exec (removeSession sessionId) st) =
       storeCalls st ++
       [(SESSIONS_KEY, to_json (filter (λ x, id x ≠ sessionId) sessions))]) ∧
  (∃ l, eval getSessions (exec (removeSession sessionId) st) = Returns l ∧
        sessionId ∉ ids l).
Proof.
  intros Hget.
  assert (Hrun : getSessions st = (Returns sessions, st)).
  { pose proof (getSessions_pure st) as Hpure. unfold eval in Hget.
    unfold exec in Hpure. destruct (getSessions st) as [r st']. simpl in *.
    by subst. }
  assert (Hfilter : sessionId ∉ ids (filter (λ x, id x ≠ sessionId) sessions)).
  { intros Hin. apply list_elem_of_fmap in Hin as (x & -> & Hx).
    apply list_elem_of_filter in Hx as [Hne _]. done. }
  split; [|split].
  - intros Hnot. unfold removeSession, mbind, St_bind. rewrite Hrun.
    rewrite filter_keeps_all; [by rewrite decide_True|].
    apply Forall_forall. intros x Hx Heq. apply Hnot. rewrite <- Heq.
    by apply list_elem_of_fmap_2.
  - intros Hin. apply list_elem_of_fmap in Hin as (x & -> & Hx).
    unfold eval, exec, removeSession, mbind, St_bind. rewrite Hrun.
    rewrite decide_False; [done|].
    pose proof (length_filter_lt (λ y, id y ≠ id x) sessions x Hx) as Hlt.
    intros Heq. rewrite Heq in Hlt. apply (Nat.lt_irrefl (length sessions)).
    apply Hlt. by intros Hne.
  - unfold exec at 1. unfold removeSession, mbind, St_bind. rewrite Hrun.
    case_decide as Hlen.
    + exists sessions. simpl. split; [done|]. intros Hin.
      apply list_elem_of_fmap in Hin as (x & -> & Hx).
      pose proof (length_filter_lt (λ y, id y ≠ id x) sessions x Hx) as Hlt.
      rewrite Hlen in Hlt. apply (Nat.lt_irrefl (length sessions)).
      apply Hlt. by intros Hne.
    + exists (filter (λ x, id x ≠ sessionId) sessions). split; [|done].
      unfold eval, getSessions, store, modify, mbind, St_bind, gets. simpl.
      rewrite lookup_insert_eq. by rewrite of_json_to_json.
Qed.

Lemma removeSession_spec_witness :
  ("1" ∉ ids [session "1"; session "2"] →
     removeSession "1" two_sessions = (Returns (), two_sessions)) ∧
  ("1" ∈ ids [session "1"; session "2"] →
     eval (removeSession "1") two_sessions = Returns () ∧
     storeCalls (exec (removeSession "1") two_sessions) =
       storeCalls two_sessions ++
       [(SESSIONS_KEY,
         to_json (filter (λ x, id x ≠ "1") [session "1"; session "2"]))]) ∧
  (∃ l, eval getSessions (exec (removeSession "1") two_sessions) = Returns l ∧
        "1" ∉ ids l).
Proof.
  apply (removeSession_spec two_sessions "1" [session "1"; session "2"]).
  reflexivity.
Defined.

End ProviderFacts.

Module ProxiedFacts.
Import Proxied.

Lemma waitForCode_deadline now nonce tok s :
  CodeManager.waiters s !! nonce = None →
  CodeManager.waiters (exec (CodeManager.waitForCode now nonce tok) s) !! nonce
  = Some {| CodeManager.promise := CodeManager.allocated s;
            CodeManager.deadline := (now + 60000)%N;
            CodeManager.cancel := tok |}.
Proof.
  intros H. unfold exec, CodeManager.waitForCode. rewrite H. simpl.
  by rewrite lookup_insert_eq.
Qed.

Lemma handleUri_well_formed uri nonce code s :
  Url.get "nonce" (Url.URLSearchParams (query uri)) = Some nonce →
  Url.get "code" (Url.URLSearchParams (query uri)) = Some code →
  nonce ≠ "" → code ≠ "" →
  handleUri uri s =
  (Returns (eval (CodeManager.resolveCode nonce code) s),
   exec (CodeManager.resolveCode nonce code) s).
Proof.
  intros Hn Hc Hn' Hc'. unfold handleUri, eval, exec. rewrite Hn, Hc.
  destruct nonce; [done|]. destruct code; [done|]. simpl.
  unfold mbind, St_bind.
  by destruct (CodeManager.resolveCode _ _ s).
Qed.

(** C9. An invocation of the URI handler whose query has no (or an
    empty) [nonce], or no (or an empty) [code], returns normally and leaves
    every pending code-wait as it was.  A wait that was pending is
    therefore still fulfilled by a later well-formed invocation with its
    nonce, is still rejected with the timeout error once its timer fires
    at or after its deadline, and is not rejected before that. *)
Theorem malformed_invocation_is_ignored
    (s : CodeManager.state) (uri : Uri) :
  Url.truthy (Url.get "nonce" (Url.URLSearchParams (query uri))) = false ∨
  Url.truthy (Url.get "code" (Url.URLSearchParams (query uri))) = false →
  let s' := exec (handleUri uri) s in
  handleUri uri s = (Returns None, s) ∧
  ∀ nonce w,
    CodeManager.waiters s !! nonce = Some w →
    (∀ good code,
       Url.get "nonce" (Url.URLSearchParams (query good)) = Some nonce →
       Url.get "code" (Url.URLSearchParams (query good)) = Some code →
       nonce ≠ "" → code ≠ "" →
       eval (handleUri good) s' = Returns (Some (CodeManager.promise w)) ∧
       CodeManager.promises (exec (handleUri good) s')
         !! CodeManager.promise w = Some (Fulfilled code)) ∧
    (∀ now,
       (CodeManager.deadline w ≤ now)%N →
       CodeManager.promises (exec (CodeManager.timeout now nonce) s')
         !! CodeManager.promise w = Some (Rejected CodeTimeout)) ∧
    (∀ now,
       (now < CodeManager.deadline w)%N →
       CodeManager.timeout now nonce s' = (None, s')).
Proof.
  intros Hbad s'.
  assert (Hrun : handleUri uri s = (Returns None, s)).
  { unfold handleUri. by destruct Hbad as [-> | ->]; rewrite ?orb_true_r. }
  assert (Hs' : exec (handleUri uri) s = s) by (unfold exec; by rewrite Hrun).
  subst s'. rewrite !Hs'.
  split; [done|]. intros nonce w Hw. repeat split.
  - unfold eval.
    rewrite (handleUri_well_formed good nonce code) by done.
    unfold eval, CodeManager.resolveCode, CodeManager.finish.
    by rewrite Hw.
  - unfold exec.
    rewrite (handleUri_well_formed good nonce code) by done.
    unfold exec, CodeManager.resolveCode, CodeManager.finish.
    rewrite Hw. simpl. by rewrite lookup_insert_eq.
  - intros now Hdue. unfold exec, CodeManager.timeout, CodeManager.finish.
    rewrite Hw. rewrite (proj2 (N.leb_le _ _) Hdue). simpl.
    by rewrite lookup_insert_eq.
  - intros now Hearly. unfold CodeManager.timeout. rewrite Hw.
    by rewrite (proj2 (N.leb_gt _ _) Hearly).
Qed.

Lemma malformed_invocation_is_ignored_witness :
  let s' := exec (handleUri (callback "nonce=nonce&windowId=1&code="))
              waiting_for_nonce in
  handleUri (callback "nonce=nonce&windowId=1&code=") waiting_for_nonce
    = (Returns None, waiting_for_nonce) ∧
  ∀ nonce w,
    CodeManager.waiters waiting_for_nonce !! nonce = Some w →
    (∀ good code,
       Url.get "nonce" (Url.URLSearchParams (query good)) = Some nonce →
       Url.get "code" (Url.URLSearchParams (query good)) = Some code →
       nonce ≠ "" → code ≠ "" →
       eval (handleUri good) s' = Returns (Some (CodeManager.promise w)) ∧
       CodeManager.promises (exec (handleUri good) s')
         !! CodeManager.promise w = Some (Fulfilled code)) ∧
    (∀ now,
       (CodeManager.deadline w ≤ now)%N →
       CodeManager.promises (exec (CodeManager.timeout now nonce) s')
         !! CodeManager.promise w = Some (Rejected CodeTimeout)) ∧
    (∀ now,
       (now < CodeManager.deadline w)%N →
       CodeManager.timeout now nonce s' = (None, s')).
Proof.
  apply (malformed_invocation_is_ignored waiting_for_nonce
           (callback "nonce=nonce&windowId=1&code=")).
  right. reflexivity.
Defined.

Example well_formed_invocation_resolves :
  CodeManager.promises
    (exec (handleUri (callback "nonce=nonce&windowId=1&code=42"))
       waiting_for_nonce) !! 0 = Some (Fulfilled "42").
Proof. reflexivity. Qed.

End ProxiedFacts.

Module LoopbackFacts.
Import Loopback.

Lemma exec_for_each_cons {A} (f : A → St world unit) x l w :
  exec (for_each f (x :: l)) w = exec (for_each f l) (exec (f x) w).
Proof.
  unfold exec. simpl. unfold mbind, St_bind. by destruct (f x w).
Qed.

Lemma set_codeManager_same w : set_codeManager (codeManager w) w = w.
Proof. by destruct w. Qed.

Lemma set_jobs_nil w : jobs w = [] → set_jobs [] w = w.
Proof. destruct w. simpl. by intros ->. Qed.

Lemma drain_idle w : jobs w = [] → drain w = ((), w).
Proof.
  intros H. unfold drain, mbind, St_bind, gets, modify. rewrite H. simpl.
  by rewrite set_jobs_nil.
Qed.

Lemma dispose_isDisposed sv :
  LoopbackServer.isDisposed (exec LoopbackServer.dispose sv) = true.
Proof. destruct sv as [l [] [[] lc cc] hs]; reflexivity. Qed.

Lemma dispose_idempotent sv :
  exec LoopbackServer.dispose (exec LoopbackServer.dispose sv)
  = exec LoopbackServer.dispose sv.
Proof. destruct sv as [l [] [[] lc cc] hs]; reflexivity. Qed.


Lemma trigger_catch_eq t a err sv w :
  servers w !! t = Some sv →
  trigger_catch t a err w = ((), caught t a err sv w).
Proof.
  intros H. unfold trigger_catch, on_server, mbind, St_bind. rewrite H.
  unfold caught, exec.
  destruct (LoopbackServer.dispose sv) as [[] sv']. reflexivity.
Qed.

(** *** Cancellation listeners *)

Lemma fire_reject n p w :
  exec (fire (RejectWaiter n p)) w =
  match CodeManager.waiters (codeManager w) !! n with
  | Some wt =>
      if bool_decide (CodeManager.promise wt = p)
      then set_jobs (jobs w ++ [p])
             (set_codeManager
                (rejected_waiter n p CodeCancelled (codeManager w)) w)
      else w
  | None => w
  end.
Proof.
  unfold exec, fire, mbind, St_bind, on_codeManager, CodeManager.cancelled,
    CodeManager.finish.
  destruct (CodeManager.waiters (codeManager w) !! n) as [wt|]; simpl.
  - case_bool_decide as Hp; simpl; [by subst p|].
    by rewrite set_codeManager_same.
  - by rewrite set_codeManager_same.
Qed.

















Lemma caught_untouched t a err sv w t' :
  t' ≠ t → untouched t' w (caught t a err sv w).
Proof.
  intros Hne. unfold untouched, caught. simpl.
  rewrite !lookup_insert_ne by done.
  rewrite elem_of_difference, elem_of_singleton. tauto.
Qed.

(** *** Reaction jobs *)

Lemma exec_trigger_catch t a err w :
  exec (trigger_catch t a err) w =
  match servers w !! t with
  | Some sv => caught t a err sv w
  | None =>
      set_triggers (<[t := ended a (Throws err)]> (triggers w))
        (set_activeServers (activeServers w ∖ {[t]}) w)
  end.
Proof.
  destruct (servers w !! t) as [sv|] eqn:Hs.
  - unfold exec. by rewrite (trigger_catch_eq _ _ _ sv).
  - unfold exec, trigger_catch, on_server, mbind, St_bind. by rewrite Hs.
Qed.

Lemma trigger_catch_frame t a err w :
  codeManager (exec (trigger_catch t a err) w) = codeManager w ∧
  awaiting (exec (trigger_catch t a err) w) = awaiting w ∧
  ∀ t', t' ≠ t → untouched t' w (exec (trigger_catch t a err) w).
Proof.
  rewrite exec_trigger_catch. destruct (servers w !! t) as [sv|].
  - split; [done|]. split; [done|]. intros t' Hne.
    by apply caught_untouched.
  - split; [done|]. split; [done|]. intros t' Hne.
    unfold untouched. simpl. rewrite lookup_insert_ne by done.
    rewrite elem_of_difference, elem_of_singleton. tauto.
Qed.

Lemma exec_await_code t a address w :
  exec (await_code t a address) w =
  match code_state (codePromise a) w with
  | Some (Fulfilled c) =>
      set_triggers
        (<[t := ended a (Returns {| code := c; redirectUri := address |})]>
           (triggers w)) w
  | Some (Rejected err) => exec (trigger_catch t a err) w
  | _ => waiting_for_code t a address w
  end.
Proof.
  unfold exec, await_code, mbind, St_bind, gets.
  by destruct (code_state (codePromise a) w) as [[| |]|].
Qed.

Lemma await_code_frame t a address w :
  let w' := exec (await_code t a address) w in
  codeManager w' = codeManager w ∧
  (∀ q, q ≠ codePromise a → awaiting w' !! q = awaiting w !! q) ∧
  (∀ t', awaiting w' !! codePromise a = Some t' →
         t' = t ∨ awaiting w !! codePromise a = Some t') ∧
  ∀ t', t' ≠ t → untouched t' w w'.
Proof.
  intros w'. subst w'. rewrite exec_await_code.
  destruct (code_state (codePromise a) w) as [[|c|err]|].
  - unfold waiting_for_code, untouched. simpl. repeat split; try done.
    + intros q Hq. by rewrite lookup_insert_ne.
    + intros t'. rewrite lookup_insert_eq. intros [= <-]. by left.
    + by rewrite lookup_insert_ne.
  - unfold untouched. simpl. repeat split; try done.
    + intros t' H. by right.
    + by rewrite lookup_insert_ne.
  - destruct (trigger_catch_frame t a err w) as (-> & -> & Hu).
    repeat split; try done; try apply Hu; try done.
    intros t' H. by right.
  - unfold waiting_for_code, untouched. simpl. repeat split; try done.
    + intros q Hq. by rewrite lookup_insert_ne.
    + intros t'. rewrite lookup_insert_eq. intros [= <-]. by left.
    + by rewrite lookup_insert_ne.
Qed.

Lemma exec_run_job q w :
  exec (run_job q) w =
  match awaiting w !! q with
  | Some t =>
      match triggers w !! t with
      | Some a =>
          match at_ a with
          | AwaitCode address =>
              if decide (codePromise a = q)
              then exec (await_code t a address)
                     (set_awaiting (delete q (awaiting w)) w)
              else w
          | _ => w
          end
      | None => w
      end
  | None => w
  end.
Proof.
  unfold exec, run_job, mbind, St_bind, gets, modify.
  destruct (awaiting w !! q) as [t|]; [|done].
  destruct (triggers w !! t) as [a|]; [|done].
  destruct (at_ a); try done.
  by case_decide.
Qed.

Lemma run_job_cases q w :
  exec (run_job q) w = w ∨
  ∃ t a address,
    awaiting w !! q = Some t ∧ triggers w !! t = Some a ∧
    at_ a = AwaitCode address ∧ codePromise a = q ∧
    exec (run_job q) w =
      exec (await_code t a address) (set_awaiting (delete q (awaiting w)) w).
Proof.
  rewrite exec_run_job.
  destruct (awaiting w !! q) as [t|] eqn:Haw; [|by left].
  destruct (triggers w !! t) as [a|] eqn:Ht; [|by left].
  destruct (at_ a) as [|?|address|?] eqn:Ha; try by left.
  case_decide as Hq; [|by left].
  right. by exists t, a, address.
Qed.

Lemma run_job_frame q w :
  let w' := exec (run_job q) w in
  codeManager w' = codeManager w ∧
  (∀ q', q' ≠ q → awaiting w' !! q' = awaiting w !! q') ∧
  (∀ t', awaiting w' !! q = Some t' → awaiting w !! q = Some t') ∧
  (∀ t', awaiting w !! q ≠ Some t' → untouched t' w w').
Proof.
  intros w'. subst w'.
  destruct (run_job_cases q w) as [->|(t & a & address & Haw & Ht & Ha & Hq & ->)].
  { repeat split; try done. }
  subst q.
  destruct (await_code_frame t a address
              (set_awaiting (delete (codePromise a) (awaiting w)) w))
    as (Hc & Hother & Hpark & Hu).
  simpl in *. split; [done|]. split; [|split].
  - intros q' Hq'. rewrite Hother by done. by rewrite lookup_delete_ne.
  - intros t' Ht'. destruct (Hpark _ Ht') as [->|Hd]; [done|].
    by rewrite lookup_delete_eq in Hd.
  - intros t' Ht'. apply Hu. congruence.
Qed.











Section config.

Variable ColabApiDomain : string.
Variable DEFAULT_AUTH_URL_OPTS : list (string * string).
Variable serveRoot : string.
Variable lib : Url.Library.

#[local] Abbreviation step :=
  (step ColabApiDomain DEFAULT_AUTH_URL_OPTS serveRoot lib).
#[local] Abbreviation run :=
  (run ColabApiDomain DEFAULT_AUTH_URL_OPTS serveRoot lib).
#[local] Abbreviation handle :=
  (handle ColabApiDomain DEFAULT_AUTH_URL_OPTS serveRoot lib).

Lemma step_idle e o w w' :
  handle e w = (o, w') → jobs w' = [] → step e w = (o, w').
Proof.
  intros H Hj. unfold Loopback.step, mbind, St_bind. rewrite H.
  by rewrite drain_idle.
Qed.

(** C5 (amended). A GET request with a target and a [Host] header that
    [new URL] parses to the path [/], and that lacks the state, the nonce
    in the state, or the code, makes [handleRequest] throw an [Error] out
    of the request listener.  Nothing but the arrival of the request is
    recorded: the code manager is as before, so the pending code-wait stays
    pending, no activation of [trigger] is resumed, and the response is not
    written. *)
Theorem malformed_callback_throws
    (w : world) (sv : nat) (req : IncomingMessage) (target h : string)
    (u : Url.URL) :
  jobs w = [] →
  is_Some (servers w !! sv) →
  method req = "GET" →
  url req = Some target →
  host req = Some h →
  Url.truthy (url req) = true →
  Url.truthy (host req) = true →
  Url.new_URL lib target ("http://" +:+ h) = Returns u →
  Url.pathname u = "/" →
  malformed lib u = true →
  let r := requests w in
  let w' := exec (step (Request sv req)) w in
  eval (step (Request sv req)) w = Uncaught r (Error (malformed_message u)) ∧
  w' = set_requests (S r)
         (set_responses (<[r := new_response]> (responses w)) w) ∧
  codeManager w' = codeManager w ∧
  triggers w' = triggers w ∧
  awaiting w' = awaiting w ∧
  servers w' = servers w ∧
  activeServers w' = activeServers w ∧
  responses w' !! r = Some new_response.
Proof.
  intros Hj [s Hs] Hm Hu Hh Hut Hht Hparse Hp Hbad r w'.
  assert (Hstep : step (Request sv req) w =
            (Uncaught r (Error (malformed_message u)),
             set_requests (S r)
               (set_responses (<[r := new_response]> (responses w)) w))).
  { apply step_idle; [|done].
    unfold Loopback.handle, mbind, St_bind, gets, modify. rewrite Hs.
    unfold handleRequest. rewrite Hut, Hht, Hm, Hu, Hh.
    cbn [negb default from_option id]. rewrite Hparse. simpl. rewrite Hp.
    simpl.
    unfold malformed in Hbad. unfold malformed_message.
    destruct (Url.truthy (Url.get "state" (Url.searchParams u))); simpl;
      [|done].
    simpl in Hbad. rewrite Hbad. done. }
  subst w'. unfold eval, exec. rewrite Hstep. simpl.
  repeat split; try done. by rewrite lookup_insert_eq.
Qed.













Lemma for_each_run_job_codeManager js w :
  codeManager (exec (for_each run_job js) w) = codeManager w.
Proof.
  revert w. induction js as [|q js IH]; intros w; [done|].
  rewrite exec_for_each_cons, IH. apply run_job_frame.
Qed.

Lemma drain_codeManager w : codeManager (exec drain w) = codeManager w.
Proof.
  unfold exec, drain, mbind, St_bind, gets, modify. simpl.
  apply (for_each_run_job_codeManager (jobs w) (set_jobs [] w)).
Qed.








#[local] Abbreviation origin_step :=
  (Loopback.step ColabApiDomain DEFAULT_AUTH_URL_OPTS serveRoot
     Url.origin_form).
#[local] Abbreviation origin_run :=
  (Loopback.run ColabApiDomain DEFAULT_AUTH_URL_OPTS serveRoot
     Url.origin_form).

(** C6. From the initial flow: [trigger] with nonce ["nonce"] and scopes
    [["foo"]]; the server reports the port; the browser is opened with a
    [redirect_uri] of [http://127.0.0.1:<port>] and the state
    [nonce=nonce]; the GET for [/?state=nonce%3Dnonce&code=42] arrives,
    after or before [openExternal] has settled; [trigger] resolves with the
    code ["42"] and that same redirect URI; when the host has resolved the
    success URI, the response of that request is a 302 whose [Location] is
    the API domain, [/vscode/auth-success?state=] and the encoded success
    URI, and it is ended once.  The URL parser answers for this request
    what [Url.origin_form] computes: the path [/], the state [nonce=nonce]
    and the code [42]. *)
Theorem loopback_flow_resolves
    (port : N) (addr family pkce uri : string) (tok : token) (opened_ok : bool) :
  let o := {| nonce := "nonce"; scopes := ["foo"]; pkceChallenge := pkce;
              cancel := tok |} in
  let address := "http://127.0.0.1:" +:+ pretty port in
  let req := {| method := "GET"; url := Some "/?state=nonce%3Dnonce&code=42";
                host := Some ("127.0.0.1:" +:+ pretty port) |} in
  let bound := Listening 0 (LoopbackServer.AddressInfo addr family port) in
  let resolved :=
    Some {| options := o; codePromise := 0;
            at_ := Done (Returns {| code := "42"; redirectUri := address |}) |} in
  let presented :=
    [{| defaults := DEFAULT_AUTH_URL_OPTS; redirect_uri := address;
        state := "nonce=nonce"; scope := ["foo"]; code_challenge := pkce |}] in
  let redirected :=
    Some {| headersSent := true; statusCode := Some 302;
            headers := [("Location",
                         ColabApiDomain +:+ "/vscode/auth-success?state=" +:+
                         Url.encodeURIComponent uri)];
            body := None; endCalls := 1 |} in
  let w1 := exec (origin_run [Trigger o; bound;
                       OpenExternalSettles 0 (Returns opened_ok);
                       Request 0 req]) init in
  let w2 := exec (origin_run [Trigger o; bound; Request 0 req;
                       OpenExternalSettles 0 (Returns opened_ok)]) init in
  triggers w1 !! 0 = resolved ∧ opened w1 = presented ∧
  triggers w2 !! 0 = resolved ∧ opened w2 = presented ∧
  responses (exec (origin_step (AsExternalUriSettles 0 (Returns uri))) w1) !! 0
    = redirected ∧
  responses (exec (origin_step (AsExternalUriSettles 0 (Returns uri))) w2) !! 0
    = redirected.
Proof.
  intros. subst o address req bound resolved presented redirected w1 w2.
  repeat split; vm_compute; reflexivity.
Qed.

End config.

(** *** Instances in the scenario of the unit tests *)



(** When [openExternal] reports with [false] that the browser was not
    opened, [trigger] is not rejected by that; it waits for the code, and
    resolves when a callback brings it. *)
Example open_result_is_not_looked_at :
  triggers (waiting false) !! 0 = Some test_activation ∧
  ¬ (∃ err, at_ <$> triggers (waiting false) !! 0 = Some (Done (Throws err))) ∧
  triggers
    (exec (test_step (Request 0 (get_request "/?state=nonce%3Dnonce&code=42")))
       (waiting false)) !! 0 =
  Some {| options := test_options; codePromise := 0;
          at_ := Done (Returns {| code := "42";
                                  redirectUri := "http://127.0.0.1:1234" |}) |}.
Proof.
  split; [vm_compute; reflexivity|]. split; [|vm_compute; reflexivity].
  intros [err Herr]. vm_compute in Herr. discriminate.
Qed.

(** The unit test of the timeout: a POST is answered with 405, and when
    60 001 ms have passed and the timer fires, [trigger] rejects with the
    timeout error and the server is closed, once. *)
Example timeout_after_method_not_allowed :
  let post := {| method := "POST"; url := Some "/";
                 host := Some "127.0.0.1:1234" |} in
  let w := exec (test_run [Request 0 post; Tick 60001; TimerFires "nonce"])
             (waiting true) in
  responses w !! 0 =
    Some {| headersSent := true; statusCode := Some 405;
            headers := [("Allow", "GET")];
            body := Some "Method Not Allowed"; endCalls := 1 |} ∧
  triggers w !! 0 = Some (ended test_activation (Throws CodeTimeout)) ∧
  servers w !! 0 = Some (exec LoopbackServer.dispose test_server) ∧
  LoopbackServer.closeCalls
    (LoopbackServer.server (exec LoopbackServer.dispose test_server)) = 1 ∧
  activeServers w = ∅.
Proof. repeat split; vm_compute; reflexivity. Qed.

(** Before the 60 seconds are over the timer does not fire. *)
Example no_timeout_before_the_deadline :
  test_step (TimerFires "nonce") (exec (test_step (Tick 59999)) (waiting true))
  = (Ignored, exec (test_step (Tick 59999)) (waiting true)).
Proof. vm_compute. reflexivity. Qed.

Lemma malformed_callback_throws_witness :
  eval (test_step (Request 0 (get_request "/?state=nonce%3Dnonce"))) (waiting true)
    = Uncaught 0 (Error "Missing nonce or code in redirect URI") ∧
  codeManager (exec (test_step (Request 0 (get_request "/?state=nonce%3Dnonce")))
                 (waiting true)) = codeManager (waiting true).
Proof.
  destruct (malformed_callback_throws
              test_domain test_defaults test_root Url.origin_form
              (waiting true) 0 (get_request "/?state=nonce%3Dnonce")
              "/?state=nonce%3Dnonce" "127.0.0.1:1234"
              {| Url.pathname := "/";
                 Url.searchParams := [("state", "nonce=nonce")] |})
    as (Hthrown & _ & Hcm & _);
    [reflexivity|by eexists|reflexivity..|].
  split; [exact Hthrown|exact Hcm].
Defined.

(** C5 as stated fails: after a callback without state the error has
    left the request listener, but the code-wait of the flow is still
    pending and the activation of [trigger] is still parked on it; it
    has not been rejected. *)
Lemma malformed_callback_does_not_fail_the_wait :
  let w' := exec (test_step (Request 0 (get_request "/"))) (waiting true) in
  eval (test_step (Request 0 (get_request "/"))) (waiting true)
    = Uncaught 0 (Error "Missing state in redirect URL") ∧
  code_state 0 w' = Some Pending ∧
  is_Some (CodeManager.waiters (codeManager w') !! "nonce") ∧
  triggers w' !! 0 = Some test_activation ∧
  ¬ (∃ err, at_ <$> triggers w' !! 0 = Some (Done (Throws err))).
Proof.
  repeat split; try (vm_compute; reflexivity).
  - by eexists.
  - intros [err Herr]. vm_compute in Herr. discriminate.
Qed.

End LoopbackFacts.

Module ToggleTraceFacts.
Import Toggle ToggleTrace.

Lemma toggle_exec_run_cons e es s :
  exec (run (e :: es)) s = exec (run es) (exec (step e) s).
Proof.
  unfold exec. simpl. unfold mbind, St_bind.
  destruct (step e s) as [o s1]. simpl. by destruct (run es s1).
Qed.

Lemma toggle_eval_run_cons e es s :
  eval (run (e :: es)) s = eval (step e) s :: eval (run es) (exec (step e) s).
Proof.
  unfold eval, exec. simpl. unfold mbind, St_bind.
  destruct (step e s) as [o s1]. simpl. by destruct (run es s1).
Qed.

Lemma active_iff c s d :
  hasActiveControl c s = true ∧ (∃ f, inFlight s = Some f ∧ in_to f = d) ↔
  inFlight s = Some {| in_ctrl := c; in_to := d |}.
Proof.
  unfold hasActiveControl. split.
  - intros [H (f & Hf & Hd)]. rewrite Hf in H. destruct f as [c' d'].
    simpl in *. apply bool_decide_eq_true_1 in H. by subst.
  - intros H. rewrite H. simpl. split; [by apply bool_decide_eq_true_2|].
    by eexists.
Qed.

Lemma not_active c c' d s :
  inFlight s = Some {| in_ctrl := c; in_to := d |} → c' ≠ c →
  hasActiveControl c' s = false.
Proof.
  intros H Hne. unfold hasActiveControl. rewrite H. simpl.
  by apply bool_decide_eq_false_2.
Qed.

(** In a reachable state a parked transition is live (its signal is not
    aborted) exactly if it holds the in-flight record. *)
Lemma live_iff_active s c d :
  reachable s → parked s !! c = Some d →
  signal_aborted c s = false ↔
  inFlight s = Some {| in_ctrl := c; in_to := d |}.
Proof.
  intros Hr Hp. destruct (ToggleFacts.reachable_inv _ Hr) as [Ha _ Hs _].
  split.
  - intros Hna. destruct (hasActiveControl c s) eqn:Hact.
    + unfold hasActiveControl in Hact.
      destruct (inFlight s) as [[c' d']|] eqn:Hf; [|done].
      apply bool_decide_eq_true_1 in Hact. simpl in Hact. subst c'.
      destruct (Ha _ eq_refl) as [Hp' _]. simpl in Hp'. congruence.
    + rewrite (Hs _ _ Hp Hact) in Hna. done.
  - intros Hf. by destruct (Ha _ Hf) as [_ ?].
Qed.

(** X1. Only the transition that holds the in-flight record can make
    [toggle] reject: if the promise of [toggle] rejects in a reachable
    state, its transition was the one in flight, the error is the one
    [turnOn]/[turnOff] rejected with, and the record is cleared.  The
    failure of a superseded transition is never surfaced. *)
Theorem only_the_active_transition_rejects
    (s : state) (c : ctrl) (err e' : error) :
  reachable s →
  eval (step (Settle c (Rejected err))) s = Finished (Threw e') →
  e' = err ∧
  (∃ to, inFlight s = Some {| in_ctrl := c; in_to := to |}) ∧
  inFlight (exec (step (Settle c (Rejected err))) s) = None.
Proof.
  intros Hr. destruct (parked s !! c) as [to|] eqn:Hp.
  - unfold eval, exec. rewrite (ToggleFacts.settle_parked c to) by done.
    simpl. destruct (signal_aborted c s) eqn:Hab; [done|].
    intros [= <-]. apply (live_iff_active s c to Hr Hp) in Hab.
    split; [done|]. split; [by exists to|].
    apply active_iff in Hab as [-> _]. done.
  - unfold eval. by rewrite ToggleFacts.settle_not_parked.
Qed.

Lemma only_the_active_transition_rejects_witness :
  Failure "boom" = Failure "boom" ∧
  (∃ to, inFlight on_in_flight = Some {| in_ctrl := 0; in_to := to |}) ∧
  inFlight (exec (step (Settle 0 (Rejected (Failure "boom")))) on_in_flight)
    = None.
Proof.
  apply (only_the_active_transition_rejects
           on_in_flight 0 (Failure "boom") (Failure "boom")).
  - apply reachable_step, reachable_init.
  - reflexivity.
Defined.

(** X2. Superseded transitions that finish late never disturb the active
    one: while the promises of other transitions settle, in any order and
    with any outcome, the in-flight record stays as it is, its transition
    stays parked with an unaborted signal, no [toggle] promise rejects, and
    nothing is aborted or started. *)
Theorem late_settles_keep_the_active_transition
    (s : state) (f : InFlight) (es : list event) :
  reachable s →
  inFlight s = Some f →
  Forall (settles_other (in_ctrl f)) es →
  let s' := exec (run es) s in
  inFlight s' = Some f ∧
  parked s' !! in_ctrl f = Some (in_to f) ∧
  signal_aborted (in_ctrl f) s' = false ∧
  signals s' = signals s ∧
  allocated s' = allocated s ∧
  Forall quiet (eval (run es) s).
Proof.
  intros Hr Hf Hes. simpl. revert s Hr Hf.
  induction Hes as [|e es He _ IH]; intros s Hr Hf.
  - destruct (ToggleFacts.reachable_inv _ Hr) as [Ha _ _ _].
    destruct (Ha _ Hf) as [Hp Hna]. by repeat split.
  - rewrite toggle_exec_run_cons, toggle_eval_run_cons.
    destruct e as [to|c o]; [done|]. simpl in He.
    assert (Hstep :
      inFlight (exec (step (Settle c o)) s) = Some f ∧
      signals (exec (step (Settle c o)) s) = signals s ∧
      allocated (exec (step (Settle c o)) s) = allocated s ∧
      quiet (eval (step (Settle c o)) s)).
    { destruct (parked s !! c) as [d|] eqn:Hp.
      - destruct (ToggleFacts.reachable_inv _ Hr) as [_ _ Hs _].
        assert (Hact : hasActiveControl c s = false).
        { destruct f as [c0 d0]. by apply (not_active c0 c d0). }
        unfold eval, exec. rewrite (ToggleFacts.settle_parked c d) by done.
        simpl. rewrite Hact. repeat split; try done.
        left. destruct o as [|err]; [done|]. simpl.
        by rewrite (Hs _ _ Hp Hact).
      - unfold eval, exec. rewrite ToggleFacts.settle_not_parked by done.
        simpl. repeat split; try done. by right. }
    destruct Hstep as (Hf' & Hsig & Hal & Hq).
    destruct (IH _ (reachable_step _ _ Hr) Hf') as (? & ? & ? & Hsig' & Hal' & ?).
    repeat split; try done.
    + by rewrite Hsig', Hsig.
    + by rewrite Hal', Hal.
    + by constructor.
Qed.

Lemma late_settles_keep_the_active_transition_witness :
  let es := [Settle 0 (Rejected (Failure "late")); Settle 0 Fulfilled] in
  let s' := exec (run es) superseded in
  inFlight s' = Some {| in_ctrl := 1; in_to := off |} ∧
  parked s' !! 1 = Some off ∧
  signal_aborted 1 s' = false ∧
  signals s' = signals superseded ∧
  allocated s' = allocated superseded ∧
  Forall quiet (eval (run es) superseded).
Proof.
  apply (late_settles_keep_the_active_transition
           superseded {| in_ctrl := 1; in_to := off |}
           [Settle 0 (Rejected (Failure "late")); Settle 0 Fulfilled]).
  - apply (reachable_step _ (Call off)), (reachable_step _ (Call on)),
      reachable_init.
  - reflexivity.
  - repeat constructor; simpl; lia.
Defined.

(** X3. At most one pending transition is live.  In a reachable state a
    parked transition has an unaborted signal exactly if it holds the
    in-flight record, so two parked transitions with unaborted signals are
    the same one; and once no transition is parked the toggle is idle. *)
Theorem one_live_transition (s : state) :
  reachable s →
  (∀ c d, parked s !! c = Some d →
     (signal_aborted c s = false ↔
      inFlight s = Some {| in_ctrl := c; in_to := d |})) ∧
  (∀ c1 d1 c2 d2,
     parked s !! c1 = Some d1 → parked s !! c2 = Some d2 →
     signal_aborted c1 s = false → signal_aborted c2 s = false →
     c1 = c2) ∧
  (parked s = ∅ → inFlight s = None).
Proof.
  intros Hr. split; [|split].
  - intros c d Hp. by apply live_iff_active.
  - intros c1 d1 c2 d2 H1 H2 Hn1 Hn2.
    apply (live_iff_active s c1 d1 Hr H1) in Hn1.
    apply (live_iff_active s c2 d2 Hr H2) in Hn2. congruence.
  - intros He. destruct (ToggleFacts.reachable_inv _ Hr) as [Ha _ _ _].
    destruct (inFlight s) as [f|]; [|done].
    destruct (Ha _ eq_refl) as [Hp _]. rewrite He in Hp.
    by rewrite lookup_empty in Hp.
Qed.

Lemma one_live_transition_witness :
  (∀ c d, parked superseded !! c = Some d →
     (signal_aborted c superseded = false ↔
      inFlight superseded = Some {| in_ctrl := c; in_to := d |})) ∧
  (∀ c1 d1 c2 d2,
     parked superseded !! c1 = Some d1 → parked superseded !! c2 = Some d2 →
     signal_aborted c1 superseded = false →
     signal_aborted c2 superseded = false →
     c1 = c2) ∧
  (parked superseded = ∅ → inFlight superseded = None).
Proof.
  apply (one_live_transition superseded).
  apply (reachable_step _ (Call off)), (reachable_step _ (Call on)),
    reachable_init.
Defined.

(** X4. The most recent call wins: after [on()] or [off()] in a reachable
    state, whatever was in flight before, the in-flight record is for the
    requested direction, its transition is parked with an unaborted signal,
    and every other parked transition has an aborted signal. *)
Theorem last_call_wins (s : state) (to : ToggleDirection) :
  reachable s →
  let s' := exec (step (Call to)) s in
  ∃ c,
    inFlight s' = Some {| in_ctrl := c; in_to := to |} ∧
    parked s' !! c = Some to ∧
    signal_aborted c s' = false ∧
    (∀ c' d', parked s' !! c' = Some d' → c' ≠ c →
       signal_aborted c' s' = true).
Proof.
  intros Hr s'.
  assert (Hr' : reachable s') by by apply reachable_step.
  destruct (ToggleFacts.reachable_inv _ Hr') as [Ha _ Hs _].
  assert (Hto : ∃ c, inFlight s' = Some {| in_ctrl := c; in_to := to |}).
  { subst s'. rewrite ToggleFacts.exec_call. unfold exec.
    destruct (inFlight s) as [[c d]|] eqn:Hf.
    - destruct (decide (d = to)) as [->|Hne].
      + rewrite (ToggleFacts.toggle_same c) by done. by exists c.
      + rewrite (ToggleFacts.toggle_opposite c d) by done.
        rewrite ToggleFacts.launch_eq. by eexists.
    - rewrite ToggleFacts.toggle_idle by done.
      rewrite ToggleFacts.launch_eq. by eexists. }
  destruct Hto as [c Hc]. exists c.
  destruct (Ha _ Hc) as [Hp Hna]. repeat split; try done.
  intros c' d' Hp' Hne. apply (Hs _ _ Hp'). by apply (not_active c c' to).
Qed.

Lemma last_call_wins_witness :
  let s' := exec (step (Call on)) superseded in
  ∃ c,
    inFlight s' = Some {| in_ctrl := c; in_to := on |} ∧
    parked s' !! c = Some on ∧
    signal_aborted c s' = false ∧
    (∀ c' d', parked s' !! c' = Some d' → c' ≠ c →
       signal_aborted c' s' = true).
Proof.
  apply (last_call_wins superseded on).
  apply (reachable_step _ (Call off)), (reachable_step _ (Call on)),
    reachable_init.
Defined.

Lemma aborts_of_app c es1 es2 :
  aborts_of c (es1 ++ es2) = aborts_of c es1 + aborts_of c es2.
Proof. unfold aborts_of. by rewrite List.filter_app, length_app. Qed.

Lemma aborts_of_Turn c d c' : aborts_of c [Turn d c'] = 0.
Proof. by destruct d. Qed.

Lemma aborts_of_Abort c c' r :
  aborts_of c [Abort c' r] = if decide (c' = c) then 1 else 0.
Proof.
  unfold aborts_of. simpl. destruct (decide (c' = c));
    by rewrite ?bool_decide_eq_true_2, ?bool_decide_eq_false_2 by done.
Qed.

Lemma aborts_of_resume_log c c' to o s :
  aborts_of c [resume_log c' to o s] = 0.
Proof.
  unfold resume_log.
  destruct o; [destruct (hasActiveControl c' s)|destruct (signal_aborted c' s)];
    done.
Qed.

Lemma abort_inv_init : abort_inv init.
Proof.
  split; simpl.
  - intros c sig. by rewrite lookup_empty.
  - done.
  - intros c r H. by apply elem_of_nil in H.
Qed.

(** [launch] keeps the invariants of the aborts. *)
Lemma abort_inv_launch to s : abort_inv s → abort_inv (exec (launch to) s).
Proof.
  intros [Hd Hc Hr]. unfold exec. rewrite ToggleFacts.launch_eq.
  assert (Hfresh : signal_aborted (allocated s) s = false).
  { unfold signal_aborted.
    destruct (signals s !! _) as [sig|] eqn:E; [|done].
    apply Hd in E. lia. }
  split; simpl.
  - intros c sig. rewrite lookup_insert. case_decide as Hcase; [lia|].
    intros Hsig. apply Hd in Hsig. lia.
  - intros c. rewrite aborts_of_app, aborts_of_Turn, Nat.add_0_r, Hc.
    destruct (decide (allocated s = c)) as [<-|Hne].
    + rewrite Hfresh. unfold signal_aborted. simpl.
      by rewrite lookup_insert_eq.
    + unfold signal_aborted. simpl. by rewrite lookup_insert_ne.
  - intros c r Hin. apply elem_of_app in Hin as [Hin|Hin].
    + destruct (Hr _ _ Hin) as (d & to' & -> & Hne & Ht & Hs).
      exists d, to'. repeat split; try done.
      * apply elem_of_app. by left.
      * rewrite lookup_insert_ne; [done|]. intros <-.
        unfold signal_aborted in Hfresh. by rewrite Hs in Hfresh.
    + apply list_elem_of_singleton in Hin. by destruct to.
Qed.

Lemma abort_inv_step e s : inv s → abort_inv s → abort_inv (exec (step e) s).
Proof.
  intros [Ha Hp _ _] Hab. destruct e as [to|c o].
  - rewrite ToggleFacts.exec_call. destruct (inFlight s) as [[c d]|] eqn:Hf.
    + destruct (decide (d = to)) as [->|Hne].
      * unfold exec. by rewrite (ToggleFacts.toggle_same c).
      * unfold exec. rewrite (ToggleFacts.toggle_opposite c d) by done.
        destruct (Ha _ eq_refl) as [Hpk Hna]. simpl in Hpk, Hna.
        destruct (Hp _ _ Hpk) as [Hlt Hturn].
        apply abort_inv_launch. rewrite ToggleFacts.abort_eq by done.
        destruct Hab as [Hd Hc Hr]. split; simpl.
        -- intros c' sig. rewrite lookup_insert. case_decide; [by subst|].
           apply Hd.
        -- intros c'. rewrite aborts_of_app, aborts_of_Abort, Hc.
           unfold signal_aborted in *. simpl. rewrite lookup_insert.
           case_decide as Hcase; [|by rewrite Nat.add_0_r].
           subst c'. by rewrite Hna.
        -- intros c' r Hin. apply elem_of_app in Hin as [Hin|Hin].
           ++ destruct (Hr _ _ Hin) as (d' & to' & -> & Hne' & Ht & Hs).
              exists d', to'. repeat split; try done.
              ** apply elem_of_app. by left.
              ** rewrite lookup_insert_ne; [done|]. intros <-.
                 unfold signal_aborted in Hna. by rewrite Hs in Hna.
           ++ apply list_elem_of_singleton in Hin. injection Hin as -> ->.
              exists d, to. repeat split; try done.
              ** apply elem_of_app. by left.
              ** by rewrite lookup_insert_eq.
    + unfold exec. rewrite ToggleFacts.toggle_idle by done.
      by apply abort_inv_launch.
  - destruct (parked s !! c) as [to|] eqn:Hpc.
    + unfold exec. rewrite (ToggleFacts.settle_parked c to) by done.
      destruct Hab as [Hd Hc Hr]. split; simpl.
      * done.
      * intros c'. by rewrite aborts_of_app, aborts_of_resume_log, Nat.add_0_r.
      * intros c' r Hin. apply elem_of_app in Hin as [Hin|Hin].
        -- destruct (Hr _ _ Hin) as (d' & to' & -> & Hne' & Ht & Hs).
           exists d', to'. repeat split; try done. apply elem_of_app. by left.
        -- apply list_elem_of_singleton in Hin. unfold resume_log in Hin.
           destruct o; [destruct (hasActiveControl c s)
                       |destruct (signal_aborted c s)]; done.
    + unfold exec. by rewrite ToggleFacts.settle_not_parked.
Qed.

Lemma reachable_abort_inv s : reachable s → abort_inv s.
Proof.
  induction 1 as [|s e Hr IH]; [apply abort_inv_init|].
  apply abort_inv_step; [by apply ToggleFacts.reachable_inv|done].
Qed.

(** X5. Every controller is aborted at most once, and exactly if its
    signal reads aborted; each abort carries a [ToggleAbortedError] for a
    real change of direction, away from the direction the controller was
    started with, and that error is the reason kept by the signal. *)
Theorem aborts_are_accounted_for (s : state) (c : ctrl) :
  reachable s →
  (aborts_of c (effects s) ≤ 1)%nat ∧
  (aborts_of c (effects s) = 1 ↔ signal_aborted c s = true) ∧
  (∀ r, Abort c r ∈ effects s →
     ∃ d to, r = ToggleAbortedError d to ∧ d ≠ to ∧
             Turn d c ∈ effects s ∧
             signals s !! c = Some {| aborted := true; reason := Some r |}).
Proof.
  intros Hr. destruct (reachable_abort_inv _ Hr) as [_ Hc Hre].
  rewrite Hc. destruct (signal_aborted c s); repeat split; try done; try lia.
  all: apply Hre.
Qed.

Lemma aborts_are_accounted_for_witness :
  (aborts_of 0 (effects superseded) ≤ 1)%nat ∧
  (aborts_of 0 (effects superseded) = 1 ↔
   signal_aborted 0 superseded = true) ∧
  (∀ r, Abort 0 r ∈ effects superseded →
     ∃ d to, r = ToggleAbortedError d to ∧ d ≠ to ∧
             Turn d 0 ∈ effects superseded ∧
             signals superseded !! 0 =
               Some {| aborted := true; reason := Some r |}).
Proof.
  apply (aborts_are_accounted_for superseded 0).
  apply (reachable_step _ (Call off)), (reachable_step _ (Call on)),
    reachable_init.
Defined.

End ToggleTraceFacts.

Module LoopbackServerLifeFacts.
Import LoopbackServer LoopbackServerLife.

Lemma exec_apply_all_cons o os s :
  exec (apply_all (o :: os)) s = exec (apply_all os) (exec (apply o) s).
Proof.
  unfold exec. simpl. unfold mbind, St_bind. by destruct (apply o s).
Qed.

Lemma apply_disposed o s :
  isDisposed s = true →
  exec (apply o) s =
  match o with
  | Start =>
      {| listen := listen s; isDisposed := true; server := server s;
         handles := handles s ++ [Failed ALREADY_DISPOSED] |}
  | Dispose => s
  | ListenCallback a => exec (listening_callback a) s
  end.
Proof.
  destruct s as [l d h hs]. simpl. intros ->. destruct o; try done.
  unfold exec. simpl. unfold mbind, St_bind.
  by destruct (listening_callback a _).
Qed.

Lemma listening_callback_cases a s :
  (listen s = Some Pending ∧
   exec (listening_callback a) s =
   {| listen := Some (match a with
                      | AddressInfo _ _ port => Fulfilled port
                      | _ => Rejected FAILED_TO_GET_PORT
                      end);
      isDisposed := isDisposed s;
      server := {| listening := true; listenCalls := listenCalls (server s);
                   closeCalls := closeCalls (server s) |};
      handles := handles s |}) ∨
  (listen s ≠ Some Pending ∧ exec (listening_callback a) s = s).
Proof.
  destruct s as [[[]|] d h hs]; simpl; try by right.
  left. split; [done|]. by destruct a.
Qed.

Lemma exec_apply_callback a s :
  exec (apply (ListenCallback a)) s = exec (listening_callback a) s.
Proof.
  unfold exec. simpl. unfold mbind, St_bind.
  by destruct (listening_callback a s).
Qed.

Lemma life_inv_create : life_inv create.
Proof. split; simpl; try done. lia. Qed.

Lemma life_inv_apply o s : life_inv s → life_inv (exec (apply o) s).
Proof.
  intros [Hl Hc Hcd Hli]. destruct o as [| |a].
  - destruct s as [l [] [li lc cc] hs]; simpl in *.
    + by split.
    + destruct l as [st|]; simpl in *.
      * by split.
      * subst lc. by split.
  - destruct s as [l [] [[] lc cc] hs]; simpl in *.
    + by split.
    + by split.
    + split; simpl; try done.
      * assert (cc ≠ 1) by (intros ->; by destruct Hcd). lia.
      * intros _. split; [done|]. split; [done|]. by apply Hli.
    + split; simpl; try done.
      intros Hcc. by destruct (Hcd Hcc) as (_ & _ & ?).
  - rewrite exec_apply_callback.
    destruct (listening_callback_cases a s) as [[Hp ->]|[_ ->]]; [|by split].
    rewrite Hp in *. split; simpl.
    + done.
    + done.
    + intros Hcc. by destruct (Hcd Hcc) as (_ & _ & []).
    + intros _. by destruct a.
Qed.

Lemma reachable_life_inv s : reachable s → life_inv s.
Proof. induction 1; [apply life_inv_create | by apply life_inv_apply]. Qed.

(** X6. Whatever sequence of [start()], [dispose()] and listen callbacks
    a loopback server goes through, its [http.Server] is asked to listen at
    most once, on port 0 of 127.0.0.1, and exactly if [this.listen] is set;
    it is closed at most once, only after [dispose()], and it does not
    listen any more once it was closed. *)
Theorem at_most_one_listen_and_one_close (s : t) :
  reachable s →
  listenCalls (server s) =
    match listen s with Some _ => [(0%N, "127.0.0.1")] | None => [] end ∧
  (closeCalls (server s) ≤ 1)%nat ∧
  (closeCalls (server s) = 1 →
   isDisposed s = true ∧ listening (server s) = false) ∧
  (listening (server s) = true → is_settled (listen s)).
Proof.
  intros Hr. destruct (reachable_life_inv _ Hr) as [Hl Hc Hcd Hli].
  repeat split; try done; by destruct (Hcd ltac:(done)) as (? & ? & ?).
Qed.

Lemma at_most_one_listen_and_one_close_witness :
  let s := exec (apply_all [Start; ListenCallback NoAddress; Start; Dispose;
                            Dispose; Start]) create in
  listenCalls (server s) =
    match listen s with Some _ => [(0%N, "127.0.0.1")] | None => [] end ∧
  (closeCalls (server s) ≤ 1)%nat ∧
  (closeCalls (server s) = 1 →
   isDisposed s = true ∧ listening (server s) = false) ∧
  (listening (server s) = true → is_settled (listen s)).
Proof.
  apply (at_most_one_listen_and_one_close
           (exec (apply_all [Start; ListenCallback NoAddress; Start; Dispose;
                             Dispose; Start]) create)).
  rewrite !exec_apply_all_cons. repeat apply reachable_apply.
  apply reachable_create.
Defined.

(** X7. [dispose()] is final.  On a disposed server every later
    [start()] hands back a promise that is rejected with "Local server has
    already been disposed" and never calls [listen]; no later [dispose()]
    calls [close]; the server stays disposed. *)
Theorem disposed_server_stays_disposed (s : t) (os : list op) :
  isDisposed s = true →
  let s' := exec (apply_all os) s in
  isDisposed s' = true ∧
  listenCalls (server s') = listenCalls (server s) ∧
  closeCalls (server s') = closeCalls (server s) ∧
  handles s' = handles s ++ replicate (starts os) (Failed ALREADY_DISPOSED).
Proof.
  simpl. revert s. induction os as [|o os IH]; intros s Hd.
  - unfold exec. simpl. by rewrite app_nil_r.
  - rewrite exec_apply_all_cons, (apply_disposed o s Hd).
    destruct o as [| |a].
    + destruct (IH {| listen := listen s; isDisposed := true;
                      server := server s;
                      handles := handles s ++ [Failed ALREADY_DISPOSED] |}
                  eq_refl) as (H1 & H2 & H3 & H4).
      repeat split; try done. rewrite H4. simpl.
      by rewrite <- app_assoc.
    + by apply IH.
    + destruct (listening_callback_cases a s) as [[Hp ->]|[_ ->]];
        [|by apply IH].
      destruct (IH {| listen := Some (match a with
                                      | AddressInfo _ _ port => Fulfilled port
                                      | _ => Rejected FAILED_TO_GET_PORT
                                      end);
                      isDisposed := isDisposed s;
                      server := {| listening := true;
                                   listenCalls := listenCalls (server s);
                                   closeCalls := closeCalls (server s) |};
                      handles := handles s |} Hd) as (H1 & H2 & H3 & H4).
      by repeat split.
Qed.

Lemma disposed_server_stays_disposed_witness :
  let s := exec dispose listening_on_1234 in
  let s' := exec (apply_all [Start; Dispose; Start]) s in
  isDisposed s' = true ∧
  listenCalls (server s') = listenCalls (server s) ∧
  closeCalls (server s') = closeCalls (server s) ∧
  handles s' =
    handles s ++ replicate (starts [Start; Dispose; Start])
                   (Failed ALREADY_DISPOSED).
Proof.
  apply (disposed_server_stays_disposed (exec dispose listening_on_1234)
           [Start; Dispose; Start]).
  reflexivity.
Defined.

Lemma apply_settled o s :
  is_settled (listen s) →
  listen (exec (apply o) s) = listen s ∧
  listenCalls (server (exec (apply o) s)) = listenCalls (server s) ∧
  ∃ l, handles (exec (apply o) s) = handles s ++ l.
Proof.
  intros Hs. destruct o as [| |a].
  - destruct s as [[[]|] [] h hs]; simpl in *; try done;
      repeat split; by eexists.
  - destruct s as [l [] [[] lc cc] hs]; simpl in *;
      repeat split; exists []; by rewrite app_nil_r.
  - rewrite exec_apply_callback.
    destruct (listening_callback_cases a s) as [[Hp _]|[_ ->]].
    + by rewrite Hp in Hs.
    + repeat split. exists []. by rewrite app_nil_r.
Qed.

Lemma apply_all_settled os s :
  is_settled (listen s) →
  listen (exec (apply_all os) s) = listen s ∧
  listenCalls (server (exec (apply_all os) s)) = listenCalls (server s) ∧
  ∃ l, handles (exec (apply_all os) s) = handles s ++ l.
Proof.
  revert s. induction os as [|o os IH]; intros s Hs.
  - repeat split. exists []. by rewrite app_nil_r.
  - rewrite exec_apply_all_cons.
    destruct (apply_settled o s Hs) as (H1 & H2 & l1 & H3).
    destruct (IH (exec (apply o) s)) as (H4 & H5 & l2 & H6).
    { by rewrite H1. }
    repeat split; [congruence..|].
    exists (l1 ++ l2). by rewrite H6, H3, app_assoc.
Qed.

(** X8. The outcome of [start()] is settled once.  After the listen
    callback has settled [this.listen], no sequence of [start()],
    [dispose()] and callbacks changes it or calls [listen] again: the
    promises handed out before keep their state, and [start()] on the
    server, unless it was disposed, hands back a promise in that same
    state.  In particular a [start()] that failed to get a port is never
    retried. *)
Theorem start_result_is_settled_once (s : t) (os : list op) :
  is_settled (listen s) →
  let s' := exec (apply_all os) s in
  listen s' = listen s ∧
  listenCalls (server s') = listenCalls (server s) ∧
  (∀ k h, handles s !! k = Some h → promise_state k s' = promise_state k s) ∧
  (isDisposed s' = false →
   promise_state (eval start s') (exec start s') = listen s ∧
   listenCalls (server (exec start s')) = listenCalls (server s)).
Proof.
  intros Hs s'. destruct (apply_all_settled os s Hs) as (H1 & H2 & l & H3).
  fold s' in H1, H2, H3. repeat split; try done.
  - intros k h Hk. unfold promise_state.
    by rewrite H3, (lookup_app_l_Some _ _ _ _ Hk), Hk, H1.
  - destruct (listen s') as [st|] eqn:Hl; [|by rewrite <- H1 in Hs].
    unfold eval, exec. rewrite (LoopbackServerFacts.start_again s' st) by done.
    unfold promise_state. simpl.
    by rewrite list_lookup_middle.
  - destruct (listen s') as [st|] eqn:Hl; [|by rewrite <- H1 in Hs].
    unfold exec. by rewrite (LoopbackServerFacts.start_again s' st).
Qed.

Lemma start_result_is_settled_once_witness :
  let s := exec (listening_callback NoAddress) starting in
  let s' := exec (apply_all [Start; ListenCallback NoAddress; Start]) s in
  listen s' = listen s ∧
  listenCalls (server s') = listenCalls (server s) ∧
  (∀ k h, handles s !! k = Some h → promise_state k s' = promise_state k s) ∧
  (isDisposed s' = false →
   promise_state (eval start s') (exec start s') = listen s ∧
   listenCalls (server (exec start s')) = listenCalls (server s)).
Proof.
  apply (start_result_is_settled_once
           (exec (listening_callback NoAddress) starting)
           [Start; ListenCallback NoAddress; Start]).
  simpl. exact I.
Defined.

Lemma apply_frozen o s :
  isDisposed s = true → is_settled (listen s) →
  isDisposed (exec (apply o) s) = true ∧
  listen (exec (apply o) s) = listen s ∧
  server (exec (apply o) s) = server s.
Proof.
  intros Hd Hs. rewrite (apply_disposed o s Hd). destruct o as [| |a].
  - done.
  - done.
  - destruct (listening_callback_cases a s) as [[Hp _]|[_ ->]]; [|done].
    by rewrite Hp in Hs.
Qed.

Lemma apply_all_frozen os s :
  isDisposed s = true → is_settled (listen s) →
  isDisposed (exec (apply_all os) s) = true ∧
  server (exec (apply_all os) s) = server s.
Proof.
  revert s. induction os as [|o os IH]; intros s Hd Hs; [done|].
  rewrite exec_apply_all_cons.
  destruct (apply_frozen o s Hd Hs) as (H1 & H2 & H3).
  destruct (IH (exec (apply o) s) H1) as [H4 H5]; [by rewrite H2|].
  split; [done|congruence].
Qed.

(** X9. A server that is disposed before its [http.Server] listens is
    never closed.  [dispose()] marks it disposed and returns without
    calling [close]; the pending listen callback still runs, after which
    the [http.Server] listens; from then on every [dispose()] returns at
    once, so the [http.Server] keeps listening and [close] is never
    called, whatever follows. *)
Theorem disposed_before_listening_is_never_closed
    (s : t) (a : address) (os : list op) :
  isDisposed s = false →
  listen s = Some Pending →
  listening (server s) = false →
  let s' := exec (apply_all (Dispose :: ListenCallback a :: os)) s in
  isDisposed s' = true ∧
  listening (server s') = true ∧
  closeCalls (server s') = closeCalls (server s).
Proof.
  intros Hd Hl Hli s'. subst s'. rewrite !exec_apply_all_cons.
  assert (H1 : exec (apply Dispose) s =
               {| listen := Some Pending; isDisposed := true;
                  server := server s; handles := handles s |}).
  { destruct s as [l d [li lc cc] hs]. simpl in *. by subst. }
  rewrite H1, exec_apply_callback.
  destruct (listening_callback_cases a
              {| listen := Some Pending; isDisposed := true;
                 server := server s; handles := handles s |})
    as [[_ ->]|[Hn _]]; [|done].
  simpl.
  match goal with
  | |- context [exec (apply_all os) ?x] =>
      destruct (apply_all_frozen os x) as [H2 H3]
  end.
  - done.
  - simpl. by destruct a.
  - rewrite H3. by simpl.
Qed.

Lemma disposed_before_listening_is_never_closed_witness :
  let s' :=
    exec (apply_all
            [Dispose; ListenCallback (AddressInfo "127.0.0.1" "IPv4" 1234);
             Dispose; Start]) starting in
  isDisposed s' = true ∧
  listening (server s') = true ∧
  closeCalls (server s') = closeCalls (server starting).
Proof.
  apply (disposed_before_listening_is_never_closed starting
           (AddressInfo "127.0.0.1" "IPv4" 1234) [Dispose; Start]);
    reflexivity.
Defined.

End LoopbackServerLifeFacts.

Module FlowLifeFacts.
Import Loopback FlowLife.

Ltac st_unfold :=
  unfold exec, eval, mbind, St_bind, mret, St_ret, gets, modify, when in *;
  simpl in *.

Lemma exec_bind {W A B} (m : St W A) (f : A → St W B) w :
  exec (m ≫= f) w = exec (f (eval m w)) (exec m w).
Proof. st_unfold. by destruct (m w). Qed.

Lemma exec_on_server {A} t (m : St LoopbackServer.t A) w :
  exec (on_server t m) w =
  match servers w !! t with
  | Some sv => set_servers (<[t := exec m sv]> (servers w)) w
  | None => w
  end.
Proof.
  unfold exec, on_server. destruct (servers w !! t) as [sv|]; [|done].
  by destruct (m sv).
Qed.

Lemma insert_is_Some_same {A} (m : gmap nat A) t x t' :
  is_Some (m !! t) → is_Some (<[t := x]> m !! t') ↔ is_Some (m !! t').
Proof.
  intros H. rewrite lookup_insert_is_Some.
  split; [by intros [<-|[_ ?]]|].
  intros. destruct (decide (t = t')); [by left|by right].
Qed.

Lemma flow_inv_ext d w w' : same_servers w w' → flow_inv d w → flow_inv d w'.
Proof.
  intros (Hs & Ht & Ha & Hc) [H1 H2 H3 H4 H5 H6 H7].
  split; rewrite ?Hs, ?Ht, ?Ha, ?Hc; done.
Qed.

Lemma flow_inv_init : flow_inv false init.
Proof.
  split; simpl.
  - intros t. rewrite lookup_empty. split; [by intros []|lia].
  - intros t. rewrite lookup_empty. split; [by intros []|lia].
  - intros t a. by rewrite lookup_empty.
  - intros t a _. by rewrite lookup_empty.
  - intros t Ht. by apply elem_of_empty in Ht.
  - intros t sv. by rewrite lookup_empty.
  - intros t sv. by rewrite lookup_empty.
Qed.

Lemma isDisposed_apply o sv :
  LoopbackServer.isDisposed sv = true →
  LoopbackServer.isDisposed (exec (LoopbackServerLife.apply o) sv) = true.
Proof.
  intros Hd. rewrite (LoopbackServerLifeFacts.apply_disposed o sv Hd).
  destruct o as [| |a]; try done.
  by destruct (LoopbackServerLifeFacts.listening_callback_cases a sv)
    as [[_ ->]|[_ ->]].
Qed.

Lemma listen_apply o sv :
  LoopbackServer.listen sv ≠ None →
  LoopbackServer.listen (exec (LoopbackServerLife.apply o) sv) ≠ None.
Proof.
  intros Hl. destruct o as [| |a].
  - by destruct sv as [[st|] [] h hs].
  - by destruct sv as [l [] [[] lc cc] hs].
  - rewrite LoopbackServerLifeFacts.exec_apply_callback.
    by destruct (LoopbackServerLifeFacts.listening_callback_cases a sv)
      as [[_ ->]|[_ ->]].
Qed.

(** A method of a server keeps the invariants of the flow. *)
Lemma flow_inv_server d t o sv w :
  flow_inv d w → servers w !! t = Some sv →
  flow_inv d (set_servers
              (<[t := exec (LoopbackServerLife.apply o) sv]> (servers w)) w).
Proof.
  intros [H1 H2 H3 H4 H5 H6 H7] Hsv. split; simpl; try done.
  - intros t'. rewrite insert_is_Some_same; [done|by eexists].
  - intros t' sv'. rewrite lookup_insert. case_decide as Hc.
    + subst t'. intros [= <-] Hout. apply isDisposed_apply.
      by apply (H6 t sv).
    + apply H6.
  - intros t' sv'. rewrite lookup_insert. case_decide as Hc.
    + subst t'. intros [= <-]. destruct (H7 _ _ Hsv) as [Hr Hl].
      split; [by apply LoopbackServerLife.reachable_apply|].
      by apply listen_apply.
    + apply H7.
Qed.

Lemma flow_inv_on_server d {A} t (m : St LoopbackServer.t A) o w :
  (∀ sv, exec m sv = exec (LoopbackServerLife.apply o) sv) →
  flow_inv d w → flow_inv d (exec (on_server t m) w).
Proof.
  intros Hm Hw. rewrite exec_on_server.
  destruct (servers w !! t) as [sv|] eqn:Hsv; [|done].
  rewrite Hm. by apply flow_inv_server.
Qed.

Lemma exec_apply_start sv :
  exec LoopbackServer.start sv =
  exec (LoopbackServerLife.apply LoopbackServerLife.Start) sv.
Proof.
  unfold exec, LoopbackServerLife.apply, mbind, St_bind.
  by destruct (LoopbackServer.start sv).
Qed.

Lemma flow_inv_dispose_server d t w :
  flow_inv d w → flow_inv d (exec (on_server t LoopbackServer.dispose) w).
Proof. by apply (flow_inv_on_server d t _ LoopbackServerLife.Dispose). Qed.

Lemma flow_inv_listening_callback d t a w :
  flow_inv d w →
  flow_inv d (exec (on_server t (LoopbackServer.listening_callback a)) w).
Proof.
  apply (flow_inv_on_server d t _ (LoopbackServerLife.ListenCallback a)).
  intros sv. by rewrite LoopbackServerLifeFacts.exec_apply_callback.
Qed.

Lemma exec_set_phase t a ph w :
  exec (set_phase t a ph) w =
  set_triggers (<[t := {| options := options a; codePromise := codePromise a;
                          at_ := ph |}]> (triggers w)) w.
Proof. done. Qed.

(** An activation that has not rejected moves to another phase that is
    not a rejection. *)
Lemma flow_inv_set_phase d t a a0 ph w :
  flow_inv d w → triggers w !! t = Some a0 → thrown (at_ a0) = false →
  thrown ph = false →
  flow_inv d (exec (set_phase t a ph) w).
Proof.
  intros [H1 H2 H3 H4 H5 H6 H7] Ha0 Hn0 Hn. rewrite exec_set_phase.
  split; simpl; try done.
  - intros t'. rewrite insert_is_Some_same; [done|by eexists].
  - intros t' a'. rewrite lookup_insert. case_decide as Hc.
    + subst t'. by intros [= <-] _.
    + apply H3.
  - intros t' a' Hd. rewrite lookup_insert. case_decide as Hc.
    + subst t'. intros _ _. by apply (H4 t a0).
    + by apply H4.
Qed.

(** The [catch] block of [trigger] keeps the invariants. *)
Lemma flow_inv_trigger_catch d t a err w :
  flow_inv d w → is_Some (triggers w !! t) →
  flow_inv d (exec (trigger_catch t a err) w).
Proof.
  intros Hw Ht. pose proof Hw as [H1 H2 H3 H4 H5 H6 H7].
  assert (Hsv : is_Some (servers w !! t)) by (apply H1; by apply H2).
  destruct Hsv as [sv Hsv].
  rewrite LoopbackFacts.exec_trigger_catch, Hsv. unfold caught.
  pose proof (flow_inv_server d t LoopbackServerLife.Dispose sv w Hw Hsv)
    as [G1 G2 G3 G4 G5 G6 G7].
  simpl in *. split; simpl; try done.
  - intros t'. by rewrite insert_is_Some_same.
  - intros t' a'. rewrite lookup_insert, elem_of_difference, elem_of_singleton.
    case_decide as Hc.
    + subst t'. by intros _ [_ ?].
    + intros Ha' [Hin _]. by apply (H3 t' a').
  - intros t' a' Hd.
    rewrite lookup_insert, elem_of_difference, elem_of_singleton.
    case_decide as Hc.
    + subst t'. by intros [= <-].
    + intros Ha' Hn. split; [by apply (H4 t' a')|done].
  - intros t'. rewrite elem_of_difference. intros [? _]. by apply H5.
  - intros t' sv'.
    rewrite lookup_insert, elem_of_difference, elem_of_singleton.
    case_decide as Hc.
    + subst t'. intros [= <-] _. apply LoopbackFacts.dispose_isDisposed.
    + intros Hs' Hout. apply (H6 t' sv' Hs'). intros Hin. apply Hout.
      by split.
Qed.

Lemma trigger_servers o w :
  let w' := exec (trigger o) w in
  servers w' =
    <[created w := exec LoopbackServer.start LoopbackServer.create]>
      (servers w) ∧
  (∃ p, triggers w' =
          <[created w := {| options := o; codePromise := p;
                            at_ := AwaitStart |}]> (triggers w)) ∧
  activeServers w' = {[created w]} ∪ activeServers w ∧
  created w' = S (created w).
Proof.
  unfold trigger, waitForCode, on_codeManager, on_server, code_state,
    onCancellationRequested, set_phase, CodeManager.waitForCode.
  st_unfold.
  destruct (CodeManager.waiters (codeManager w) !! nonce o); simpl;
    rewrite !lookup_insert_eq; simpl; rewrite lookup_insert_eq; simpl;
    rewrite insert_insert_eq; repeat split; by eexists.
Qed.

Lemma flow_inv_trigger d o w : flow_inv d w → flow_inv d (exec (trigger o) w).
Proof.
  intros [H1 H2 H3 H4 H5 H6 H7].
  destruct (trigger_servers o w) as (Hs & [p Ht] & Ha & Hc).
  assert (Hn : triggers w !! created w = None).
  { apply eq_None_not_Some. rewrite H2. lia. }
  split; rewrite ?Hs, ?Ht, ?Ha, ?Hc.
  - intros t. rewrite lookup_insert_is_Some, H1.
    destruct (decide (created w = t)); split; try lia; by intros [|[]]; lia.
  - intros t. rewrite lookup_insert_is_Some, H2.
    destruct (decide (created w = t)); split; try lia; by intros [|[]]; lia.
  - intros t a. rewrite lookup_insert, elem_of_union, elem_of_singleton.
    case_decide as Hcase.
    + subst t. by intros [= <-] _.
    + intros Ha' [->|Hin]; [done|]. by apply (H3 t a).
  - intros t a Hd. rewrite lookup_insert, elem_of_union, elem_of_singleton.
    case_decide as Hcase.
    + intros _ _. by left.
    + intros Ha' Hth. right. by apply (H4 t a).
  - intros t. rewrite elem_of_union, elem_of_singleton.
    intros [->|Hin]; [lia|]. apply H5 in Hin. lia.
  - intros t sv. rewrite lookup_insert, elem_of_union, elem_of_singleton.
    case_decide as Hcase.
    + intros _ Hout. destruct Hout. by left.
    + intros Hs' Hout. apply (H6 t sv Hs'). intros Hin. apply Hout.
      by right.
  - intros t sv. rewrite lookup_insert. case_decide as Hcase.
    + subst t. intros [= <-]. split; [|done].
      rewrite exec_apply_start.
      apply LoopbackServerLife.reachable_apply,
        LoopbackServerLife.reachable_create.
    + apply H7.
Qed.

Lemma flow_inv_await_code d t a a0 address w :
  flow_inv d w → triggers w !! t = Some a0 → thrown (at_ a0) = false →
  flow_inv d (exec (await_code t a address) w).
Proof.
  intros Hw Ha0 Hn. rewrite LoopbackFacts.exec_await_code.
  destruct (code_state (codePromise a) w) as [[|c|err]|].
  - apply (flow_inv_set_phase d t a a0 (AwaitCode address)
             (set_awaiting (<[codePromise a := t]> (awaiting w)) w));
      try done.
    by apply (flow_inv_ext d w).
  - by apply (flow_inv_set_phase d t a a0
                (Done (Returns {| code := c; redirectUri := address |})) w).
  - apply flow_inv_trigger_catch; [done|by eexists].
  - apply (flow_inv_set_phase d t a a0 (AwaitCode address)
             (set_awaiting (<[codePromise a := t]> (awaiting w)) w));
      try done.
    by apply (flow_inv_ext d w).
Qed.

Lemma flow_inv_after_start d defaults t a a0 st w :
  flow_inv d w → triggers w !! t = Some a0 → thrown (at_ a0) = false →
  flow_inv d (exec (after_start defaults t a st) w).
Proof.
  intros Hw Ha0 Hn. destruct st as [|port|err]; simpl.
  - done.
  - rewrite exec_bind.
    apply (flow_inv_set_phase d t a a0); try done.
    by apply (flow_inv_ext d w).
  - apply flow_inv_trigger_catch; [done|by eexists].
Qed.

Lemma flow_inv_after_open d t a a0 address r w :
  flow_inv d w → triggers w !! t = Some a0 → thrown (at_ a0) = false →
  flow_inv d (exec (after_open t a address r) w).
Proof.
  intros Hw Ha0 Hn. destruct r as [b|err]; simpl.
  - by apply (flow_inv_await_code d t a a0).
  - apply flow_inv_trigger_catch; [done|by eexists].
Qed.

Lemma flow_inv_run_job d q w : flow_inv d w → flow_inv d (exec (run_job q) w).
Proof.
  intros Hw.
  destruct (LoopbackFacts.run_job_cases q w)
    as [->|(t & a & address & Haw & Ht & Hat & Hq & ->)]; [done|].
  apply (flow_inv_await_code d t a a).
  - by apply (flow_inv_ext d w).
  - done.
  - by rewrite Hat.
Qed.

Lemma flow_inv_for_each d {A} (f : A → St world unit) l w :
  (∀ x w, flow_inv d w → flow_inv d (exec (f x) w)) →
  flow_inv d w → flow_inv d (exec (for_each f l) w).
Proof.
  intros Hf. revert w. induction l as [|x l IH]; intros w Hw; [done|].
  rewrite LoopbackFacts.exec_for_each_cons. by apply IH, Hf.
Qed.

Lemma flow_inv_drain d w : flow_inv d w → flow_inv d (exec drain w).
Proof.
  intros Hw. unfold drain. rewrite !exec_bind.
  apply flow_inv_for_each; [apply flow_inv_run_job|].
  by apply (flow_inv_ext d w).
Qed.

Lemma same_servers_fire_reject n p w :
  same_servers w (exec (fire (RejectWaiter n p)) w).
Proof.
  rewrite LoopbackFacts.fire_reject.
  destruct (CodeManager.waiters (codeManager w) !! n) as [wt|]; [|done].
  by destruct (bool_decide (CodeManager.promise wt = p)).
Qed.

Lemma flow_inv_fire d l w : flow_inv d w → flow_inv d (exec (fire l) w).
Proof.
  intros Hw. destruct l as [n p|sv].
  - apply (flow_inv_ext d w); [apply same_servers_fire_reject|done].
  - simpl. rewrite exec_bind. by apply flow_inv_dispose_server.
Qed.

Lemma exec_ret {W A} (a : A) (w : W) : exec (mret a) w = w.
Proof. done. Qed.

Lemma exec_gets {W A} (f : W → A) (w : W) : exec (gets f) w = w.
Proof. done. Qed.

Lemma eval_gets {W A} (f : W → A) (w : W) : eval (gets f) w = f w.
Proof. done. Qed.

Lemma exec_modify {W} (f : W → W) (w : W) : exec (modify f) w = f w.
Proof. done. Qed.

Lemma exec_on_codeManager {A} (m : St CodeManager.state A) w :
  exec (on_codeManager m) w = set_codeManager (exec m (codeManager w)) w.
Proof. unfold exec, on_codeManager. by destruct (m (codeManager w)). Qed.

Lemma exec_enqueue p w :
  exec (enqueue p) w =
  match p with Some p => set_jobs (jobs w ++ [p]) w | None => w end.
Proof. by destruct p. Qed.

Lemma exec_writeHead r status hs w :
  exec (writeHead r status hs) w =
  match responses w !! r with
  | Some res =>
      set_responses
        (<[r := {| headersSent := true; statusCode := Some status;
                   headers := headers res ++ hs; body := body res;
                   endCalls := endCalls res |}]> (responses w)) w
  | None => w
  end.
Proof. done. Qed.

Lemma exec_setHeader r name value w :
  exec (setHeader r name value) w =
  match responses w !! r with
  | Some res =>
      set_responses
        (<[r := {| headersSent := headersSent res;
                   statusCode := statusCode res;
                   headers := headers res ++ [(name, value)];
                   body := body res; endCalls := endCalls res |}]>
           (responses w)) w
  | None => w
  end.
Proof. done. Qed.

Lemma exec_end_ r data w :
  exec (end_ r data) w =
  match responses w !! r with
  | Some res =>
      set_responses
        (<[r := {| headersSent := true; statusCode := statusCode res;
                   headers := headers res;
                   body := match data with
                           | Some _ => data
                           | None => body res
                           end;
                   endCalls := S (endCalls res) |}]> (responses w)) w
  | None => w
  end.
Proof. done. Qed.

Lemma same_servers_trans w1 w2 w3 :
  same_servers w1 w2 → same_servers w2 w3 → same_servers w1 w3.
Proof.
  intros (? & ? & ? & ?) (? & ? & ? & ?). repeat split; congruence.
Qed.

Lemma same_servers_writeHead r status hs w :
  same_servers w (exec (writeHead r status hs) w).
Proof. rewrite exec_writeHead. by destruct (responses w !! r). Qed.

Lemma same_servers_setHeader r name value w :
  same_servers w (exec (setHeader r name value) w).
Proof. rewrite exec_setHeader. by destruct (responses w !! r). Qed.

Lemma same_servers_end_ r data w : same_servers w (exec (end_ r data) w).
Proof. rewrite exec_end_. by destruct (responses w !! r). Qed.

Lemma same_servers_sendFile_callback r filepath data w :
  same_servers w (exec (sendFile_callback r filepath data) w).
Proof.
  destruct data as [content|err]; simpl; rewrite !exec_bind.
  - eapply same_servers_trans; [|apply same_servers_end_].
    eapply same_servers_trans; [|apply same_servers_writeHead].
    apply same_servers_setHeader.
  - eapply same_servers_trans; [|apply same_servers_end_].
    eapply same_servers_trans; [|apply same_servers_writeHead].
    done.
Qed.

Lemma same_servers_redirect domain r uri w :
  same_servers w (exec (redirectSuccessfulAuth_resume domain r uri) w).
Proof.
  destruct uri as [u|err]; simpl; [|done].
  rewrite exec_bind, exec_gets, eval_gets.
  destruct (default false (headersSent <$> responses w !! r)); [done|].
  rewrite exec_bind.
  eapply same_servers_trans; [|apply same_servers_end_].
  apply same_servers_writeHead.
Qed.

Lemma same_servers_handleRequest root lib req r w :
  same_servers w (exec (handleRequest root lib req r) w).
Proof.
  unfold handleRequest.
  destruct (negb (Url.truthy (url req))); [done|].
  destruct (negb (Url.truthy (host req))); [done|].
  destruct (Url.new_URL lib _ _) as [u|err]; [|done].
  destruct (negb (String.eqb (method req) "GET")).
  { rewrite !exec_bind.
    eapply same_servers_trans; [|apply same_servers_end_].
    apply same_servers_writeHead. }
  destruct (String.eqb (Url.pathname u) "/").
  { destruct (negb (Url.truthy _)); [done|].
    destruct (_ || _); [done|].
    rewrite !exec_bind, exec_ret, exec_modify, exec_enqueue.
    rewrite exec_on_codeManager.
    by destruct (eval (on_codeManager _) w). }
  destruct (String.eqb (Url.pathname u) "/favicon.ico").
  { by rewrite !exec_bind. }
  rewrite !exec_bind.
  eapply same_servers_trans; [|apply same_servers_end_].
  eapply same_servers_trans; [|apply same_servers_writeHead].
  done.
Qed.

Lemma opened_writeHead r status hs w :
  opened (exec (writeHead r status hs) w) = opened w.
Proof. rewrite exec_writeHead. by destruct (responses w !! r). Qed.

Lemma opened_setHeader r name value w :
  opened (exec (setHeader r name value) w) = opened w.
Proof. rewrite exec_setHeader. by destruct (responses w !! r). Qed.

Lemma opened_end_ r data w : opened (exec (end_ r data) w) = opened w.
Proof. rewrite exec_end_. by destruct (responses w !! r). Qed.

Lemma opened_sendFile_callback r filepath data w :
  opened (exec (sendFile_callback r filepath data) w) = opened w.
Proof.
  destruct data as [content|err]; simpl; rewrite !exec_bind;
    by rewrite opened_end_, opened_writeHead, ?opened_setHeader.
Qed.

Lemma opened_redirect domain r uri w :
  opened (exec (redirectSuccessfulAuth_resume domain r uri) w) = opened w.
Proof.
  destruct uri as [u|err]; simpl; [|done].
  rewrite exec_bind, exec_gets, eval_gets.
  destruct (default false (headersSent <$> responses w !! r)); [done|].
  by rewrite exec_bind, opened_end_, opened_writeHead.
Qed.

Lemma opened_handleRequest root lib req r w :
  opened (exec (handleRequest root lib req r) w) = opened w.
Proof.
  unfold handleRequest.
  destruct (negb (Url.truthy (url req))); [done|].
  destruct (negb (Url.truthy (host req))); [done|].
  destruct (Url.new_URL lib _ _) as [u|err]; [|done].
  destruct (negb (String.eqb (method req) "GET")).
  { by rewrite !exec_bind, exec_ret, opened_end_, opened_writeHead. }
  destruct (String.eqb (Url.pathname u) "/").
  { destruct (negb (Url.truthy _)); [done|].
    destruct (_ || _); [done|].
    rewrite !exec_bind, exec_ret, exec_modify, exec_enqueue.
    rewrite exec_on_codeManager.
    by destruct (eval (on_codeManager _) w). }
  destruct (String.eqb (Url.pathname u) "/favicon.ico").
  { by rewrite !exec_bind. }
  by rewrite !exec_bind, exec_ret, opened_end_, opened_writeHead.
Qed.

Lemma jobs_trigger_catch t a err w :
  jobs (exec (trigger_catch t a err) w) = jobs w.
Proof.
  rewrite LoopbackFacts.exec_trigger_catch. by destruct (servers w !! t).
Qed.

Lemma jobs_await_code t a address w :
  jobs (exec (await_code t a address) w) = jobs w.
Proof.
  rewrite LoopbackFacts.exec_await_code.
  destruct (code_state (codePromise a) w) as [[|c|err]|]; try done.
  apply jobs_trigger_catch.
Qed.

Lemma jobs_run_job q w : jobs (exec (run_job q) w) = jobs w.
Proof.
  destruct (LoopbackFacts.run_job_cases q w)
    as [->|(t & a & address & _ & _ & _ & _ & ->)]; [done|].
  by rewrite jobs_await_code.
Qed.

Lemma jobs_for_each_run_job js w :
  jobs (exec (for_each run_job js) w) = jobs w.
Proof.
  revert w. induction js as [|q js IH]; intros w; [done|].
  by rewrite LoopbackFacts.exec_for_each_cons, IH, jobs_run_job.
Qed.

Lemma jobs_drain w : jobs (exec drain w) = [].
Proof.
  unfold drain. rewrite !exec_bind, exec_modify, exec_gets.
  by rewrite jobs_for_each_run_job.
Qed.

(** *** [LocalServerFlow.dispose()] *)

Lemma dispose_disposed sv :
  LoopbackServer.isDisposed sv = true → exec LoopbackServer.dispose sv = sv.
Proof. destruct sv as [l d h hs]. simpl. by intros ->. Qed.

Lemma released_trigger_catch t a err w :
  all_released w →
  servers (exec (trigger_catch t a err) w) = servers w ∧
  activeServers (exec (trigger_catch t a err) w) = ∅.
Proof.
  intros [Ha Hd]. rewrite LoopbackFacts.exec_trigger_catch.
  destruct (servers w !! t) as [sv|] eqn:Hsv; simpl.
  - rewrite Ha, empty_difference_L. split; [|done].
    rewrite (dispose_disposed sv) by by apply (Hd t).
    by apply insert_id.
  - by rewrite Ha, empty_difference_L.
Qed.

Lemma released_await_code t a address w :
  all_released w →
  servers (exec (await_code t a address) w) = servers w ∧
  activeServers (exec (await_code t a address) w) = ∅.
Proof.
  intros Hw. rewrite LoopbackFacts.exec_await_code.
  destruct (code_state (codePromise a) w) as [[|c|err]|];
    try (by destruct Hw).
  by apply released_trigger_catch.
Qed.

Lemma released_run_job q w :
  all_released w →
  servers (exec (run_job q) w) = servers w ∧
  activeServers (exec (run_job q) w) = ∅.
Proof.
  intros Hw.
  destruct (LoopbackFacts.run_job_cases q w)
    as [->|(t & a & address & _ & _ & _ & _ & ->)]; [by destruct Hw|].
  by apply (released_await_code t a address
              (set_awaiting (delete q (awaiting w)) w)).
Qed.

Lemma released_for_each_run_job js w :
  all_released w →
  servers (exec (for_each run_job js) w) = servers w ∧
  activeServers (exec (for_each run_job js) w) = ∅.
Proof.
  revert w. induction js as [|q js IH]; intros w Hw; [by destruct Hw|].
  rewrite LoopbackFacts.exec_for_each_cons.
  destruct (released_run_job q w Hw) as [Hs Ha].
  destruct (IH (exec (run_job q) w)) as [Hs' Ha'].
  { split; [done|]. rewrite Hs. apply Hw. }
  split; [congruence|done].
Qed.

Lemma released_drain w :
  all_released w →
  servers (exec drain w) = servers w ∧ activeServers (exec drain w) = ∅.
Proof.
  intros Hw. unfold drain. rewrite !exec_bind, exec_modify, exec_gets.
  by apply (released_for_each_run_job (eval (gets jobs) w) (set_jobs [] w)).
Qed.

Lemma same_servers_enqueue_all ps w :
  same_servers w (exec (for_each (λ p, enqueue (Some p)) ps) w).
Proof.
  revert w. induction ps as [|p ps IH]; intros w; [done|].
  rewrite LoopbackFacts.exec_for_each_cons.
  eapply same_servers_trans; [|apply IH]. done.
Qed.

(** The loop of [dispose()] over the active servers. *)
Lemma dispose_loop l w :
  let w' := exec (for_each (λ t, on_server t LoopbackServer.dispose;; mret ())
                    l) w in
  (∀ t, servers w' !! t =
        if decide (t ∈ l) then exec LoopbackServer.dispose <$> servers w !! t
        else servers w !! t) ∧
  activeServers w' = activeServers w.
Proof.
  simpl. revert w. induction l as [|x l IH]; intros w.
  - split; [|done]. intros t. rewrite decide_False; [done|].
    apply not_elem_of_nil.
  - rewrite LoopbackFacts.exec_for_each_cons, exec_bind, exec_ret.
    destruct (IH (exec (on_server x LoopbackServer.dispose) w)) as [Hs Ha].
    rewrite exec_on_server in Hs, Ha. rewrite exec_on_server.
    split.
    + intros t. rewrite Hs. clear Hs Ha IH.
      destruct (servers w !! x) as [sv|] eqn:Hx; simpl.
      * destruct (decide (t = x)) as [->|Hne].
        -- rewrite lookup_insert_eq, Hx. simpl.
           rewrite (decide_True (P := x ∈ x :: l)) by apply list_elem_of_here.
           case_decide; [|done]. by rewrite LoopbackFacts.dispose_idempotent.
        -- rewrite lookup_insert_ne by done.
           destruct (decide (t ∈ l)) as [Hin|Hnin].
           ++ by rewrite decide_True by by apply list_elem_of_further.
           ++ rewrite decide_False; [done|]. by apply not_elem_of_cons.
      * destruct (decide (t = x)) as [->|Hne].
        -- rewrite Hx. by repeat case_decide.
        -- destruct (decide (t ∈ l)) as [Hin|Hnin].
           ++ by rewrite decide_True by by apply list_elem_of_further.
           ++ rewrite decide_False; [done|]. by apply not_elem_of_cons.
    + rewrite Ha. by destruct (servers w !! x).
Qed.

Lemma exec_dispose cm w :
  exec (dispose cm) w =
  let w1 := exec (for_each (λ p, enqueue (Some p))
                    (eval (on_codeManager cm) w))
              (exec (on_codeManager cm) w) in
  set_activeServers ∅
    (exec (for_each (λ t, on_server t LoopbackServer.dispose;; mret ())
             (elements (activeServers w1))) w1).
Proof.
  unfold dispose. by rewrite !exec_bind, exec_modify, exec_gets, eval_gets.
Qed.

Lemma same_servers_dispose_prefix cm w :
  same_servers w
    (exec (for_each (λ p, enqueue (Some p)) (eval (on_codeManager cm) w))
       (exec (on_codeManager cm) w)).
Proof.
  eapply same_servers_trans; [|apply same_servers_enqueue_all].
  by rewrite exec_on_codeManager.
Qed.

Lemma dispose_all_released cm w :
  all_released w →
  servers (exec (dispose cm) w) = servers w ∧ all_released (exec (dispose cm) w).
Proof.
  intros [Ha Hd]. rewrite exec_dispose. cbv zeta.
  destruct (same_servers_dispose_prefix cm w) as (Hs1 & _ & Ha1 & _).
  rewrite Ha1, Ha, elements_empty.
  change (exec (for_each _ []) ?x) with x.
  split; [exact Hs1|]. split; [done|]. intros t sv.
  change (servers (set_activeServers ∅ ?x)) with (servers x).
  rewrite Hs1. apply Hd.
Qed.

Lemma flow_inv_weaken d w : flow_inv d w → flow_inv true w.
Proof. intros [H1 H2 H3 H4 H5 H6 H7]. by split. Qed.

(** [dispose()] of the flow keeps the invariants, but for the server of a
    pending activation staying in [activeServers]. *)
Lemma flow_inv_dispose d cm w :
  flow_inv d w → flow_inv true (exec (dispose cm) w).
Proof.
  intros Hw. rewrite exec_dispose. cbv zeta.
  pose proof (flow_inv_ext d _ _ (same_servers_dispose_prefix cm w) Hw)
    as Hw1.
  remember (exec (for_each (λ p, enqueue (Some p)) (eval (on_codeManager cm) w))
              (exec (on_codeManager cm) w)) as w1 eqn:E.
  clear E Hw w. apply flow_inv_weaken in Hw1.
  destruct (dispose_loop (elements (activeServers w1)) w1) as [Hs _].
  assert (Hw2 : flow_inv true
            (exec (for_each (λ t, on_server t LoopbackServer.dispose;; mret ())
                     (elements (activeServers w1))) w1)).
  { apply flow_inv_for_each; [|done].
    intros x w Hw. rewrite exec_bind, exec_ret.
    by apply flow_inv_dispose_server. }
  destruct Hw1 as [_ _ _ _ _ H6 _].
  destruct Hw2 as [G1 G2 _ _ _ _ G7].
  split; simpl; try done.
  intros t sv. rewrite Hs. case_decide as Hin.
  - destruct (servers w1 !! t) as [sv0|]; [|done]. intros [= <-] _.
    apply LoopbackFacts.dispose_isDisposed.
  - intros Hsv _. apply (H6 t sv Hsv). by rewrite <- elem_of_elements.
Qed.

Lemma opened_dispose_prefix cm w :
  opened (exec (for_each (λ p, enqueue (Some p)) (eval (on_codeManager cm) w))
            (exec (on_codeManager cm) w)) = opened w.
Proof.
  assert (H : ∀ ps w0, opened (exec (for_each (λ p, enqueue (Some p)) ps) w0)
                       = opened w0).
  { induction ps as [|q ps IH]; intros w0; [done|].
    by rewrite LoopbackFacts.exec_for_each_cons, IH. }
  by rewrite H, exec_on_codeManager.
Qed.

Section config.

Variable ColabApiDomain : string.
Variable DEFAULT_AUTH_URL_OPTS : list (string * string).
Variable serveRoot : string.
Variable lib : Url.Library.

#[local] Abbreviation step :=
  (step ColabApiDomain DEFAULT_AUTH_URL_OPTS serveRoot lib).
#[local] Abbreviation handle :=
  (handle ColabApiDomain DEFAULT_AUTH_URL_OPTS serveRoot lib).
#[local] Abbreviation reachable :=
  (reachable ColabApiDomain DEFAULT_AUTH_URL_OPTS serveRoot lib).

Lemma flow_inv_handle d e w : flow_inv d w → flow_inv d (exec (handle e) w).
Proof.
  intros Hw. destruct e as [o|sv a|t r|sv req|r uri|r data|ms|n|tok]; simpl.
  - rewrite exec_bind, exec_ret. by apply flow_inv_trigger.
  - rewrite exec_bind.
    pose proof (flow_inv_listening_callback d sv a w Hw) as Hw1.
    remember (exec (on_server sv (LoopbackServer.listening_callback a)) w)
      as w1 eqn:E. clear E.
    destruct (eval _ w) as [[|]|]; try done.
    rewrite !exec_bind, exec_ret, !eval_gets, !exec_gets.
    destruct (triggers w1 !! sv) as [act|] eqn:Hact; [|done].
    destruct (servers w1 !! sv ≫= LoopbackServer.listen) as [st|]; [|done].
    destruct (at_ act) eqn:Hat; try done.
    apply (flow_inv_after_start d _ sv act act); try done. by rewrite Hat.
  - rewrite exec_bind, eval_gets, exec_gets.
    destruct (triggers w !! t) as [act|] eqn:Hact; [|done].
    destruct (at_ act) eqn:Hat; try done.
    rewrite exec_bind, exec_ret.
    apply (flow_inv_after_open d t act act); try done. by rewrite Hat.
  - rewrite exec_bind, eval_gets, exec_gets.
    destruct (servers w !! sv); [|done].
    rewrite !exec_bind, eval_gets, exec_gets, exec_modify.
    match goal with
    | |- flow_inv d (exec (match ?x with _ => _ end) _) => destruct x
    end; rewrite exec_ret;
      (eapply flow_inv_ext; [apply same_servers_handleRequest|]);
      by apply (flow_inv_ext d w).
  - rewrite exec_bind, eval_gets, exec_gets.
    case_decide; [|done].
    rewrite !exec_bind, exec_ret, exec_modify.
    eapply flow_inv_ext; [apply same_servers_redirect|].
    by apply (flow_inv_ext d w).
  - rewrite exec_bind, eval_gets, exec_gets.
    destruct (reading w !! r) as [filepath|]; [|done].
    rewrite !exec_bind, exec_ret, exec_modify.
    eapply flow_inv_ext; [apply same_servers_sendFile_callback|].
    by apply (flow_inv_ext d w).
  - rewrite exec_bind. by apply (flow_inv_ext d w).
  - rewrite !exec_bind, eval_gets, exec_gets, exec_on_codeManager.
    destruct (eval (on_codeManager _) w).
    + rewrite exec_bind, exec_ret. by apply (flow_inv_ext d w).
    + by apply (flow_inv_ext d w).
  - rewrite !exec_bind, eval_gets, exec_gets, exec_modify, exec_ret.
    apply flow_inv_for_each; [apply flow_inv_fire|].
    by apply (flow_inv_ext d w).
Qed.

Lemma flow_inv_step d e w : flow_inv d w → flow_inv d (exec (step e) w).
Proof.
  intros Hw. unfold Loopback.step. rewrite !exec_bind, exec_ret.
  by apply flow_inv_drain, flow_inv_handle.
Qed.

Lemma reachable_flow_inv d w : reachable d w → flow_inv d w.
Proof.
  induction 1 as [|d w e Hr IH|d w cm Hr IH].
  - apply flow_inv_init.
  - by apply flow_inv_step.
  - rewrite exec_bind. by apply flow_inv_drain, (flow_inv_dispose d).
Qed.

Lemma flow_exec_run_cons e es w :
  exec (Loopback.run ColabApiDomain DEFAULT_AUTH_URL_OPTS serveRoot lib
          (e :: es)) w =
  exec (Loopback.run ColabApiDomain DEFAULT_AUTH_URL_OPTS serveRoot lib es)
    (exec (step e) w).
Proof. simpl. by rewrite !exec_bind, exec_ret. Qed.

Lemma reachable_run d es w :
  reachable d w →
  reachable d
    (exec (Loopback.run ColabApiDomain DEFAULT_AUTH_URL_OPTS serveRoot lib es)
       w).
Proof.
  revert w. induction es as [|e es IH]; intros w Hw; [done|].
  rewrite flow_exec_run_cons. by apply IH, reachable_step.
Qed.

Lemma reachable_jobs d w : reachable d w → jobs w = [].
Proof.
  destruct 1 as [|d w e _|d w cm _]; [done| |].
  - unfold Loopback.step. rewrite !exec_bind, exec_ret. apply jobs_drain.
  - rewrite exec_bind. apply jobs_drain.
Qed.

(** X10. The flow keeps its servers in step with its triggers.  In every
    world the flow can reach, by events and by calls of [dispose()] of the
    flow at any time, each call of [trigger] has a server of its own, which
    was started; a server in [activeServers] belongs to a call that has not
    rejected; a server that is not in [activeServers] has been disposed,
    and so has the server of every rejected call; no promise reaction is
    left to run.  As long as [dispose()] of the flow has not been called,
    the server is in [activeServers] exactly as long as the call has not
    rejected. *)
Theorem servers_follow_their_triggers (d : bool) (w : world) :
  reachable d w →
  jobs w = [] ∧
  (∀ t, t < created w ↔ is_Some (triggers w !! t)) ∧
  (∀ t a,
     triggers w !! t = Some a →
     ∃ sv, servers w !! t = Some sv ∧
           LoopbackServerLife.reachable sv ∧
           LoopbackServer.listen sv ≠ None ∧
           (t ∈ activeServers w → thrown (at_ a) = false) ∧
           (t ∉ activeServers w → LoopbackServer.isDisposed sv = true) ∧
           (thrown (at_ a) = true → LoopbackServer.isDisposed sv = true) ∧
           (d = false → (t ∈ activeServers w ↔ thrown (at_ a) = false))) ∧
  (∀ t, t ∈ activeServers w → is_Some (triggers w !! t)).
Proof.
  intros Hr. destruct (reachable_flow_inv d w Hr) as [H1 H2 H3 H4 H5 H6 H7].
  split; [by apply (reachable_jobs d)|]. split; [|split].
  - intros t. by rewrite H2.
  - intros t a Ha.
    assert (Hsv : is_Some (servers w !! t)) by (apply H1, H2; by eexists).
    destruct Hsv as [sv Hsv]. exists sv. destruct (H7 _ _ Hsv).
    split; [done|]. split; [done|]. split; [done|].
    split; [by apply (H3 t a)|]. split; [by apply (H6 t sv)|]. split.
    + intros Hth. apply (H6 t sv Hsv). intros Hin.
      apply (H3 t a Ha) in Hin. congruence.
    + intros Hd. split; [by apply (H3 t a)|by apply (H4 t a)].
  - intros t Ht. by apply H2, H5.
Qed.

(** X11. [dispose()] of the flow releases every server the flow has
    created.  From any world the flow can reach, and whatever the code
    manager does when it is disposed, [dispose()] and the promise
    reactions it causes leave [activeServers] empty and every server
    disposed: each server is as its own [dispose()] leaves it.  A second
    [dispose()] changes no server. *)
Theorem dispose_releases_every_server
    (d : bool) (w : world) (cm cm' : St CodeManager.state (list pid)) :
  reachable d w →
  let w' := exec (dispose cm;; drain) w in
  let w'' := exec (dispose cm';; drain) w' in
  activeServers w' = ∅ ∧
  servers w' = exec LoopbackServer.dispose <$> servers w ∧
  (∀ t sv, servers w' !! t = Some sv → LoopbackServer.isDisposed sv = true) ∧
  activeServers w'' = ∅ ∧
  servers w'' = servers w'.
Proof.
  intros Hr w' w''.
  destruct (reachable_flow_inv d w Hr) as [H1 H2 H3 H4 H5 H6 H7].
  assert (Hd : servers (exec (dispose cm) w) =
               exec LoopbackServer.dispose <$> servers w ∧
               activeServers (exec (dispose cm) w) = ∅).
  { rewrite exec_dispose. cbv zeta.
    destruct (same_servers_dispose_prefix cm w) as (Hs1 & _ & Ha1 & _).
    match goal with
    | |- context [exec (for_each ?f ?l) ?x] =>
        destruct (dispose_loop l x) as [Hs _]
    end.
    split; [|done].
    change (servers (set_activeServers ∅ ?x)) with (servers x).
    apply map_eq. intros t. rewrite Hs, Ha1, Hs1, lookup_fmap. clear Hs.
    case_decide as Hin; [done|].
    rewrite elem_of_elements in Hin.
    destruct (servers w !! t) as [sv|] eqn:Hsv; [|done]. simpl.
    rewrite dispose_disposed; [done|].
    by apply (H6 t sv). }
  destruct Hd as [Hs Ha].
  assert (Hrel : all_released (exec (dispose cm) w)).
  { split; [done|]. intros t sv. rewrite Hs, lookup_fmap.
    destruct (servers w !! t) as [sv0|]; [|done]. intros [= <-].
    apply LoopbackFacts.dispose_isDisposed. }
  destruct (released_drain _ Hrel) as [Hs' Ha'].
  assert (Hw' : all_released w').
  { subst w'. rewrite exec_bind. split; [done|]. rewrite Hs'. apply Hrel. }
  assert (Hsw' : servers w' = exec LoopbackServer.dispose <$> servers w).
  { subst w'. rewrite exec_bind. congruence. }
  destruct (dispose_all_released cm' w' Hw') as [Hs2 Hrel2].
  destruct (released_drain _ Hrel2) as [Hs3 Ha3].
  split; [apply Hw'|]. split; [done|]. split; [apply Hw'|].
  subst w''. rewrite exec_bind. split; [done|congruence].
Qed.

(** X12. A server that cannot tell its port fails the trigger.  When the
    listen callback finds no address, or the address of a pipe, the call of
    [trigger] that waits for [start()] rejects with "Failed to acquire
    server port": its server, which listens by then, is disposed, hence
    closed unless it was disposed before, and it leaves [activeServers];
    the browser is not opened, and the code manager is not told, so the
    wait for the code stays registered. *)
Theorem failed_start_rejects_the_trigger
    (w : world) (t : nat) (a : activation) (sv : LoopbackServer.t)
    (addr : LoopbackServer.address) :
  triggers w !! t = Some a →
  at_ a = AwaitStart →
  servers w !! t = Some sv →
  LoopbackServer.listen sv = Some Pending →
  jobs w = [] →
  (∀ ip family port, addr ≠ LoopbackServer.AddressInfo ip family port) →
  let w' := exec (step (Listening t addr)) w in
  let sv' := exec LoopbackServer.dispose
               (exec (LoopbackServer.listening_callback addr) sv) in
  eval (step (Listening t addr)) w = Ran ∧
  triggers w' !! t = Some (ended a (Throws LoopbackServer.FAILED_TO_GET_PORT)) ∧
  (t ∉ activeServers w') ∧
  servers w' !! t = Some sv' ∧
  LoopbackServer.listen sv' = Some (Rejected LoopbackServer.FAILED_TO_GET_PORT) ∧
  LoopbackServer.isDisposed sv' = true ∧
  (LoopbackServer.isDisposed sv = false →
   LoopbackServer.listening (LoopbackServer.server sv') = false ∧
   LoopbackServer.closeCalls (LoopbackServer.server sv') =
     S (LoopbackServer.closeCalls (LoopbackServer.server sv))) ∧
  opened w' = opened w ∧
  codeManager w' = codeManager w.
Proof.
  intros Ha Hat Hsv Hl Hj Haddr w' sv'.
  pose (sv1 :=
    {| LoopbackServer.listen :=
         Some (Rejected LoopbackServer.FAILED_TO_GET_PORT);
       LoopbackServer.isDisposed := LoopbackServer.isDisposed sv;
       LoopbackServer.server :=
         {| LoopbackServer.listening := true;
            LoopbackServer.listenCalls :=
              LoopbackServer.listenCalls (LoopbackServer.server sv);
            LoopbackServer.closeCalls :=
              LoopbackServer.closeCalls (LoopbackServer.server sv) |};
       LoopbackServer.handles := LoopbackServer.handles sv |}).
  assert (Hcb : LoopbackServer.listening_callback addr sv = (true, sv1)).
  { destruct sv as [l d h hs]. simpl in Hl. subst l.
    destruct addr as [ip family port| |]; [|done..].
    by destruct (Haddr ip family port). }
  assert (Hstep : step (Listening t addr) w =
            (Ran, caught t a LoopbackServer.FAILED_TO_GET_PORT sv1
                    (set_servers (<[t := sv1]> (servers w)) w))).
  { apply LoopbackFacts.step_idle; [|done].
    unfold Loopback.handle, mbind, St_bind, gets, on_server.
    rewrite Hsv, Hcb. simpl.
    rewrite Ha, lookup_insert_eq. simpl. rewrite Hat. simpl.
    unfold mbind, St_bind.
    erewrite LoopbackFacts.trigger_catch_eq;
      [done|by simpl; rewrite lookup_insert_eq]. }
  assert (Hsv' : sv' = exec LoopbackServer.dispose sv1).
  { subst sv'. unfold exec at 2. by rewrite Hcb. }
  rewrite Hsv'. subst w'. clear Hsv' sv'.
  unfold eval, exec at 1 2 3 4 5. rewrite Hstep. simpl.
  rewrite !lookup_insert_eq.
  split; [done|]. split; [done|]. split.
  { rewrite elem_of_difference, elem_of_singleton. by intros [_ ?]. }
  split; [done|]. subst sv1. unfold exec. simpl.
  split; [by destruct (LoopbackServer.isDisposed sv)|].
  split; [by destruct (LoopbackServer.isDisposed sv)|].
  split; [by intros ->|]. by rewrite Hstep.
Qed.

#[local] Abbreviation bound := (bound DEFAULT_AUTH_URL_OPTS).
#[local] Abbreviation phase_inv := (phase_inv DEFAULT_AUTH_URL_OPTS).
#[local] Abbreviation auth_url := (auth_url DEFAULT_AUTH_URL_OPTS).

(** The address of an activation stays bound while the servers go through
    their methods and the browser is opened again. *)
Lemma bound_mono t a address w w' :
  bound t a address w →
  (∀ sv, servers w !! t = Some sv →
     ∃ o, servers w' !! t = Some sv ∨
          servers w' !! t = Some (exec (LoopbackServerLife.apply o) sv)) →
  (∀ u, u ∈ opened w → u ∈ opened w') →
  bound t a address w'.
Proof.
  intros (sv & port & Hsv & Hl & Had & Hin) Hs Ho.
  destruct (Hs sv Hsv) as [o [Hsv'|Hsv']].
  - exists sv, port. repeat split; try done. by apply Ho.
  - exists (exec (LoopbackServerLife.apply o) sv), port.
    repeat split; try done; [|by apply Ho].
    destruct (LoopbackServerLifeFacts.apply_settled o sv) as [-> _]; [|done].
    by rewrite Hl.
Qed.

Lemma bound_options t a a' address w :
  options a' = options a → bound t a address w → bound t a' address w.
Proof.
  intros Ho (sv & port & ? & ? & ? & Hin). exists sv, port.
  repeat split; try done. unfold FlowLife.auth_url in *. by rewrite Ho.
Qed.

Lemma phase_inv_mono w w' :
  phase_inv w →
  triggers w' = triggers w →
  (∀ t sv, servers w !! t = Some sv →
     ∃ o, servers w' !! t = Some sv ∨
          servers w' !! t = Some (exec (LoopbackServerLife.apply o) sv)) →
  (∀ u, u ∈ opened w → u ∈ opened w') →
  phase_inv w'.
Proof.
  intros Hw Ht Hs Ho t a. rewrite Ht. intros Ha. specialize (Hw t a Ha).
  destruct (at_ a) as [|ad|ad|[r|err]]; try done;
    (apply (bound_mono t a _ w); [done|apply Hs|done]).
Qed.

Lemma phase_inv_eq w w' :
  phase_inv w →
  servers w' = servers w → triggers w' = triggers w → opened w' = opened w →
  phase_inv w'.
Proof.
  intros Hw Hs Ht Ho. apply (phase_inv_mono w); try done.
  - intros t sv Hsv. exists LoopbackServerLife.Dispose. left. by rewrite Hs.
  - intros u. by rewrite Ho.
Qed.

Lemma phase_inv_same w w' :
  phase_inv w → same_servers w w' → opened w' = opened w → phase_inv w'.
Proof. intros Hw (Hs & Ht & _ & _) Ho. by apply (phase_inv_eq w). Qed.

Lemma phase_inv_server t o sv w :
  phase_inv w → servers w !! t = Some sv →
  phase_inv (set_servers
               (<[t := exec (LoopbackServerLife.apply o) sv]> (servers w)) w).
Proof.
  intros Hw Hsv. apply (phase_inv_mono w); try done.
  intros t' sv' Hsv'. exists o. simpl. rewrite lookup_insert.
  case_decide as Hc; [|by left]. subst t'. right. congruence.
Qed.

Lemma phase_inv_on_server {A} t (m : St LoopbackServer.t A) o w :
  (∀ sv, exec m sv = exec (LoopbackServerLife.apply o) sv) →
  phase_inv w → phase_inv (exec (on_server t m) w).
Proof.
  intros Hm Hw. rewrite exec_on_server.
  destruct (servers w !! t) as [sv|] eqn:Hsv; [|done].
  rewrite Hm. by apply phase_inv_server.
Qed.

(** An activation moves on with the address it is bound to. *)
Lemma phase_inv_set_phase t a ph w :
  phase_inv w →
  match ph with
  | AwaitOpenExternal address | AwaitCode address => bound t a address w
  | Done (Returns r) => bound t a (redirectUri r) w
  | _ => True
  end →
  phase_inv (exec (set_phase t a ph) w).
Proof.
  intros Hw Hph t' a'. rewrite exec_set_phase. simpl.
  rewrite lookup_insert. case_decide as Hc.
  - subst t'. intros [= <-]. simpl.
    destruct ph as [|ad|ad|[r|err]]; try done;
      by apply (bound_options t a).
  - intros Ha'. specialize (Hw t' a' Ha').
    destruct (at_ a') as [|ad|ad|[r|err]]; done.
Qed.

Lemma phase_inv_trigger_catch t a err w :
  phase_inv w → phase_inv (exec (trigger_catch t a err) w).
Proof.
  intros Hw. unfold trigger_catch. rewrite !exec_bind.
  apply (phase_inv_set_phase t a (Done (Throws err))); [|done].
  rewrite exec_modify.
  apply (phase_inv_eq (exec (on_server t LoopbackServer.dispose) w));
    [|done..].
  by apply (phase_inv_on_server t _ LoopbackServerLife.Dispose).
Qed.

Lemma phase_inv_await_code t a address w :
  phase_inv w → bound t a address w →
  phase_inv (exec (await_code t a address) w).
Proof.
  intros Hw Hb. rewrite LoopbackFacts.exec_await_code.
  destruct (code_state (codePromise a) w) as [[|c|err]|].
  - apply (phase_inv_set_phase t a (AwaitCode address)
             (set_awaiting (<[codePromise a := t]> (awaiting w)) w)); [|done].
    by apply (phase_inv_same w).
  - by apply (phase_inv_set_phase t a
                (Done (Returns {| code := c; redirectUri := address |})) w).
  - by apply phase_inv_trigger_catch.
  - apply (phase_inv_set_phase t a (AwaitCode address)
             (set_awaiting (<[codePromise a := t]> (awaiting w)) w)); [|done].
    by apply (phase_inv_same w).
Qed.

Lemma phase_inv_run_job q w : phase_inv w → phase_inv (exec (run_job q) w).
Proof.
  intros Hw.
  destruct (LoopbackFacts.run_job_cases q w)
    as [->|(t & a & address & Haw & Ht & Hat & Hq & ->)]; [done|].
  pose proof (Hw t a Ht) as Hb. rewrite Hat in Hb.
  apply phase_inv_await_code; [by apply (phase_inv_same w)|done].
Qed.

Lemma phase_inv_for_each {A} (f : A → St world unit) l w :
  (∀ x w, phase_inv w → phase_inv (exec (f x) w)) →
  phase_inv w → phase_inv (exec (for_each f l) w).
Proof.
  intros Hf. revert w. induction l as [|x l IH]; intros w Hw; [done|].
  rewrite LoopbackFacts.exec_for_each_cons. by apply IH, Hf.
Qed.

Lemma phase_inv_fire l w : phase_inv w → phase_inv (exec (fire l) w).
Proof.
  intros Hw. destruct l as [n p|sv].
  - apply (phase_inv_same w); [done|apply same_servers_fire_reject|].
    rewrite LoopbackFacts.fire_reject.
    destruct (CodeManager.waiters (codeManager w) !! n) as [wt|]; [|done].
    by destruct (bool_decide (CodeManager.promise wt = p)).
  - simpl. rewrite exec_bind.
    by apply (phase_inv_on_server sv _ LoopbackServerLife.Dispose).
Qed.

Lemma phase_inv_trigger d o w :
  flow_inv d w → phase_inv w → phase_inv (exec (trigger o) w).
Proof.
  intros Hf Hw.
  destruct (trigger_servers o w) as (Hs & [p Ht] & Ha & Hc).
  assert (Ho : opened (exec (trigger o) w) = opened w).
  { unfold trigger, waitForCode, on_codeManager, on_server, code_state,
      onCancellationRequested, set_phase, CodeManager.waitForCode.
    st_unfold.
    destruct (CodeManager.waiters (codeManager w) !! nonce o); simpl;
      rewrite !lookup_insert_eq; simpl; by rewrite lookup_insert_eq. }
  intros t a. rewrite Ht, lookup_insert. case_decide as Hcase.
  - subst t. by intros [= <-].
  - intros Ha'. specialize (Hw t a Ha').
    assert (Hb : ∀ ad, bound t a ad w → bound t a ad (exec (trigger o) w)).
    { intros ad (sv & port & Hsv & Hl & Had & Hin). exists sv, port.
      rewrite Hs, Ho, lookup_insert_ne by done. by repeat split. }
    destruct (at_ a) as [|ad|ad|[r|err]]; try done; by apply Hb.
Qed.

Lemma phase_inv_handle d e w :
  flow_inv d w → phase_inv w → phase_inv (exec (handle e) w).
Proof.
  intros Hf Hw.
  destruct e as [o|sv a|t r|sv req|r uri|r data|ms|n|tok]; simpl.
  - rewrite exec_bind, exec_ret. by apply (phase_inv_trigger d).
  - rewrite exec_bind.
    assert (Hw1 : phase_inv
              (exec (on_server sv (LoopbackServer.listening_callback a)) w)).
    { apply (phase_inv_on_server sv _ (LoopbackServerLife.ListenCallback a));
        [|done].
      intros s. by rewrite LoopbackServerLifeFacts.exec_apply_callback. }
    remember (exec (on_server sv (LoopbackServer.listening_callback a)) w)
      as w1 eqn:E. clear E.
    destruct (eval _ w) as [[|]|]; try done.
    rewrite !exec_bind, exec_ret, !eval_gets, !exec_gets.
    destruct (triggers w1 !! sv) as [act|] eqn:Hact; [|done].
    destruct (servers w1 !! sv) as [s1|] eqn:Hs1; [|done]. simpl.
    destruct (LoopbackServer.listen s1) as [st|] eqn:Hl; [|done].
    destruct (at_ act) eqn:Hat; try done.
    destruct st as [|port|err]; simpl.
    + done.
    + rewrite exec_bind, exec_modify.
      apply phase_inv_set_phase.
      * apply (phase_inv_mono w1); try done.
        -- intros t sv0 Hsv0. exists LoopbackServerLife.Dispose. by left.
        -- intros u Hu. simpl. apply elem_of_app. by left.
      * exists s1, port. repeat split; try done. simpl.
        apply elem_of_app. right. by apply list_elem_of_singleton.
    + by apply phase_inv_trigger_catch.
  - rewrite exec_bind, eval_gets, exec_gets.
    destruct (triggers w !! t) as [act|] eqn:Hact; [|done].
    destruct (at_ act) eqn:Hat; try done.
    rewrite exec_bind, exec_ret.
    pose proof (Hw t act Hact) as Hb. rewrite Hat in Hb.
    destruct r as [b|err]; simpl.
    + by apply phase_inv_await_code.
    + by apply phase_inv_trigger_catch.
  - rewrite exec_bind, eval_gets, exec_gets.
    destruct (servers w !! sv); [|done].
    rewrite !exec_bind, eval_gets, exec_gets, exec_modify.
    match goal with
    | |- phase_inv (exec (match ?x with _ => _ end) _) => destruct x
    end; rewrite exec_ret;
      (eapply phase_inv_same;
         [|apply same_servers_handleRequest|apply opened_handleRequest]);
      by apply (phase_inv_same w).
  - rewrite exec_bind, eval_gets, exec_gets.
    case_decide; [|done].
    rewrite !exec_bind, exec_ret, exec_modify.
    eapply phase_inv_same;
      [|apply same_servers_redirect|apply opened_redirect].
    by apply (phase_inv_same w).
  - rewrite exec_bind, eval_gets, exec_gets.
    destruct (reading w !! r) as [filepath|]; [|done].
    rewrite !exec_bind, exec_ret, exec_modify.
    eapply phase_inv_same;
      [|apply same_servers_sendFile_callback|apply opened_sendFile_callback].
    by apply (phase_inv_same w).
  - rewrite exec_bind. by apply (phase_inv_same w).
  - rewrite !exec_bind, eval_gets, exec_gets, exec_on_codeManager.
    destruct (eval (on_codeManager _) w).
    + rewrite exec_bind, exec_ret. by apply (phase_inv_same w).
    + by apply (phase_inv_same w).
  - rewrite !exec_bind, eval_gets, exec_gets, exec_modify, exec_ret.
    apply phase_inv_for_each; [apply phase_inv_fire|].
    by apply (phase_inv_same w).
Qed.

Lemma phase_inv_step d e w :
  flow_inv d w → phase_inv w → phase_inv (exec (step e) w).
Proof.
  intros Hf Hw. unfold Loopback.step. rewrite !exec_bind, exec_ret.
  unfold drain. rewrite !exec_bind, exec_modify, exec_gets.
  apply phase_inv_for_each; [apply phase_inv_run_job|].
  apply (phase_inv_same (exec (handle e) w)); [|done..].
  by apply (phase_inv_handle d).
Qed.

Lemma phase_inv_drain w : phase_inv w → phase_inv (exec drain w).
Proof.
  intros Hw. unfold drain. rewrite !exec_bind, exec_modify, exec_gets.
  apply phase_inv_for_each; [apply phase_inv_run_job|].
  by apply (phase_inv_same w).
Qed.

Lemma phase_inv_dispose cm w : phase_inv w → phase_inv (exec (dispose cm) w).
Proof.
  intros Hw. rewrite exec_dispose. cbv zeta.
  match goal with
  | |- phase_inv (set_activeServers ∅ ?x) => apply (phase_inv_eq x); [|done..]
  end.
  apply phase_inv_for_each.
  { intros x w0 H0. rewrite exec_bind, exec_ret.
    by apply (phase_inv_on_server x _ LoopbackServerLife.Dispose). }
  apply (phase_inv_same w); [done|apply same_servers_dispose_prefix|].
  apply opened_dispose_prefix.
Qed.

Lemma reachable_phase_inv d w : reachable d w → phase_inv w.
Proof.
  induction 1 as [|d w e Hr IH|d w cm Hr IH].
  - intros t a. simpl. by rewrite lookup_empty.
  - apply (phase_inv_step d); [by apply reachable_flow_inv|done].
  - rewrite exec_bind. by apply phase_inv_drain, phase_inv_dispose.
Qed.

(** X13. A resolved [trigger] names its own server.  In every world the
    flow can reach, by events and by calls of [dispose()] of the flow, a
    call of [trigger] that has resolved returns as [redirectUri] the
    loopback address [http://127.0.0.1:<port>] of the port its own server
    reported; the browser was opened with the authorization URL that
    carries this same address as [redirect_uri], the state
    [nonce=<nonce>], the scopes and the challenge of the call.  The server
    is still in [activeServers], unless [dispose()] of the flow was called:
    then it is in [activeServers] or it has been disposed. *)
Theorem resolved_trigger_names_its_own_server
    (d : bool) (w : world) (t : nat) (a : activation) (r : FlowResult) :
  reachable d w →
  triggers w !! t = Some a →
  at_ a = Done (Returns r) →
  ∃ sv port,
    servers w !! t = Some sv ∧
    LoopbackServer.listen sv = Some (Fulfilled port) ∧
    redirectUri r = "http://127.0.0.1:" +:+ pretty port ∧
    {| defaults := DEFAULT_AUTH_URL_OPTS;
       redirect_uri := redirectUri r;
       state := "nonce=" +:+ nonce (options a);
       scope := scopes (options a);
       code_challenge := pkceChallenge (options a) |} ∈ opened w ∧
    (d = false → t ∈ activeServers w) ∧
    (t ∈ activeServers w ∨ LoopbackServer.isDisposed sv = true).
Proof.
  intros Hr Ha Hat.
  pose proof (reachable_phase_inv d w Hr t a Ha) as Hb. rewrite Hat in Hb.
  destruct Hb as (sv & port & Hsv & Hl & Had & Hin).
  exists sv, port.
  destruct (reachable_flow_inv d w Hr) as [_ _ _ H4 _ H6 _].
  split; [done|]. split; [done|]. split; [done|]. split; [done|]. split.
  - intros Hd. apply (H4 t a Hd Ha). by rewrite Hat.
  - destruct (decide (t ∈ activeServers w)) as [Hin'|Hout]; [by left|].
    right. by apply (H6 t sv).
Qed.

End config.

Lemma resolved_trigger_names_its_own_server_witness :
  let a := {| options := test_options; codePromise := 0;
              at_ := Done (Returns {| code := "42";
                                      redirectUri := "http://127.0.0.1:1234"
                                   |}) |} in
  ∃ sv port,
    servers resolved !! 0 = Some sv ∧
    LoopbackServer.listen sv = Some (Fulfilled port) ∧
    "http://127.0.0.1:1234" = "http://127.0.0.1:" +:+ pretty port ∧
    {| defaults := test_defaults;
       redirect_uri := "http://127.0.0.1:1234";
       state := "nonce=" +:+ nonce (options a);
       scope := scopes (options a);
       code_challenge := pkceChallenge (options a) |} ∈ opened resolved ∧
    (false = false → 0 ∈ activeServers resolved) ∧
    (0 ∈ activeServers resolved ∨ LoopbackServer.isDisposed sv = true).
Proof.
  apply (resolved_trigger_names_its_own_server test_domain test_defaults
           test_root Url.origin_form false resolved 0
           {| options := test_options; codePromise := 0;
              at_ := Done (Returns {| code := "42";
                                      redirectUri := "http://127.0.0.1:1234"
                                   |}) |}
           {| code := "42"; redirectUri := "http://127.0.0.1:1234" |}).
  - apply reachable_step, reachable_run, reachable_init.
  - reflexivity.
  - reflexivity.
Defined.

Lemma failed_start_rejects_the_trigger_witness :
  let w := exec (test_step (Trigger test_options)) init in
  let a := {| options := test_options; codePromise := 0; at_ := AwaitStart |} in
  let sv := LoopbackServerLife.starting in
  let addr := LoopbackServer.NoAddress in
  let w' := exec (test_step (Listening 0 addr)) w in
  let sv' := exec LoopbackServer.dispose
               (exec (LoopbackServer.listening_callback addr) sv) in
  eval (test_step (Listening 0 addr)) w = Ran ∧
  triggers w' !! 0 = Some (ended a (Throws LoopbackServer.FAILED_TO_GET_PORT)) ∧
  (0 ∉ activeServers w') ∧
  servers w' !! 0 = Some sv' ∧
  LoopbackServer.listen sv' = Some (Rejected LoopbackServer.FAILED_TO_GET_PORT) ∧
  LoopbackServer.isDisposed sv' = true ∧
  (LoopbackServer.isDisposed sv = false →
   LoopbackServer.listening (LoopbackServer.server sv') = false ∧
   LoopbackServer.closeCalls (LoopbackServer.server sv') =
     S (LoopbackServer.closeCalls (LoopbackServer.server sv))) ∧
  opened w' = opened w ∧
  codeManager w' = codeManager w.
Proof.
  apply (failed_start_rejects_the_trigger test_domain test_defaults test_root
           Url.origin_form
           (exec (test_step (Trigger test_options)) init) 0
           {| options := test_options; codePromise := 0; at_ := AwaitStart |}
           LoopbackServerLife.starting LoopbackServer.NoAddress);
    try reflexivity.
  discriminate.
Defined.

Lemma servers_follow_their_triggers_witness :
  let w := exec (dispose (mret []);; drain) (waiting true) in
  jobs w = [] ∧
  (∀ t, t < created w ↔ is_Some (triggers w !! t)) ∧
  (∀ t a,
     triggers w !! t = Some a →
     ∃ sv, servers w !! t = Some sv ∧
           LoopbackServerLife.reachable sv ∧
           LoopbackServer.listen sv ≠ None ∧
           (t ∈ activeServers w → thrown (at_ a) = false) ∧
           (t ∉ activeServers w → LoopbackServer.isDisposed sv = true) ∧
           (thrown (at_ a) = true → LoopbackServer.isDisposed sv = true) ∧
           (true = false → (t ∈ activeServers w ↔ thrown (at_ a) = false))) ∧
  (∀ t, t ∈ activeServers w → is_Some (triggers w !! t)).
Proof.
  apply (servers_follow_their_triggers test_domain test_defaults test_root
           Url.origin_form true
           (exec (dispose (mret []);; drain) (waiting true))).
  apply (reachable_dispose _ _ _ _ false), reachable_run, reachable_init.
Defined.

Lemma dispose_releases_every_server_witness :
  let w := waiting true in
  let w' := exec (dispose (mret []);; drain) w in
  let w'' := exec (dispose (mret []);; drain) w' in
  activeServers w' = ∅ ∧
  servers w' = exec LoopbackServer.dispose <$> servers w ∧
  (∀ t sv, servers w' !! t = Some sv → LoopbackServer.isDisposed sv = true) ∧
  activeServers w'' = ∅ ∧
  servers w'' = servers w'.
Proof.
  apply (dispose_releases_every_server test_domain test_defaults test_root
           Url.origin_form false (waiting true) (mret []) (mret [])).
  apply reachable_run, reachable_init.
Defined.

(** After [dispose()] of the flow the call of [trigger] that waits for
    its code has not rejected, and its server is no longer in
    [activeServers]. *)
Example pending_trigger_after_dispose :
  let w := exec (dispose (mret []);; drain) (waiting true) in
  triggers w !! 0 = Some test_activation ∧ activeServers w = ∅.
Proof. split; vm_compute; reflexivity. Qed.

End FlowLifeFacts.

Module ResponseFacts.
Import Loopback FlowLife FlowLifeFacts Answer.

Lemma same_responses_trans w1 w2 w3 :
  same_responses w1 w2 → same_responses w2 w3 → same_responses w1 w3.
Proof.
  intros (? & ? & ? & ?) (? & ? & ? & ?). repeat split; congruence.
Qed.

Lemma response_inv_ext w w' :
  same_responses w w' → response_inv w → response_inv w'.
Proof.
  intros (Hs & Ht & Ha & Hc) [H1 H2 H3 H4].
  split; rewrite ?Hs, ?Ht, ?Ha, ?Hc; done.
Qed.

Lemma same_responses_trigger_catch t a err w :
  same_responses w (exec (trigger_catch t a err) w).
Proof.
  rewrite LoopbackFacts.exec_trigger_catch. by destruct (servers w !! t).
Qed.

Lemma same_responses_await_code t a address w :
  same_responses w (exec (await_code t a address) w).
Proof.
  rewrite LoopbackFacts.exec_await_code.
  destruct (code_state (codePromise a) w) as [[|c|err]|]; try done.
  apply same_responses_trigger_catch.
Qed.

Lemma same_responses_run_job q w : same_responses w (exec (run_job q) w).
Proof.
  destruct (LoopbackFacts.run_job_cases q w)
    as [->|(t & a & address & _ & _ & _ & _ & ->)]; [done|].
  apply (same_responses_trans _ (set_awaiting (delete q (awaiting w)) w));
    [done|apply same_responses_await_code].
Qed.

Lemma same_responses_for_each {A} (f : A → St world unit) l w :
  (∀ x w, same_responses w (exec (f x) w)) →
  same_responses w (exec (for_each f l) w).
Proof.
  intros Hf. revert w. induction l as [|x l IH]; intros w; [done|].
  rewrite LoopbackFacts.exec_for_each_cons.
  eapply same_responses_trans; [apply Hf|apply IH].
Qed.

Lemma same_responses_drain w : same_responses w (exec drain w).
Proof.
  unfold drain. rewrite !exec_bind, exec_modify, exec_gets.
  apply (same_responses_trans _ (set_jobs [] w)); [done|].
  apply same_responses_for_each, same_responses_run_job.
Qed.

Lemma same_responses_on_server {A} t (m : St LoopbackServer.t A) w :
  same_responses w (exec (on_server t m) w).
Proof. rewrite exec_on_server. by destruct (servers w !! t). Qed.

Lemma same_responses_fire l w : same_responses w (exec (fire l) w).
Proof.
  destruct l as [n p|sv].
  - rewrite LoopbackFacts.fire_reject.
    destruct (CodeManager.waiters (codeManager w) !! n) as [wt|]; [|done].
    by destruct (bool_decide (CodeManager.promise wt = p)).
  - simpl. rewrite exec_bind. apply same_responses_on_server.
Qed.

Lemma same_responses_trigger o w : same_responses w (exec (trigger o) w).
Proof.
  unfold trigger, waitForCode, on_codeManager, on_server, code_state,
    onCancellationRequested, set_phase, CodeManager.waitForCode.
  st_unfold.
  destruct (CodeManager.waiters (codeManager w) !! nonce o); simpl;
    rewrite !lookup_insert_eq; simpl; by rewrite lookup_insert_eq.
Qed.

Lemma same_responses_after_start defaults t a st w :
  same_responses w (exec (after_start defaults t a st) w).
Proof.
  destruct st as [|port|err]; simpl; try done.
  apply same_responses_trigger_catch.
Qed.

Lemma same_responses_after_open t a address r w :
  same_responses w (exec (after_open t a address r) w).
Proof.
  destruct r as [b|err]; simpl.
  - apply same_responses_await_code.
  - apply same_responses_trigger_catch.
Qed.

(** *** Writing to a response *)

Lemma response_inv_setHeader r name value w :
  response_inv w → response_inv (exec (setHeader r name value) w).
Proof.
  intros [H1 H2 H3 H4]. rewrite exec_setHeader.
  destruct (responses w !! r) as [res|] eqn:Hr; [|done].
  split; simpl; try done.
  - intros r' res'. rewrite lookup_insert. case_decide as Hc.
    + subst r'. intros _. by apply (H1 r res).
    + apply H1.
  - intros r' res'. rewrite lookup_insert. case_decide as Hc.
    + subst r'. intros [= <-]. simpl. by apply (H2 r res).
    + apply H2.
  - intros r' p Hp. destruct (H3 _ _ Hp) as [Hn (res' & Hr' & Hs)].
    split; [done|]. rewrite lookup_insert. case_decide as Hc.
    + subst r'. eexists. split; [done|]. simpl. congruence.
    + by exists res'.
Qed.

(** The head and the end of a response that is untouched and does not
    wait for a file. *)
Lemma response_inv_answer r status hs data w :
  response_inv w →
  reading w !! r = None →
  (∀ res, responses w !! r = Some res → headersSent res = false) →
  response_inv (exec (end_ r data) (exec (writeHead r status hs) w)).
Proof.
  intros [H1 H2 H3 H4] Hrd Hfresh. rewrite exec_writeHead.
  destruct (responses w !! r) as [res|] eqn:Hr.
  - rewrite exec_end_. simpl. rewrite lookup_insert_eq, insert_insert_eq.
    destruct (H2 _ _ Hr) as (Hle & Hns & _).
    destruct (Hns (Hfresh _ eq_refl)) as [He _].
    split; simpl; try done.
    + intros r' res'. rewrite lookup_insert. case_decide as Hc.
      * subst r'. intros _. by apply (H1 r res).
      * apply H1.
    + intros r' res'. rewrite lookup_insert. case_decide as Hc.
      * subst r'. intros [= <-]. simpl. rewrite He.
        split; [lia|]. split; [done|]. by eexists.
      * apply H2.
    + intros r' p Hp. destruct (H3 _ _ Hp) as [Hn (res' & Hr' & Hs)].
      split; [done|]. rewrite lookup_insert_ne; [by exists res'|].
      intros <-. congruence.
  - rewrite exec_end_, Hr. by split.
Qed.

Lemma response_inv_init : response_inv init.
Proof.
  split; simpl.
  - intros r res. by rewrite lookup_empty.
  - intros r res. by rewrite lookup_empty.
  - intros r p. by rewrite lookup_empty.
  - intros r Hr. by apply elem_of_empty in Hr.
Qed.

(** A request arrives: its response object is new. *)
Lemma response_inv_alloc w :
  response_inv w →
  let w1 := set_requests (S (requests w))
              (set_responses (<[requests w := new_response]> (responses w)) w)
  in
  response_inv w1 ∧ reading w1 !! requests w = None ∧
  (requests w ∉ redirecting w1) ∧
  responses w1 !! requests w = Some new_response.
Proof.
  intros [H1 H2 H3 H4]. simpl.
  assert (Hrd : reading w !! requests w = None).
  { destruct (reading w !! requests w) as [p|] eqn:Hp; [|done].
    destruct (H3 _ _ Hp) as [_ (res & Hr & _)]. apply H1 in Hr. lia. }
  assert (Hre : requests w ∉ redirecting w).
  { intros Hin. apply H4 in Hin. lia. }
  split; [|by rewrite lookup_insert_eq].
  split; simpl.
  - intros r res. rewrite lookup_insert. case_decide as Hc; [lia|].
    intros Hr. apply H1 in Hr. lia.
  - intros r res. rewrite lookup_insert. case_decide as Hc.
    + intros [= <-]. simpl. split; [lia|]. split; [done|]. lia.
    + apply H2.
  - intros r p Hp. destruct (H3 _ _ Hp) as [Hn (res & Hr & Hs)].
    split; [done|]. rewrite lookup_insert_ne; [by exists res|].
    intros <-. congruence.
  - intros r Hr. apply H4 in Hr. lia.
Qed.

Lemma same_responses_on_codeManager {A} (m : St CodeManager.state A) w :
  same_responses w (exec (on_codeManager m) w).
Proof. by rewrite exec_on_codeManager. Qed.

Lemma same_responses_enqueue p w : same_responses w (exec (enqueue p) w).
Proof. rewrite exec_enqueue. by destruct p. Qed.

Lemma response_inv_handleRequest root lib req r w :
  response_inv w →
  reading w !! r = None → r ∉ redirecting w →
  responses w !! r = Some new_response →
  response_inv (exec (handleRequest root lib req r) w).
Proof.
  intros Hw Hrd Hre Hr.
  assert (Hfresh : ∀ res, responses w !! r = Some res → headersSent res = false).
  { intros res. rewrite Hr. by intros [= <-]. }
  unfold handleRequest.
  destruct (negb (Url.truthy (url req))); [done|].
  destruct (negb (Url.truthy (host req))); [done|].
  destruct (Url.new_URL lib _ _) as [u|err]; [|done].
  destruct (negb (String.eqb (method req) "GET")).
  { rewrite !exec_bind, exec_ret. by apply response_inv_answer. }
  destruct (String.eqb (Url.pathname u) "/").
  { destruct (negb (Url.truthy _)); [done|].
    destruct (_ || _); [done|].
    rewrite !exec_bind, exec_ret, exec_modify.
    match goal with
    | |- response_inv (set_redirecting _ ?x) =>
        assert (Hx : same_responses w x)
          by (eapply same_responses_trans;
                [|apply same_responses_enqueue];
              apply same_responses_on_codeManager);
        destruct Hx as (Hx1 & Hx2 & Hx3 & Hx4);
        generalize dependent x
    end.
    intros x Hx1 Hx2 Hx3 Hx4.
    destruct Hw as [H1 H2 H3 H4].
    split; simpl; rewrite ?Hx1, ?Hx2, ?Hx3, ?Hx4; try done.
    - intros r' p Hp. destruct (H3 _ _ Hp) as [Hn Hex]. split; [|done].
      rewrite elem_of_union, elem_of_singleton. intros [->|?]; [|done].
      congruence.
    - intros r'. rewrite elem_of_union, elem_of_singleton.
      intros [->|?]; [by apply (H1 r new_response)|by apply H4]. }
  destruct (String.eqb (Url.pathname u) "/favicon.ico").
  { rewrite !exec_bind, exec_ret. unfold sendFile. rewrite exec_modify.
    destruct Hw as [H1 H2 H3 H4]. split; simpl; try done.
    intros r' p. rewrite lookup_insert. case_decide as Hc.
    - subst r'. intros _. split; [done|]. by exists new_response.
    - apply H3. }
  rewrite !exec_bind, exec_ret.
  apply response_inv_answer; try done.
  by apply (response_inv_ext w).
Qed.

Lemma response_inv_redirect domain r uri w :
  response_inv w → reading w !! r = None →
  response_inv (exec (redirectSuccessfulAuth_resume domain r uri) w).
Proof.
  intros Hw Hrd. destruct uri as [u|err]; simpl.
  - rewrite exec_bind, exec_gets, eval_gets.
    destruct (responses w !! r) as [res|] eqn:Hr; simpl.
    + destruct (headersSent res) eqn:Hs; [done|].
      rewrite exec_bind. apply response_inv_answer; try done.
      intros res'. rewrite Hr. by intros [= <-].
    + rewrite exec_bind. apply response_inv_answer; try done.
      intros res'. by rewrite Hr.
  - by apply (response_inv_ext w).
Qed.

Lemma response_inv_unread r w :
  response_inv w →
  response_inv (set_reading (delete r (reading w)) w).
Proof.
  intros [H1 H2 H3 H4]. split; simpl; try done.
  intros r' p. rewrite lookup_delete. case_decide; [done|]. apply H3.
Qed.

Lemma response_inv_sendFile_callback r filepath p data w :
  response_inv w → reading w !! r = Some p →
  response_inv
    (exec (sendFile_callback r filepath data)
       (set_reading (delete r (reading w)) w)).
Proof.
  intros Hw Hp. destruct (response_reading w Hw r p Hp) as [_ (res & Hr & Hs)].
  pose proof (response_inv_unread r w Hw) as Hw1.
  destruct data as [content|err]; simpl; rewrite !exec_bind.
  - apply response_inv_answer.
    + by apply response_inv_setHeader.
    + rewrite exec_setHeader. simpl. rewrite Hr. simpl.
      by rewrite lookup_delete_eq.
    + intros res'. rewrite exec_setHeader. simpl. rewrite Hr. simpl.
      rewrite lookup_insert_eq. by intros [= <-].
  - apply response_inv_answer.
    + by apply (response_inv_ext (set_reading (delete r (reading w)) w)).
    + simpl. by rewrite lookup_delete_eq.
    + intros res'. simpl. rewrite Hr. by intros [= <-].
Qed.

Lemma log_trigger_catch t a err w :
  log (exec (trigger_catch t a err) w) = log w.
Proof.
  rewrite LoopbackFacts.exec_trigger_catch. by destruct (servers w !! t).
Qed.

Lemma log_await_code t a address w :
  log (exec (await_code t a address) w) = log w.
Proof.
  rewrite LoopbackFacts.exec_await_code.
  destruct (code_state (codePromise a) w) as [[|c|err]|]; try done.
  apply log_trigger_catch.
Qed.

Lemma log_run_job q w : log (exec (run_job q) w) = log w.
Proof.
  destruct (LoopbackFacts.run_job_cases q w)
    as [->|(t & a & address & _ & _ & _ & _ & ->)]; [done|].
  by rewrite log_await_code.
Qed.

Lemma log_for_each_run_job js w :
  log (exec (for_each run_job js) w) = log w.
Proof.
  revert w. induction js as [|q js IH]; intros w; [done|].
  by rewrite LoopbackFacts.exec_for_each_cons, IH, log_run_job.
Qed.

Lemma log_drain w : log (exec drain w) = log w.
Proof.
  unfold drain. rewrite !exec_bind, exec_modify, exec_gets.
  by rewrite log_for_each_run_job.
Qed.

Lemma same_responses_dispose cm w : same_responses w (exec (dispose cm) w).
Proof.
  rewrite exec_dispose. cbv zeta.
  match goal with
  | |- same_responses _ (set_activeServers ∅ ?x) =>
      change (same_responses w x)
  end.
  eapply same_responses_trans; [|apply same_responses_for_each].
  - eapply same_responses_trans; [|apply same_responses_for_each].
    + apply same_responses_on_codeManager.
    + intros p w0. apply same_responses_enqueue.
  - intros t w0. rewrite exec_bind, exec_ret. apply same_responses_on_server.
Qed.

Section config.

Variable ColabApiDomain : string.
Variable DEFAULT_AUTH_URL_OPTS : list (string * string).
Variable serveRoot : string.
Variable lib : Url.Library.

#[local] Abbreviation step :=
  (step ColabApiDomain DEFAULT_AUTH_URL_OPTS serveRoot lib).
#[local] Abbreviation handle :=
  (handle ColabApiDomain DEFAULT_AUTH_URL_OPTS serveRoot lib).
#[local] Abbreviation reachable :=
  (reachable ColabApiDomain DEFAULT_AUTH_URL_OPTS serveRoot lib).

Lemma response_inv_handle e w :
  response_inv w → response_inv (exec (handle e) w).
Proof.
  intros Hw. destruct e as [o|sv a|t r|sv req|r uri|r data|ms|n|tok]; simpl.
  - rewrite exec_bind, exec_ret.
    apply (response_inv_ext w); [apply same_responses_trigger|done].
  - rewrite exec_bind.
    assert (Hw1 : response_inv
              (exec (on_server sv (LoopbackServer.listening_callback a)) w))
      by (apply (response_inv_ext w); [apply same_responses_on_server|done]).
    remember (exec (on_server sv (LoopbackServer.listening_callback a)) w)
      as w1 eqn:E. clear E.
    destruct (eval _ w) as [[|]|]; try done.
    rewrite !exec_bind, exec_ret, !eval_gets, !exec_gets.
    destruct (triggers w1 !! sv) as [act|] eqn:Hact; [|done].
    destruct (servers w1 !! sv ≫= LoopbackServer.listen) as [st|]; [|done].
    destruct (at_ act) eqn:Hat; try done.
    apply (response_inv_ext w1); [apply same_responses_after_start|done].
  - rewrite exec_bind, eval_gets, exec_gets.
    destruct (triggers w !! t) as [act|] eqn:Hact; [|done].
    destruct (at_ act) eqn:Hat; try done.
    rewrite exec_bind, exec_ret.
    apply (response_inv_ext w); [apply same_responses_after_open|done].
  - rewrite exec_bind, eval_gets, exec_gets.
    destruct (servers w !! sv); [|done].
    rewrite !exec_bind, eval_gets, exec_gets, exec_modify.
    destruct (response_inv_alloc w Hw) as (Hw1 & Hrd & Hre & Hr).
    match goal with
    | |- response_inv (exec (match ?x with _ => _ end) _) => destruct x
    end; rewrite exec_ret; by apply response_inv_handleRequest.
  - rewrite exec_bind, eval_gets, exec_gets.
    case_decide as Hin; [|done].
    rewrite !exec_bind, exec_ret, exec_modify.
    destruct (reading w !! r) as [p|] eqn:Hp.
    { by destruct (response_reading w Hw r p Hp). }
    apply response_inv_redirect; [|done].
    destruct Hw as [H1 H2 H3 H4]. split; simpl; try done.
    + intros r' p Hp'. destruct (H3 _ _ Hp') as [Hn Hex]. split; [|done].
      rewrite elem_of_difference. by intros [? _].
    + intros r'. rewrite elem_of_difference. intros [? _]. by apply H4.
  - rewrite exec_bind, eval_gets, exec_gets.
    destruct (reading w !! r) as [filepath|] eqn:Hp; [|done].
    rewrite !exec_bind, exec_ret, exec_modify.
    by apply (response_inv_sendFile_callback r filepath filepath).
  - rewrite exec_bind. by apply (response_inv_ext w).
  - rewrite !exec_bind, eval_gets, exec_gets, exec_on_codeManager.
    destruct (eval (on_codeManager _) w).
    + rewrite exec_bind, exec_ret. by apply (response_inv_ext w).
    + by apply (response_inv_ext w).
  - rewrite !exec_bind, eval_gets, exec_gets, exec_modify, exec_ret.
    eapply response_inv_ext;
      [apply same_responses_for_each, same_responses_fire|].
    by apply (response_inv_ext w).
Qed.

Lemma response_inv_step e w : response_inv w → response_inv (exec (step e) w).
Proof.
  intros Hw. unfold Loopback.step. rewrite !exec_bind, exec_ret.
  eapply response_inv_ext; [apply same_responses_drain|].
  by apply response_inv_handle.
Qed.

Lemma reachable_response_inv d w : reachable d w → response_inv w.
Proof.
  induction 1 as [|d w e Hr IH|d w cm Hr IH].
  - apply response_inv_init.
  - by apply response_inv_step.
  - rewrite exec_bind.
    eapply response_inv_ext; [apply same_responses_drain|].
    eapply response_inv_ext; [apply same_responses_dispose|done].
Qed.

(** X14. The handler answers every request at most once.  In every
    world the flow can reach, a response was ended at most once, and then
    its head with a status code had been written; a response that still
    waits for [fs.readFile] has not been touched. *)
Theorem responses_are_ended_at_most_once
    (d : bool) (w : world) (r : nat) (res : ServerResponse) :
  reachable d w →
  responses w !! r = Some res →
  r < requests w ∧
  (endCalls res ≤ 1)%nat ∧
  (endCalls res = 1 → headersSent res = true ∧ is_Some (statusCode res)) ∧
  (is_Some (reading w !! r) →
   headersSent res = false ∧ endCalls res = 0 ∧ statusCode res = None).
Proof.
  intros Hr Hres. destruct (reachable_response_inv d w Hr) as [H1 H2 H3 H4].
  destruct (H2 _ _ Hres) as (Hle & Hns & Hst).
  split; [by apply (H1 r res)|]. split; [done|]. split.
  - intros He. split; [|by apply Hst].
    destruct (headersSent res) eqn:Hs; [done|].
    destruct (Hns eq_refl) as [? _]. lia.
  - intros [p Hp]. destruct (H3 _ _ Hp) as [_ (res' & Hr' & Hs)].
    assert (res' = res) as -> by congruence.
    by destruct (Hns Hs) as [He Hst'].
Qed.

(** What [handleRequest] does to a request that is not a well-formed
    callback: it may write to the response, to the log and to the table of
    file reads, and nothing else. *)
Lemma handleRequest_other req r w :
  well_formed lib req = false →
  let w1 := exec (handleRequest serveRoot lib req r) w in
  codeManager w1 = codeManager w ∧ same_servers w w1 ∧
  awaiting w1 = awaiting w ∧ listeners w1 = listeners w ∧
  opened w1 = opened w ∧ redirecting w1 = redirecting w ∧ jobs w1 = jobs w.
Proof.
  unfold well_formed, parsed, malformed, handleRequest. intros Hwf.
  cbv zeta.
  destruct (Url.truthy (url req)); cbn [negb andb] in *; [|done].
  destruct (Url.truthy (host req)); cbn [negb andb] in *; [|done].
  destruct (Url.new_URL lib _ _) as [u|err]; [|done].
  destruct (String.eqb (method req) "GET"); cbn [negb andb] in *.
  2:{ rewrite !exec_bind, exec_ret, exec_writeHead.
      destruct (responses w !! r) as [res|] eqn:Hr; [|by rewrite exec_end_, Hr].
      rewrite exec_end_. simpl. by rewrite lookup_insert_eq. }
  destruct (String.eqb (Url.pathname u) "/"); cbn [negb andb] in *.
  { destruct (Url.truthy (Url.get "state" _)); cbn [negb orb] in *; [|done].
    apply negb_false_iff in Hwf. by rewrite Hwf. }
  destruct (String.eqb (Url.pathname u) "/favicon.ico").
  { by rewrite !exec_bind, exec_ret. }
  rewrite !exec_bind, exec_ret, exec_writeHead. simpl.
  destruct (responses w !! r) as [res|] eqn:Hr.
  - rewrite exec_end_. simpl. by rewrite lookup_insert_eq.
  - rewrite exec_end_. simpl. by rewrite Hr.
Qed.

Lemma handleRequest_callback req r w :
  well_formed lib req = true →
  let m := on_codeManager
             (CodeManager.resolveCode (callback_nonce lib req)
                (callback_code lib req))
  in
  let w2 := exec (enqueue (eval m w)) (exec m w) in
  handleRequest serveRoot lib req r w =
  (Returns (), set_redirecting ({[r]} ∪ redirecting w2) w2).
Proof.
  intros Hwf. unfold well_formed in Hwf.
  unfold handleRequest, callback_nonce, callback_code.
  unfold parsed in *.
  destruct (Url.truthy (url req)); [|done].
  destruct (Url.truthy (host req)); [|done].
  cbn [negb andb] in *.
  destruct (Url.new_URL lib _ _) as [u|err]; [|done].
  apply andb_prop in Hwf as [Hwf Hok]. apply andb_prop in Hwf as [Hm Hp].
  unfold malformed in Hok. apply negb_true_iff in Hok.
  apply orb_false_elim in Hok as [Hok Hc].
  apply orb_false_elim in Hok as [Hst Hn].
  rewrite Hm, Hp. cbn [negb]. rewrite Hst. cbn [negb]. rewrite Hn, Hc.
  cbn [negb orb mbind option_bind].
  unfold exec, eval, mbind, St_bind, modify.
  destruct (on_codeManager _ w) as [p w1]. simpl.
  by destruct (enqueue p w1) as [[] w2].
Qed.

Lemma handle_request sv s req w :
  servers w !! sv = Some s →
  let r := requests w in
  let w1 := set_requests (S r)
              (set_responses (<[r := new_response]> (responses w)) w) in
  handle (Request sv req) w =
  (match eval (handleRequest serveRoot lib req r) w1 with
   | Returns _ => Handled r
   | Throws err => Uncaught r err
   end,
   exec (handleRequest serveRoot lib req r) w1).
Proof.
  intros Hs. unfold Loopback.handle, mbind, St_bind, gets, modify.
  rewrite Hs. unfold eval, exec.
  destruct (handleRequest _ _ _ _) as [[[]|err] w2]; done.
Qed.

Lemma exec_step' e w :
  exec (step e) w = exec drain (exec (handle e) w) ∧
  eval (step e) w = eval (handle e) w.
Proof.
  unfold Loopback.step, exec, eval, mbind, St_bind.
  destruct (handle e w) as [o w1]. simpl. by destruct (drain w1).
Qed.

(** X15. A request reaches the code manager only if it is a well-formed
    callback: it has a target and a [Host] header that [new URL] parses,
    it is a GET, the parsed path is [/], and the parsed query has a state
    that holds a nonce, and a code.  Then [resolveCode] is called with that
    nonce and that code, and the response waits for its redirect.  Any
    other request, also one that makes the handler throw, leaves the code
    manager, the servers and the calls of [trigger] as they are. *)
Theorem only_a_callback_reaches_the_code_manager
    (w : world) (sv : nat) (req : IncomingMessage) :
  jobs w = [] →
  is_Some (servers w !! sv) →
  let r := requests w in
  let w' := exec (step (Request sv req)) w in
  if well_formed lib req
  then eval (step (Request sv req)) w = Handled r ∧
       codeManager w' =
         exec (CodeManager.resolveCode (callback_nonce lib req)
                 (callback_code lib req))
           (codeManager w) ∧
       redirecting w' = {[r]} ∪ redirecting w ∧
       responses w' !! r = Some new_response
  else same_flow w w'.
Proof.
  intros Hj [s Hs] r w'. subst w'.
  destruct (exec_step' (Request sv req) w) as [-> ->].
  pose proof (handle_request sv s req w Hs) as Hh. cbv zeta in Hh. fold r in Hh.
  assert (He : exec (handle (Request sv req)) w =
               exec (handleRequest serveRoot lib req r)
                 (set_requests (S r)
                    (set_responses (<[r := new_response]> (responses w)) w)))
    by (unfold exec at 1; by rewrite Hh).
  assert (Hv : eval (handle (Request sv req)) w =
               match eval (handleRequest serveRoot lib req r)
                       (set_requests (S r)
                          (set_responses (<[r := new_response]> (responses w))
                             w)) with
               | Returns _ => Handled r
               | Throws err => Uncaught r err
               end)
    by (unfold eval at 1; by rewrite Hh).
  rewrite He, Hv. clear He Hv Hh.
  destruct (well_formed lib req) eqn:Hwf.
  - pose proof (handleRequest_callback req r
                  (set_requests (S r)
                     (set_responses (<[r := new_response]> (responses w)) w))
                  Hwf) as Hcb.
    cbv zeta in Hcb.
    rewrite (f_equal fst Hcb : eval _ _ = _).
    rewrite (f_equal snd Hcb : exec _ _ = _). simpl fst. simpl snd.
    rewrite LoopbackFacts.drain_codeManager.
    match goal with
    | |- context [exec drain ?x] =>
        destruct (same_responses_drain x) as (-> & _ & -> & _)
    end.
    split; [done|].
    rewrite exec_enqueue, exec_on_codeManager.
    destruct (eval (on_codeManager _) _); simpl;
      by rewrite lookup_insert_eq.
  - destruct (handleRequest_other req r
                (set_requests (S r)
                   (set_responses (<[r := new_response]> (responses w)) w))
                Hwf)
      as (H1 & H2 & H3 & H4 & H5 & H6 & H7).
    simpl in H7. rewrite Hj in H7.
    unfold exec at 1. rewrite LoopbackFacts.drain_idle by done.
    simpl snd. repeat split; try done; by destruct H2 as (? & ? & ? & ?).
Qed.

Lemma run_two e1 e2 w :
  Loopback.run ColabApiDomain DEFAULT_AUTH_URL_OPTS serveRoot lib [e1; e2] w =
  ([eval (step e1) w; eval (step e2) (exec (step e1) w)],
   exec (step e2) (exec (step e1) w)).
Proof.
  simpl. unfold eval, exec, mbind, St_bind.
  destruct (step e1 w) as [o1 w1]. simpl. by destruct (step e2 w1).
Qed.

Lemma step_request sv s req w :
  servers w !! sv = Some s →
  let r := requests w in
  let w1 := set_requests (S r)
              (set_responses (<[r := new_response]> (responses w)) w) in
  jobs (exec (handleRequest serveRoot lib req r) w1) = [] →
  step (Request sv req) w =
  (match eval (handleRequest serveRoot lib req r) w1 with
   | Returns _ => Handled r
   | Throws err => Uncaught r err
   end,
   exec (handleRequest serveRoot lib req r) w1).
Proof.
  intros Hs r w1 Hj. apply LoopbackFacts.step_idle; [|done].
  by apply (handle_request sv s).
Qed.

Lemma step_file_read r filepath data w :
  reading w !! r = Some filepath → jobs w = [] →
  step (FileRead r data) w =
  (Ran, exec (sendFile_callback r filepath data)
          (set_reading (delete r (reading w)) w)).
Proof.
  intros Hr Hj. apply LoopbackFacts.step_idle.
  - unfold Loopback.handle, mbind, St_bind, gets, modify. rewrite Hr.
    unfold exec. by destruct (sendFile_callback _ _ _ _) as [[] w2].
  - destruct data as [content|err]; simpl;
      rewrite ?exec_bind, ?exec_setHeader, ?exec_writeHead; simpl;
      repeat (rewrite ?exec_end_, ?exec_writeHead; simpl;
              destruct (_ !! r); simpl; rewrite ?lookup_insert_eq);
      done.
Qed.

(** X16. The favicon is served from the file system.  A GET whose
    target and [Host] header [new URL] parses to the path [/favicon.ico],
    with whatever query, is answered when [fs.readFile] calls back for
    [path.join(serveRoot, "favicon.ico")]: with status 200, a
    [content-length] header that gives the number of bytes, and the
    content, or, if the file could not be read, with status 500 and an
    entry in the error log that names the file.  The code manager, the
    servers and the calls of [trigger] are not touched. *)
Theorem favicon_is_served
    (w : world) (sv : nat) (req : IncomingMessage) (u : Url.URL)
    (data : result string) :
  jobs w = [] →
  is_Some (servers w !! sv) →
  method req = "GET" →
  parsed lib req = Some u →
  Url.pathname u = "/favicon.ico" →
  let r := requests w in
  let filepath := Url.path_join lib serveRoot "favicon.ico" in
  let es := [Request sv req; FileRead r data] in
  let w' :=
    exec (Loopback.run ColabApiDomain DEFAULT_AUTH_URL_OPTS serveRoot lib es)
      w in
  eval (Loopback.run ColabApiDomain DEFAULT_AUTH_URL_OPTS serveRoot lib es) w
    = [Handled r; Ran] ∧
  reading (exec (step (Request sv req)) w) !! r = Some filepath ∧
  responses w' !! r =
    Some match data with
         | Returns content => file_response content
         | Throws _ => answer 500 [] (Some "Internal Server Error")
         end ∧
  log w' =
    log w ++
    match data with
    | Returns _ => []
    | Throws err => [LogError ("Unable to read file: " +:+ filepath) err]
    end ∧
  reading w' !! r = None ∧
  same_flow w w'.
Proof.
  intros Hj [s Hs] Hm Hparsed Hp r filepath es w'. subst w' es.
  unfold eval, exec. rewrite run_two. simpl fst. simpl snd.
  assert (Hreq : handleRequest serveRoot lib req r
                   (set_requests (S r)
                      (set_responses (<[r := new_response]> (responses w)) w))
                 = (Returns (),
                    set_reading (<[r := filepath]> (reading w))
                      (set_requests (S r)
                         (set_responses (<[r := new_response]> (responses w))
                            w)))).
  { unfold handleRequest. unfold parsed in Hparsed.
    destruct (Url.truthy (url req)); [|done].
    destruct (Url.truthy (host req)); [|done].
    cbn [negb andb] in *.
    destruct (Url.new_URL lib _ _) as [u'|err]; [|done].
    injection Hparsed as ->. rewrite Hm, Hp. done. }
  assert (H1 : step (Request sv req) w =
               (Handled r,
                set_reading (<[r := filepath]> (reading w))
                  (set_requests (S r)
                     (set_responses (<[r := new_response]> (responses w))
                        w)))).
  { rewrite (step_request sv s req w Hs); fold r;
      unfold eval, exec; rewrite Hreq; done. }
  unfold eval, exec. rewrite H1. simpl fst. simpl snd.
  rewrite (step_file_read r filepath);
    [|by simpl; rewrite lookup_insert_eq|done].
  simpl fst. simpl snd. split; [done|].
  split; [by simpl; rewrite lookup_insert_eq|].
  destruct data as [content|err]; simpl;
    rewrite !exec_bind, ?exec_setHeader, ?exec_writeHead, ?exec_end_; simpl;
    rewrite ?lookup_insert_eq; simpl;
    rewrite ?exec_writeHead; simpl; rewrite ?lookup_insert_eq; simpl;
    rewrite ?exec_end_; simpl; rewrite ?lookup_insert_eq; simpl;
    rewrite ?lookup_insert_eq, ?lookup_delete_eq, ?app_nil_r;
    repeat split; done.
Qed.

Lemma step_callback sv s req w :
  servers w !! sv = Some s →
  well_formed lib req = true →
  let r := requests w in
  let w1 := set_requests (S r)
              (set_responses (<[r := new_response]> (responses w)) w) in
  let m := on_codeManager
             (CodeManager.resolveCode (callback_nonce lib req)
                (callback_code lib req))
  in
  let w2 := exec (enqueue (eval m w1)) (exec m w1) in
  step (Request sv req) w =
  (Handled r, exec drain (set_redirecting ({[r]} ∪ redirecting w2) w2)).
Proof.
  intros Hs Hwf r w1 m w2. unfold Loopback.step, mbind, St_bind.
  rewrite (handle_request sv s req w) by done. cbv zeta. fold r w1.
  pose proof (handleRequest_callback req r w1 Hwf) as Hcb.
  cbv zeta in Hcb. fold m w2 in Hcb.
  rewrite (f_equal fst Hcb : eval _ _ = _).
  rewrite (f_equal snd Hcb : exec _ _ = _). simpl fst. simpl snd.
  unfold exec. by destruct (drain _).
Qed.

Lemma step_as_external_uri r uri w :
  r ∈ redirecting w → jobs w = [] →
  step (AsExternalUriSettles r uri) w =
  (Ran, exec (redirectSuccessfulAuth_resume ColabApiDomain r uri)
          (set_redirecting (redirecting w ∖ {[r]}) w)).
Proof.
  intros Hr Hj. apply LoopbackFacts.step_idle.
  - unfold Loopback.handle, mbind, St_bind, gets, modify.
    rewrite decide_True by done.
    unfold exec. by destruct (redirectSuccessfulAuth_resume _ _ _ _) as [[] w2].
  - destruct uri as [u|err]; simpl; [|done].
    rewrite exec_bind, exec_gets, eval_gets. simpl.
    destruct (default false _); [done|].
    rewrite exec_bind, exec_writeHead. simpl.
    destruct (responses w !! r) eqn:E; rewrite exec_end_; simpl;
      rewrite ?lookup_insert_eq, ?E; done.
Qed.

(** X17. After a well-formed callback (a GET with a target and a [Host]
    header that [new URL] parses to the path [/], with a state that holds
    a nonce, and a code) the browser is sent on.  When
    [asExternalUri] resolves, the response of the callback is answered
    with status 302 and a [Location] on the Colab domain that carries the
    percent-encoded editor URI as its state, and it is ended with no body;
    when [asExternalUri] rejects, the error is logged and the response is
    never written. *)
Theorem successful_callback_is_redirected
    (w : world) (sv : nat) (req : IncomingMessage) (uri : result string) :
  jobs w = [] →
  is_Some (servers w !! sv) →
  well_formed lib req = true →
  let r := requests w in
  let es := [Request sv req; AsExternalUriSettles r uri] in
  let w' :=
    exec (Loopback.run ColabApiDomain DEFAULT_AUTH_URL_OPTS serveRoot lib es)
      w in
  eval (Loopback.run ColabApiDomain DEFAULT_AUTH_URL_OPTS serveRoot lib es) w
    = [Handled r; Ran] ∧
  responses w' !! r =
    Some match uri with
         | Returns u =>
             answer 302
               [("Location",
                 ColabApiDomain +:+ "/vscode/auth-success?state=" +:+
                 Url.encodeURIComponent u)]
               None
         | Throws _ => new_response
         end ∧
  log w' =
    log w ++
    match uri with
    | Returns _ => []
    | Throws err =>
        [LogError "Unable to redirect the successful auth request" err]
    end ∧
  redirecting w' = ({[r]} ∪ redirecting w) ∖ {[r]}.
Proof.
  intros Hj [s Hs] Hwf r es w'. subst w' es.
  unfold eval, exec. rewrite run_two. simpl fst. simpl snd.
  pose proof (step_callback sv s req w Hs Hwf) as H1. cbv zeta in H1.
  fold r in H1.
  set (w2 := exec (enqueue _) _) in H1.
  assert (Hw2 : responses w2 !! r = Some new_response ∧
                redirecting w2 = redirecting w ∧ log w2 = log w).
  { subst w2. rewrite exec_enqueue, exec_on_codeManager.
    destruct (eval (on_codeManager _) _); simpl;
      by rewrite lookup_insert_eq. }
  destruct Hw2 as (Hr2 & Hre2 & Hl2).
  unfold eval, exec. rewrite H1. simpl fst. simpl snd.
  set (w3 := set_redirecting ({[r]} ∪ redirecting w2) w2).
  destruct (same_responses_drain w3) as (Hd1 & _ & Hd3 & _).
  assert (Hin : r ∈ redirecting (exec drain w3)).
  { rewrite Hd3. simpl. apply elem_of_union. left.
    by apply elem_of_singleton. }
  pose proof (log_drain w3) as Hd4. pose proof (jobs_drain w3) as Hd5.
  remember (exec drain w3) as w4 eqn:E. clear E.
  rewrite (step_as_external_uri r uri w4 Hin Hd5).
  simpl fst. simpl snd. split; [done|].
  assert (Hr4 : responses w4 !! r = Some new_response)
    by (by rewrite Hd1).
  assert (Hl4 : log w4 = log w) by (by rewrite Hd4).
  assert (Hre4 : redirecting w4 = {[r]} ∪ redirecting w)
    by (rewrite Hd3; simpl; by rewrite Hre2).
  clear Hd1 Hd3 Hd4 Hin H1. clearbody w3. clear w3 Hr2 Hre2 Hl2. clear w2.
  destruct uri as [u|err]; simpl.
  - rewrite exec_bind, exec_gets, eval_gets. simpl. rewrite Hr4. simpl.
    rewrite exec_bind, exec_writeHead. simpl. rewrite Hr4.
    rewrite exec_end_. simpl. rewrite !lookup_insert_eq. simpl.
    rewrite lookup_insert_eq, Hl4, Hre4, app_nil_r. done.
  - by rewrite Hr4, Hl4, Hre4.
Qed.

End config.

Lemma successful_callback_is_redirected_witness :
  let w := waiting true in
  let req := get_request "/?state=nonce%3Dnonce&code=42" in
  let uri := Returns "vscode://google.colab/auth-success" in
  let r := requests w in
  let es := [Request 0 req; AsExternalUriSettles r uri] in
  let w' := exec (test_run es) w in
  eval (test_run es) w = [Handled r; Ran] ∧
  responses w' !! r =
    Some (answer 302
            [("Location",
              test_domain +:+ "/vscode/auth-success?state=" +:+
              Url.encodeURIComponent "vscode://google.colab/auth-success")]
            None) ∧
  log w' = log w ++ [] ∧
  redirecting w' = ({[r]} ∪ redirecting w) ∖ {[r]}.
Proof.
  apply (successful_callback_is_redirected test_domain test_defaults test_root
           Url.origin_form
           (waiting true) 0 (get_request "/?state=nonce%3Dnonce&code=42")
           (Returns "vscode://google.colab/auth-success"));
    try reflexivity.
  by eexists.
Defined.

Lemma favicon_is_served_witness :
  let w := waiting true in
  let req := get_request "/favicon.ico?v=2" in
  let data := Throws (Error "ENOENT") in
  let r := requests w in
  let es := [Request 0 req; FileRead r data] in
  let w' := exec (test_run es) w in
  eval (test_run es) w = [Handled r; Ran] ∧
  reading (exec (test_step (Request 0 req)) w) !! r =
    Some "out/test/media/favicon.ico" ∧
  responses w' !! r = Some (answer 500 [] (Some "Internal Server Error")) ∧
  log w' =
    log w ++
    [LogError "Unable to read file: out/test/media/favicon.ico"
       (Error "ENOENT")] ∧
  reading w' !! r = None ∧
  same_flow w w'.
Proof.
  apply (favicon_is_served test_domain test_defaults test_root Url.origin_form
           (waiting true) 0 (get_request "/favicon.ico?v=2")
           {| Url.pathname := "/favicon.ico";
              Url.searchParams := [("v", "2")] |}
           (Throws (Error "ENOENT")));
    try reflexivity.
  by eexists.
Defined.

Lemma only_a_callback_reaches_the_code_manager_witness :
  let req := get_request "/?state=nonce%3Dnonce&code=42" in
  let w := waiting true in
  let w' := exec (test_step (Request 0 req)) w in
  eval (test_step (Request 0 req)) w = Handled (requests w) ∧
  codeManager w' =
    exec (CodeManager.resolveCode "nonce" "42") (codeManager w) ∧
  redirecting w' = {[requests w]} ∪ redirecting w ∧
  responses w' !! requests w = Some new_response.
Proof.
  apply (only_a_callback_reaches_the_code_manager test_domain test_defaults
           test_root Url.origin_form (waiting true) 0
           (get_request "/?state=nonce%3Dnonce&code=42")).
  - reflexivity.
  - by eexists.
Defined.

(** A callback without code does not reach the code manager. *)
Example callback_without_code_changes_nothing :
  let req := get_request "/?state=nonce%3Dnonce" in
  Answer.well_formed Url.origin_form req = false ∧
  codeManager (exec (test_step (Request 0 req)) (waiting true)) =
  codeManager (waiting true).
Proof. split; vm_compute; reflexivity. Qed.

Lemma responses_are_ended_at_most_once_witness :
  let w := exec (test_run [Request 0 (get_request "/favicon.ico");
                           Request 0 (get_request "/nothing")])
             (waiting true) in
  1 < requests w ∧
  (endCalls (answer 404 [] (Some "Not Found")) ≤ 1)%nat ∧
  (endCalls (answer 404 [] (Some "Not Found")) = 1 →
   headersSent (answer 404 [] (Some "Not Found")) = true ∧
   is_Some (statusCode (answer 404 [] (Some "Not Found")))) ∧
  (is_Some (reading w !! 1) →
   headersSent (answer 404 [] (Some "Not Found")) = false ∧
   endCalls (answer 404 [] (Some "Not Found")) = 0 ∧
   statusCode (answer 404 [] (Some "Not Found")) = None).
Proof.
  apply (responses_are_ended_at_most_once test_domain test_defaults test_root
           Url.origin_form false
           (exec (test_run [Request 0 (get_request "/favicon.ico");
                            Request 0 (get_request "/nothing")])
              (waiting true)) 1 (answer 404 [] (Some "Not Found"))).
  - apply reachable_run, reachable_run, reachable_init.
  - reflexivity.
Defined.

End ResponseFacts.

Module CcuInformationFacts.
Import CcuInformation.

Section ccu.

Variable CcuInfo : Type.
Variable stringify : CcuInfo → string.

#[local] Abbreviation t := (t CcuInfo).
#[local] Abbreviation step := (step CcuInfo stringify).
#[local] Abbreviation run := (run CcuInfo stringify).
#[local] Abbreviation reachable := (reachable CcuInfo stringify).
#[local] Abbreviation inv := (inv CcuInfo stringify).
#[local] Abbreviation changes := (changes CcuInfo stringify).
#[local] Abbreviation updateCcuInfo := (updateCcuInfo CcuInfo stringify).

Lemma ccu_exec_run_cons e es (s : t) :
  exec (run (e :: es)) s = exec (run es) (exec (step e) s).
Proof.
  unfold exec. simpl. unfold mbind, St_bind.
  destruct (step e s) as [o s1]. simpl. by destruct (run es s1).
Qed.

Lemma ccu_eval_run_cons e es (s : t) :
  eval (run (e :: es)) s = eval (step e) s :: eval (run es) (exec (step e) s).
Proof.
  unfold eval, exec. simpl. unfold mbind, St_bind.
  destruct (step e s) as [o s1]. simpl. by destruct (run es s1).
Qed.

Lemma step_tick (s : t) :
  step Tick s =
  if poller s then
    if isFetching s then (Skipped, s)
    else (Fetching (requests s),
          {| currentCcuInfo := currentCcuInfo s; isFetching := true;
             poller := poller s; requests := S (requests s);
             pending := pending s ++ [requests s]; fired := fired s;
             unhandled := unhandled s |})
  else (Ignored, s).
Proof.
  destruct s as [c f p r pe fi u]. simpl.
  unfold mbind, St_bind, gets. simpl. by destruct p, f.
Qed.

Lemma exec_updateCcuInfo next (s : t) :
  exec (updateCcuInfo next) s =
  if decide (Some (stringify next) = stringify <$> currentCcuInfo s) then s
  else {| currentCcuInfo := Some next; isFetching := isFetching s;
          poller := poller s; requests := requests s; pending := pending s;
          fired := fired s ++ [next]; unhandled := unhandled s |}.
Proof.
  unfold CcuInformation.updateCcuInfo, exec, mbind, St_bind, gets. simpl.
  by case_decide.
Qed.

Lemma step_fulfils k info (s : t) :
  k ∈ pending s →
  step (Fulfils k info) s =
  (Settled,
   let s1 := exec (updateCcuInfo info) s in
   {| currentCcuInfo := currentCcuInfo s1; isFetching := false;
      poller := poller s; requests := requests s;
      pending := List.filter (λ k', negb (Nat.eqb k' k)) (pending s);
      fired := fired s1; unhandled := unhandled s |}).
Proof.
  intros Hk. simpl. unfold settle, mbind, St_bind, gets.
  rewrite decide_True by done. simpl.
  unfold fetch_fulfilled, mbind, St_bind.
  pose proof (exec_updateCcuInfo info
    {| currentCcuInfo := currentCcuInfo s; isFetching := isFetching s;
       poller := poller s; requests := requests s;
       pending := List.filter (λ k', negb (Nat.eqb k' k)) (pending s);
       fired := fired s; unhandled := unhandled s |}) as H1.
  pose proof (exec_updateCcuInfo info s) as H2.
  unfold exec in *. simpl in *.
  destruct (CcuInformation.updateCcuInfo _ _ _ _) as [[] s1]. simpl in *.
  destruct (CcuInformation.updateCcuInfo _ _ _ s) as [[] s2]. simpl in *.
  subst. by case_decide.
Qed.

Lemma step_rejects k e (s : t) :
  k ∈ pending s →
  step (Rejects k e) s =
  (Settled,
   {| currentCcuInfo := currentCcuInfo s; isFetching := false;
      poller := poller s; requests := requests s;
      pending := List.filter (λ k', negb (Nat.eqb k' k)) (pending s);
      fired := fired s;
      unhandled := unhandled s ++ [("Failed to fetch CCU information", e)] |}).
Proof.
  intros Hk. simpl. unfold settle, mbind, St_bind, gets.
  by rewrite decide_True.
Qed.

Lemma step_not_pending k (s : t) e :
  k ∉ pending s →
  (∃ info, e = Fulfils k info) ∨ (∃ err, e = Rejects k err) →
  step e s = (Ignored, s).
Proof.
  intros Hk [[info ->]|[err ->]]; simpl;
    unfold settle, mbind, St_bind, gets; by rewrite decide_False.
Qed.

Lemma changes_snoc prev l x :
  changes prev l →
  match last l with Some i => Some (stringify i) | None => prev end
    ≠ Some (stringify x) →
  changes prev (l ++ [x]).
Proof.
  revert prev. induction l as [|i l IH]; intros prev; simpl.
  - by intros _ H.
  - intros [H1 H2] Hl. split; [done|]. apply IH; [done|].
    destruct l as [|j l]; [by simpl in *|]. rewrite last_cons_cons in Hl.
    destruct (last (j :: l)) eqn:E; [done|]. by apply last_None in E.
Qed.

Lemma last_initial (info0 : option CcuInfo) l :
  stringify <$> last (option_list info0 ++ l) =
  match last l with
  | Some i => Some (stringify i)
  | None => stringify <$> info0
  end.
Proof.
  destruct info0 as [i0|]; simpl; [|by destruct (last l)].
  destruct l as [|j l]; [done|].
  rewrite last_cons_cons.
  destruct (last (j :: l)) eqn:E; [done|]. by apply last_None in E.
Qed.

Lemma filter_single k :
  List.filter (λ k', negb (Nat.eqb k' k)) [k] = [].
Proof. simpl. by rewrite Nat.eqb_refl. Qed.

Lemma ccu_inv_create info0 : inv info0 (create info0).
Proof.
  split; simpl; try done. by destruct info0.
Qed.

Lemma ccu_inv_step info0 e (s : t) : inv info0 s → inv info0 (exec (step e) s).
Proof.
  intros Hinv. pose proof Hinv as [Hi Hb Hc Hcur].
  destruct e as [|k info|k err|].
  - unfold exec. rewrite step_tick.
    destruct (poller s); [|done].
    destruct (isFetching s) eqn:Hf; [done|].
    simpl. split; simpl; try done.
    intros _. exists (requests s). by rewrite Hi.
  - destruct (decide (k ∈ pending s)) as [Hk|Hk].
    + unfold exec at 1. rewrite step_fulfils by done. simpl.
      assert (Hp : List.filter (λ k', negb (Nat.eqb k' k)) (pending s) = []).
      { destruct (isFetching s) eqn:Hf.
        - destruct (Hb eq_refl) as (k0 & Hp & _). rewrite Hp in Hk |- *.
          apply list_elem_of_singleton in Hk. subst. apply filter_single.
        - rewrite Hi in Hk by done. by apply elem_of_nil in Hk. }
      rewrite exec_updateCcuInfo.
      case_decide as Hsame; split; simpl; try done.
      * apply changes_snoc; [done|].
        rewrite <- last_initial, <- Hcur. congruence.
      * by rewrite app_assoc, last_snoc.
    + unfold exec. rewrite (step_not_pending k); [done|done|].
      left. by eexists.
  - destruct (decide (k ∈ pending s)) as [Hk|Hk].
    + unfold exec at 1. rewrite step_rejects by done. simpl.
      split; simpl; try done. intros _.
      destruct (isFetching s) eqn:Hf.
      * destruct (Hb eq_refl) as (k0 & Hp & _). rewrite Hp in Hk |- *.
        apply list_elem_of_singleton in Hk. subst. apply filter_single.
      * rewrite Hi in Hk by done. by apply elem_of_nil in Hk.
    + unfold exec. rewrite (step_not_pending k); [done|done|].
      right. by eexists.
  - by split.
Qed.

Lemma ccu_reachable_inv info0 (s : t) : reachable info0 s → inv info0 s.
Proof. induction 1; [apply ccu_inv_create | by apply ccu_inv_step]. Qed.

Lemma poller_off e (s : t) :
  poller s = false →
  poller (exec (step e) s) = false ∧ requests (exec (step e) s) = requests s.
Proof.
  intros Hp. destruct e as [|k info|k err|].
  - unfold exec. by rewrite step_tick, Hp.
  - destruct (decide (k ∈ pending s)) as [Hk|Hk].
    + unfold exec. by rewrite step_fulfils.
    + unfold exec. rewrite (step_not_pending k); [done|done|].
      left. by eexists.
  - destruct (decide (k ∈ pending s)) as [Hk|Hk].
    + unfold exec. by rewrite step_rejects.
    + unfold exec. rewrite (step_not_pending k); [done|done|].
      right. by eexists.
  - done.
Qed.

Lemma poller_off_run es (s : t) :
  poller s = false → requests (exec (run es) s) = requests s.
Proof.
  revert s. induction es as [|e es IH]; intros s Hp; [done|].
  rewrite ccu_exec_run_cons. destruct (poller_off e s Hp) as [H1 H2].
  by rewrite IH.
Qed.

(** X19. The poller has at most one request in flight.  In every state
    an instance can reach, [isFetching] is set exactly while a call of
    [client.ccuInfo()] is pending, that call is the last one made, and a
    tick of the timer meanwhile is skipped: it makes no call and changes
    nothing. *)
Theorem at_most_one_fetch_in_flight (info0 : option CcuInfo) (s : t) :
  reachable info0 s →
  (length (pending s) ≤ 1)%nat ∧
  (isFetching s = true ↔ pending s ≠ []) ∧
  (∀ k, k ∈ pending s → requests s = S k) ∧
  (isFetching s = true → poller s = true → step Tick s = (Skipped, s)).
Proof.
  intros Hr. destruct (ccu_reachable_inv info0 s Hr) as [Hi Hb _ _].
  destruct (isFetching s) eqn:Hf.
  - destruct (Hb eq_refl) as (k & Hp & Hq). rewrite Hp.
    repeat split; try done.
    + intros k' Hk'. apply list_elem_of_singleton in Hk'. by subst.
    + intros _ Hpo. by rewrite step_tick, Hpo, Hf.
  - rewrite (Hi eq_refl). repeat split; try done.
    + simpl. lia.
    + intros k Hk. by apply elem_of_nil in Hk.
Qed.

(** X20. Listeners are told of changes only.  In every state an
    instance can reach, no two announcements in a row are for [CcuInfo]
    with the same JSON, the first one differs from the [CcuInfo] the
    instance was made with, and [ccuInfo] reads the last one announced,
    or the initial one if there was none. *)
Theorem only_changes_are_announced (info0 : option CcuInfo) (s : t) :
  reachable info0 s →
  changes (stringify <$> info0) (fired s) ∧
  currentCcuInfo s = last (option_list info0 ++ fired s).
Proof.
  intros Hr. by destruct (ccu_reachable_inv info0 s Hr) as [_ _ Hc Hcur].
Qed.

(** X21. A fetch that fails does not stop the polling.  When the pending
    call rejects, the rejection is handed on as an [Error] "Failed to
    fetch CCU information" with the cause, which nothing handles;
    [ccuInfo] and the announcements stay as they are, [isFetching] is
    cleared, and the next tick of the timer makes a new call. *)
Theorem polling_survives_a_failed_fetch
    (info0 : option CcuInfo) (s : t) (k : nat) (err : error) :
  reachable info0 s →
  poller s = true →
  k ∈ pending s →
  let s1 := exec (step (Rejects k err)) s in
  eval (run [Rejects k err; Tick]) s = [Settled; Fetching (requests s)] ∧
  isFetching s1 = false ∧
  pending s1 = [] ∧
  currentCcuInfo s1 = currentCcuInfo s ∧
  fired s1 = fired s ∧
  unhandled s1 = unhandled s ++ [("Failed to fetch CCU information", err)].
Proof.
  intros Hr Hpo Hk s1. destruct (ccu_reachable_inv info0 s Hr) as [Hi Hb _ _].
  assert (Hp : pending s = [k]).
  { destruct (isFetching s) eqn:Hf.
    - destruct (Hb eq_refl) as (k0 & Hp & _). rewrite Hp in Hk |- *.
      apply list_elem_of_singleton in Hk. by subst.
    - rewrite Hi in Hk by done. by apply elem_of_nil in Hk. }
  pose proof (step_rejects k err s Hk) as H1.
  rewrite Hp, filter_single in H1.
  assert (He : s1 = (step (Rejects k err) s).2) by done.
  assert (Hv : eval (step (Rejects k err)) s = (step (Rejects k err) s).1)
    by done.
  rewrite !ccu_eval_run_cons, Hv. fold s1. rewrite He, H1.
  cbn [fst snd]. split; [|done].
  f_equal. unfold eval. rewrite step_tick. cbn [poller isFetching requests].
  by rewrite Hpo.
Qed.

(** X22. [dispose()] stops the timer, not the request in flight.  After
    [dispose()] no tick makes a call again, whatever follows; but when
    the call that was pending fulfils with a [CcuInfo] whose JSON differs
    from the current one, [ccuInfo] is still updated and the change is
    still announced. *)
Theorem dispose_stops_the_timer_only
    (info0 : option CcuInfo) (s : t) (k : nat) (info : CcuInfo)
    (es : list (event CcuInfo)) :
  reachable info0 s →
  k ∈ pending s →
  Some (stringify info) ≠ stringify <$> currentCcuInfo s →
  let s1 := exec (step Dispose) s in
  let s2 := exec (step (Fulfils k info)) s1 in
  requests (exec (run es) s1) = requests s ∧
  currentCcuInfo s2 = Some info ∧
  fired s2 = fired s ++ [info].
Proof.
  intros Hr Hk Hne s1 s2. subst s2 s1. split.
  - by rewrite poller_off_run.
  - unfold exec at 1 3. rewrite step_fulfils by done. simpl.
    rewrite exec_updateCcuInfo. simpl. by rewrite decide_False.
Qed.

End ccu.

Lemma at_most_one_fetch_in_flight_witness :
  (length (pending polling) ≤ 1)%nat ∧
  (isFetching polling = true ↔ pending polling ≠ []) ∧
  (∀ k, k ∈ pending polling → requests polling = S k) ∧
  (isFetching polling = true → poller polling = true →
   step string id Tick polling = (Skipped, polling)).
Proof.
  apply (at_most_one_fetch_in_flight string id (Some "a") polling).
  apply reachable_step, reachable_create.
Defined.

Lemma only_changes_are_announced_witness :
  let s := exec (run string id [Fulfils 0 "b"; Tick; Fulfils 1 "b"]) polling in
  changes string id (Some "a") (fired s) ∧
  currentCcuInfo s = last (option_list (Some "a") ++ fired s).
Proof.
  apply (only_changes_are_announced string id (Some "a")
           (exec (run string id [Fulfils 0 "b"; Tick; Fulfils 1 "b"])
              polling)).
  rewrite !ccu_exec_run_cons.
  repeat apply reachable_step. apply reachable_create.
Defined.

Lemma polling_survives_a_failed_fetch_witness :
  let err := Error "offline" in
  let s1 := exec (step string id (Rejects 0 err)) polling in
  eval (run string id [Rejects 0 err; Tick]) polling
    = [Settled; Fetching (requests polling)] ∧
  isFetching s1 = false ∧
  pending s1 = [] ∧
  currentCcuInfo s1 = currentCcuInfo polling ∧
  fired s1 = fired polling ∧
  unhandled s1 =
    unhandled polling ++ [("Failed to fetch CCU information", err)].
Proof.
  apply (polling_survives_a_failed_fetch string id (Some "a") polling 0
           (Error "offline")).
  - apply reachable_step, reachable_create.
  - reflexivity.
  - apply list_elem_of_here.
Defined.

Lemma dispose_stops_the_timer_only_witness :
  let s1 := exec (step string id Dispose) polling in
  let s2 := exec (step string id (Fulfils 0 "b")) s1 in
  requests (exec (run string id [Tick; Tick]) s1) = requests polling ∧
  currentCcuInfo s2 = Some "b" ∧
  fired s2 = fired polling ++ ["b"].
Proof.
  apply (dispose_stops_the_timer_only string id (Some "a") polling 0 "b"
           [Tick; Tick]).
  - apply reachable_step, reachable_create.
  - apply list_elem_of_here.
  - discriminate.
Defined.

End CcuInformationFacts.
